(** * The pattern-based analyzer of [src/lib/traditional-analyzer.ts]

    A shallow embedding of [analyzeCode], of its two rule catalogs
    [CODE_PATTERNS] and [TERMINAL_PATTERNS], and of the part of the
    JavaScript runtime it relies on: strings as sequences of UTF-16 code
    units, [String.prototype.trim] and [substring], the backtracking
    regular-expression matcher with [RegExp.prototype.exec] and its
    [lastIndex] protocol, and the stable [Array.prototype.sort]. *)

From Stdlib Require Import String Ascii.
From Stdlib Require Import List NArith ZArith Arith Bool Lia.
From Stdlib Require Import Sorting.Sorted Sorting.Permutation.
From Stdlib Require DecimalNat.
Import ListNotations.

Set Implicit Arguments.

(* ================================================================== *)
(** ** JavaScript strings *)

(** A JavaScript string is a sequence of UTF-16 code units. *)
Definition char := N.
Definition jsstring := list char.

(** Literals of the source are written as Rocq strings and read one code
    unit per character (all literals of the analyzer are ASCII). *)
Fixpoint str (s : string) : jsstring :=
  match s with
  | EmptyString => []
  | String a s' => N_of_ascii a :: str s'
  end.

Definition LF : char := 10%N.
Definition DQUOTE : char := 34%N.

Definition jsstring_eqb (a b : jsstring) : bool :=
  if list_eq_dec N.eq_dec a b then true else false.

(** LineTerminator :: LF | CR | LS | PS *)
Definition isLineTerminator (c : char) : bool :=
  ((c =? 10) || (c =? 13) || (c =? 8232) || (c =? 8233))%N.

(** WhiteSpace (TAB, VT, FF, ZWNBSP and the Unicode space separators)
    together with LineTerminator: the set stripped by [trim] and matched
    by the class escape [\s]. *)
Definition isWhiteSpace (c : char) : bool :=
  ((c =? 9) || (c =? 11) || (c =? 12) || (c =? 32) || (c =? 160)
   || (c =? 5760) || ((8192 <=? c) && (c <=? 8202)) || (c =? 8239)
   || (c =? 8287) || (c =? 12288) || (c =? 65279))%N
  || isLineTerminator c.

(** The class escape [\w]: ASCII letters, digits and underscore. *)
Definition isWordChar (c : char) : bool :=
  (((97 <=? c) && (c <=? 122)) || ((65 <=? c) && (c <=? 90))
   || ((48 <=? c) && (c <=? 57)) || (c =? 95))%N.

Fixpoint trimStart (s : jsstring) : jsstring :=
  match s with
  | c :: s' => if isWhiteSpace c then trimStart s' else s
  | [] => []
  end.

(** [s.trim()] *)
Definition trim (s : jsstring) : jsstring :=
  rev (trimStart (rev (trimStart s))).

(** Truthiness of a string: non-empty. *)
Definition truthy (s : jsstring) : bool :=
  match s with [] => false | _ :: _ => true end.

(** [s.substring(0, n)] for a non-negative integer [n]. *)
Definition substring0 (s : jsstring) (n : nat) : jsstring := firstn n s.

(** Decimal rendering of a non-negative integer inside a template
    literal. *)
Fixpoint digits (d : Decimal.uint) : jsstring :=
  match d with
  | Decimal.Nil => []
  | Decimal.D0 d' => 48%N :: digits d'
  | Decimal.D1 d' => 49%N :: digits d'
  | Decimal.D2 d' => 50%N :: digits d'
  | Decimal.D3 d' => 51%N :: digits d'
  | Decimal.D4 d' => 52%N :: digits d'
  | Decimal.D5 d' => 53%N :: digits d'
  | Decimal.D6 d' => 54%N :: digits d'
  | Decimal.D7 d' => 55%N :: digits d'
  | Decimal.D8 d' => 56%N :: digits d'
  | Decimal.D9 d' => 57%N :: digits d'
  end.

Definition numToString (n : nat) : jsstring := digits (Nat.to_uint n).

(* ================================================================== *)
(** ** Regular expressions *)

Module RegExp.

(** Character classes used by the catalogs. *)
Inductive cclass :=
| CDot                       (* .      any code unit but a line terminator *)
| CSpace                     (* \s *)
| CWord                      (* \w *)
| COneOf (l : list char)     (* [abc]  *)
| CNoneOf (l : list char).   (* [^abc] *)

(** Abstract syntax of the patterns; capture groups are not recorded
    since the analyzer reads only [match[0]] and [match.index]. *)
Inductive rx :=
| Empty
| Chr (c : char)
| Cls (k : cclass)
| Seq (r1 r2 : rx)
| Alt (r1 r2 : rx)
| Star (r : rx)              (* r*   greedy *)
| Plus (r : rx)              (* r+   greedy *)
| Opt (r : rx)               (* r?   greedy *)
| NotAhead (r : rx)          (* (?!r) *)
| WordBoundary               (* \b *)
| EndAnchor.                 (* $ *)

Record flags := Flags { global : bool; ignoreCase : bool; multiline : bool }.

Record t := Make { source : rx; fl : flags }.

(** A position in the input: the code unit just before it (for [\b])
    and the code units from it on. *)
Record pos := Pos { before : option char; rest : jsstring }.

Definition matcher := pos -> (pos -> option pos) -> option pos.

(** Canonicalize of the specification, on the ASCII range; outside of it
    a code unit never canonicalizes to an ASCII one, and every character
    of the catalogs' patterns is ASCII. *)
Definition canon (f : flags) (c : char) : char :=
  if ignoreCase f
  then (if ((97 <=? c) && (c <=? 122))%N then (c - 32)%N else c)
  else c.

Definition cclass_matches (f : flags) (k : cclass) (c : char) : bool :=
  match k with
  | CDot => negb (isLineTerminator c)
  | CSpace => isWhiteSpace c
  | CWord => isWordChar c
  | COneOf l => existsb (fun a => (canon f a =? canon f c)%N) l
  | CNoneOf l => negb (existsb (fun a => (canon f a =? canon f c)%N) l)
  end.

Definition one (p : char -> bool) : matcher := fun x k =>
  match rest x with
  | c :: s => if p c then k (Pos (Some c) s) else None
  | [] => None
  end.

Definition orElse (a b : option pos) : option pos :=
  match a with Some z => Some z | None => b end.

(** RepeatMatcher with min = 0 and max = infinity, greedy: one more
    iteration is tried first, and an iteration that consumed nothing is
    rejected.  Every iteration consumes at least one code unit, so
    [fuel = length (rest x)] iterations are never exceeded. *)
Fixpoint repeatMatcher (m : matcher) (fuel : nat) (x : pos)
    (k : pos -> option pos) : option pos :=
  match fuel with
  | 0 => k x
  | S fuel' =>
      orElse
        (m x (fun y =>
                if length (rest y) <? length (rest x)
                then repeatMatcher m fuel' y k else None))
        (k x)
  end.

Definition isWordAt (c : option char) : bool :=
  match c with Some a => isWordChar a | None => false end.

Fixpoint run (f : flags) (r : rx) (x : pos) (k : pos -> option pos)
    {struct r} : option pos :=
  match r with
  | Empty => k x
  | Chr a => one (fun c => (canon f c =? canon f a)%N) x k
  | Cls cl => one (cclass_matches f cl) x k
  | Seq r1 r2 => run f r1 x (fun y => run f r2 y k)
  | Alt r1 r2 => orElse (run f r1 x k) (run f r2 x k)
  | Star r1 => repeatMatcher (run f r1) (length (rest x)) x k
  | Plus r1 =>
      run f r1 x (fun y => repeatMatcher (run f r1) (length (rest y)) y k)
  | Opt r1 =>
      orElse
        (run f r1 x (fun y =>
                       if length (rest y) <? length (rest x)
                       then k y else None))
        (k x)
  | NotAhead r1 =>
      match run f r1 x Some with
      | Some _ => None
      | None => k x
      end
  | WordBoundary =>
      if xorb (isWordAt (before x)) (isWordAt (hd_error (rest x)))
      then k x else None
  | EndAnchor =>
      match rest x with
      | [] => k x
      | c :: _ => if multiline f && isLineTerminator c then k x else None
      end
  end.

(** The result of a successful [exec]: [match.index], [match[0]] and the
    end index of the match. *)
Record MatchResult := Match { index : nat; text : jsstring; endIndex : nat }.

(** The loop of RegExpBuiltinExec: the matcher is tried at the current
    index and, on failure, at each later one up to the end of input. *)
Fixpoint search (re : t) (b : option char) (s : jsstring) (i : nat)
    {struct s} : option MatchResult :=
  match run (fl re) (source re) (Pos b s) Some with
  | Some y =>
      let n := length s - length (rest y) in
      Some (Match i (firstn n s) (i + n))
  | None =>
      match s with
      | [] => None
      | c :: s' => search re (Some c) s' (S i)
      end
  end.

Definition posAt (input : jsstring) (i : nat) : pos :=
  Pos (match i with 0 => None | S j => nth_error input j end)
      (skipn i input).

(** [re.exec(input)] with the regular expression's [lastIndex] threaded
    explicitly: the result and the new [lastIndex]. *)
Definition exec (re : t) (lastIndex : nat) (input : jsstring)
    : option MatchResult * nat :=
  let start := if global (fl re) then lastIndex else 0 in
  if length input <? start then (None, if global (fl re) then 0 else lastIndex)
  else
    match search re (before (posAt input start)) (rest (posAt input start))
                 start with
    | Some m => (Some m, if global (fl re) then endIndex m else lastIndex)
    | None => (None, if global (fl re) then 0 else lastIndex)
    end.

(** [while ((match = re.exec(input)) !== null) body]: the loop state is
    the regular expression's [lastIndex] and the accumulator the body
    updates.  [None] when the fuel runs out before [exec] returns null. *)
Fixpoint whileExec (A : Type) (fuel : nat) (re : t) (lastIndex : nat)
    (input : jsstring) (body : MatchResult -> A -> A) (acc : A)
    : option A :=
  match fuel with
  | 0 => None
  | S fuel' =>
      match exec re lastIndex input with
      | (Some m, li) => whileExec fuel' re li input body (body m acc)
      | (None, _) => Some acc
      end
  end.

(** [input.match(re)] for a global [re]: all successive matches, the
    index advancing by one after an empty match; [None] is null.  The
    index grows from one call of [exec] to the next, so the loop makes
    at most [length input + 2] calls. *)
Fixpoint matchLoop (fuel : nat) (re : t) (lastIndex : nat)
    (input : jsstring) : list jsstring :=
  match fuel with
  | 0 => []
  | S fuel' =>
      match exec re lastIndex input with
      | (Some m, li) =>
          text m ::
          matchLoop fuel' re (match text m with [] => S li | _ => li end)
                    input
      | (None, _) => []
      end
  end.

Definition stringMatch (input : jsstring) (re : t)
    : option (list jsstring) :=
  match matchLoop (S (S (length input))) re 0 input with
  | [] => None
  | l => Some l
  end.

(** A lower bound on the number of code units a match consumes. *)
Fixpoint minLen (r : rx) : nat :=
  match r with
  | Empty => 0
  | Chr _ => 1
  | Cls _ => 1
  | Seq r1 r2 => minLen r1 + minLen r2
  | Alt r1 r2 => Nat.min (minLen r1) (minLen r2)
  | Star _ => 0
  | Plus r1 => minLen r1
  | Opt _ => 0
  | NotAhead _ => 0
  | WordBoundary => 0
  | EndAnchor => 0
  end.

(** Builders for the catalogs. *)
Fixpoint lit (s : jsstring) : rx :=
  match s with
  | [] => Empty
  | [c] => Chr c
  | c :: s' => Seq (Chr c) (lit s')
  end.

Fixpoint seqs (l : list rx) : rx :=
  match l with
  | [] => Empty
  | [r] => r
  | r :: l' => Seq r (seqs l')
  end.

Fixpoint alts (l : list rx) : rx :=
  match l with
  | [] => NotAhead Empty
  | [r] => r
  | r :: l' => Alt r (alts l')
  end.

End RegExp.

Import RegExp.


(* ================================================================== *)
(** ** The rule catalogs *)

Inductive severity := error | warning | info.

Definition severity_eqb (a b : severity) : bool :=
  match a, b with
  | error, error | warning, warning | info, info => true
  | _, _ => false
  end.

Module Pattern.
Record t := Make {
  regex : RegExp.t;
  type : severity;
  category : jsstring;
  message : jsstring;
  suggestion : option jsstring;
  fixCode : option jsstring
}.
End Pattern.

(** Shorthands for writing the patterns. *)
Definition L (s : string) : rx := lit (str s).
Definition ws : rx := Star (Cls CSpace).            (* \s* *)
Definition ws1 : rx := Plus (Cls CSpace).           (* \s+ *)
Definition noneOf (s : string) : cclass := CNoneOf (str s).
Definition quote : cclass := COneOf [39%N; DQUOTE]. (* a single or a double quote *)
Definition notQuote : cclass := CNoneOf [39%N; DQUOTE].

Definition g : flags := Flags true false false.
Definition gi : flags := Flags true true false.
Definition gm : flags := Flags true false true.

Definition rule (r : rx) (f : flags) (ty : severity) (cat msg : string)
    (sugg : string) (fix_ : option jsstring) : Pattern.t :=
  Pattern.Make (RegExp.Make r f) ty (str cat) (str msg)
               (Some (str sugg)) fix_.

Definition emptyCatchFix : jsstring :=
  str "catch (error) {" ++ [LF] ++
  str "  console.error('Error:', error);" ++ [LF] ++
  str "  // Handle error appropriately" ++ [LF] ++
  str "}".

Definition useEffectFix : jsstring :=
  str "useEffect(() => {" ++ [LF] ++
  str "  const fetchData = async () => {" ++ [LF] ++
  str "    // async code here" ++ [LF] ++
  str "  };" ++ [LF] ++
  str "  fetchData();" ++ [LF] ++
  str "}, []);".

Definition CODE_PATTERNS : list Pattern.t := [
  (* Security: console\.(log|debug|info|warn|error)\s*\( *)
  rule (seqs [L "console."; alts [L "log"; L "debug"; L "info"; L "warn"; L "error"];
              ws; L "("]) g
       warning "Security"
       "Console statement found - should be removed in production"
       "Remove console statements or use a logging library with environment checks"
       None;
  (* (password|secret|api[_-]?key|token)\s*[:=]\s*Q[^Q]+Q, Q a quote class *)
  rule (seqs [alts [L "password"; L "secret";
                    seqs [L "api"; Opt (Cls (COneOf (str "_-"))); L "key"];
                    L "token"];
              ws; Cls (COneOf (str ":=")); ws;
              Cls quote; Plus (Cls notQuote); Cls quote]) gi
       error "Security"
       "Potential hardcoded secret detected"
       "Use environment variables instead of hardcoding secrets"
       None;
  (* eval\s*\( *)
  rule (seqs [L "eval"; ws; L "("]) g
       error "Security"
       "eval() is dangerous and can lead to code injection"
       "Avoid eval() - use safer alternatives like JSON.parse() for data"
       None;
  (* innerHTML\s*= *)
  rule (seqs [L "innerHTML"; ws; L "="]) g
       warning "Security"
       "innerHTML can lead to XSS vulnerabilities"
       "Use textContent or sanitize HTML with DOMPurify"
       None;
  (* dangerouslySetInnerHTML *)
  rule (L "dangerouslySetInnerHTML") g
       warning "Security"
       "dangerouslySetInnerHTML can lead to XSS attacks"
       "Sanitize content with DOMPurify before rendering"
       None;
  (* Error Handling: catch\s*\([^)]*\)\s*\{\s*\} *)
  rule (seqs [L "catch"; ws; L "("; Star (Cls (noneOf ")")); L ")"; ws;
              L "{"; ws; L "}"]) g
       error "Error Handling"
       "Empty catch block - errors are silently ignored"
       "Log errors or handle them appropriately"
       (Some emptyCatchFix);
  (* \.catch\s*\(\s*\(\s*\)\s*=>\s*\{\s*\}\s*\) *)
  rule (seqs [L ".catch"; ws; L "("; ws; L "("; ws; L ")"; ws; L "=>"; ws;
              L "{"; ws; L "}"; ws; L ")"]) g
       error "Error Handling"
       "Empty .catch() handler - Promise errors are silently ignored"
       "Handle Promise rejections properly"
       None;
  (* async\s+function[^{]+\{(?:(?!try\s*\{).)*\}$  with flags gm *)
  rule (seqs [L "async"; ws1; L "function"; Plus (Cls (noneOf "{")); L "{";
              Star (Seq (NotAhead (seqs [L "try"; ws; L "{"])) (Cls CDot));
              L "}"; EndAnchor]) gm
       warning "Error Handling"
       "Async function without try-catch block"
       "Wrap async code in try-catch for proper error handling"
       None;
  (* Code Quality: var\s+\w+ *)
  rule (seqs [L "var"; ws1; Plus (Cls CWord)]) g
       warning "Code Quality"
       "Using 'var' instead of 'let' or 'const'"
       "Use 'const' for constants, 'let' for variables that change"
       None;
  (* ==(?!=) *)
  rule (seqs [L "=="; NotAhead (L "=")]) g
       warning "Code Quality"
       "Using loose equality (==) instead of strict equality (===)"
       "Use === for strict type comparison"
       None;
  (* !=(?!=) *)
  rule (seqs [L "!="; NotAhead (L "=")]) g
       warning "Code Quality"
       "Using loose inequality (!=) instead of strict inequality (!==)"
       "Use !== for strict type comparison"
       None;
  (* \/\/\s*TODO  with flags gi *)
  rule (seqs [L "//"; ws; L "TODO"]) gi
       info "Code Quality"
       "TODO comment found - incomplete implementation"
       "Complete the TODO or create a tracked issue"
       None;
  (* \/\/\s*FIXME  with flags gi *)
  rule (seqs [L "//"; ws; L "FIXME"]) gi
       warning "Code Quality"
       "FIXME comment found - known issue needs attention"
       "Fix the issue or create a tracked bug report"
       None;
  (* \/\/\s*HACK  with flags gi *)
  rule (seqs [L "//"; ws; L "HACK"]) gi
       warning "Code Quality"
       "HACK comment found - workaround in place"
       "Consider refactoring to a proper solution"
       None;
  (* debugger\s*;? *)
  rule (seqs [L "debugger"; ws; Opt (L ";")]) g
       error "Code Quality"
       "Debugger statement found - must be removed for production"
       "Remove debugger statements before deploying"
       None;
  (* React: key\s*=\s*\{?\s*index\s*\}? *)
  rule (seqs [L "key"; ws; L "="; ws; Opt (L "{"); ws; L "index"; ws;
              Opt (L "}")]) g
       warning "React"
       "Using array index as key - can cause rendering issues"
       "Use unique identifiers instead of array indices as keys"
       None;
  (* useEffect\s*\(\s*async *)
  rule (seqs [L "useEffect"; ws; L "("; ws; L "async"]) g
       error "React"
       "useEffect callback should not be async directly"
       "Define async function inside useEffect and call it"
       (Some useEffectFix);
  (* useState\s*<[^>]+>\s*\(\s*\[\s*\]\s*\) *)
  rule (seqs [L "useState"; ws; L "<"; Plus (Cls (noneOf ">")); L ">"; ws;
              L "("; ws; L "["; ws; L "]"; ws; L ")"]) g
       info "React"
       "Consider using useMemo for expensive array initializations"
       "If this array requires computation, use useMemo"
       None;
  (* TypeScript: :\s*any\b *)
  rule (seqs [L ":"; ws; L "any"; WordBoundary]) g
       warning "TypeScript"
       "Using 'any' type defeats TypeScript's type safety"
       "Define proper types or use 'unknown' for truly unknown types"
       None;
  (* @ts-ignore *)
  rule (L "@ts-ignore") g
       warning "TypeScript"
       "@ts-ignore suppresses type checking"
       "Fix the type error instead of ignoring it"
       None;
  (* as\s+any\b *)
  rule (seqs [L "as"; ws1; L "any"; WordBoundary]) g
       warning "TypeScript"
       "Type assertion to 'any' bypasses type checking"
       "Use proper type narrowing or define correct types"
       None;
  (* Potential Bugs: if\s*\([^)]*\)\s*; *)
  rule (seqs [L "if"; ws; L "("; Star (Cls (noneOf ")")); L ")"; ws; L ";"]) g
       error "Potential Bug"
       "Empty if statement - likely a typo"
       "Remove the semicolon or add the intended code block"
       None;
  (* for\s*\([^)]*\)\s*; *)
  rule (seqs [L "for"; ws; L "("; Star (Cls (noneOf ")")); L ")"; ws; L ";"]) g
       error "Potential Bug"
       "Empty for loop - likely a typo"
       "Remove the semicolon or add the intended code block"
       None;
  (* return\s*\n\s*\{ *)
  rule (seqs [L "return"; ws; Chr LF; ws; L "{"]) g
       error "Potential Bug"
       "Return statement with line break before object - returns undefined"
       "Put the opening brace on the same line as return"
       None;
  (* =\s*=\s*= *)
  rule (seqs [L "="; ws; L "="; ws; L "="]) g
       error "Potential Bug"
       "Invalid operator (three equals with spaces)"
       "Use === without spaces for strict equality"
       None;
  (* Performance: \.map\([^)]+\)\.filter\([^)]+\) *)
  rule (seqs [L ".map("; Plus (Cls (noneOf ")")); L ")"; L ".filter(";
              Plus (Cls (noneOf ")")); L ")"]) g
       info "Performance"
       "Chained .map().filter() - consider using .reduce() for efficiency"
       "Use .reduce() to iterate only once"
       None;
  (* JSON\.parse\(JSON\.stringify\( *)
  rule (L "JSON.parse(JSON.stringify(") g
       warning "Performance"
       "Deep clone via JSON - slow and loses functions/dates"
       "Use structuredClone() or a proper deep clone library"
       None
].

Definition logRule (r : rx) (ty : severity) (cat msg : string) : Pattern.t :=
  Pattern.Make (RegExp.Make r gi) ty (str cat) (str msg) None None.

(** Terminal log patterns; every one carries the flags gi. *)
Definition TERMINAL_PATTERNS : list Pattern.t := [
  (* Error:\s*.+ *)
  logRule (seqs [L "Error:"; ws; Plus (Cls CDot)])
          error "Runtime Error" "Error detected in terminal output";
  (* TypeError:\s*.+ *)
  logRule (seqs [L "TypeError:"; ws; Plus (Cls CDot)])
          error "Type Error"
          "Type error - likely accessing property of undefined/null";
  (* ReferenceError:\s*.+ *)
  logRule (seqs [L "ReferenceError:"; ws; Plus (Cls CDot)])
          error "Reference Error" "Reference error - undefined variable used";
  (* SyntaxError:\s*.+ *)
  logRule (seqs [L "SyntaxError:"; ws; Plus (Cls CDot)])
          error "Syntax Error" "Syntax error - malformed code";
  logRule (L "ENOENT") error "File System" "File or directory not found";
  logRule (L "ECONNREFUSED")
          error "Network" "Connection refused - service may be down";
  logRule (L "ETIMEDOUT")
          error "Network" "Connection timeout - network or service issue";
  logRule (L "Cannot find module")
          error "Module" "Missing module - check package.json or imports";
  logRule (L "deprecated") warning "Deprecation" "Deprecated feature in use";
  logRule (L "warning") warning "Warning" "Warning detected in terminal output";
  (* out of memory|heap|memory leak *)
  logRule (alts [L "out of memory"; L "heap"; L "memory leak"])
          error "Memory" "Potential memory issue detected";
  (* cors|cross-origin *)
  logRule (alts [L "cors"; L "cross-origin"])
          error "CORS" "CORS issue - cross-origin request blocked";
  (* 401|unauthorized *)
  logRule (alts [L "401"; L "unauthorized"])
          error "Authentication"
          "Authentication error - invalid or missing credentials";
  (* 403|forbidden *)
  logRule (alts [L "403"; L "forbidden"])
          error "Authorization"
          "Authorization error - insufficient permissions";
  (* 404|not found *)
  logRule (alts [L "404"; L "not found"])
          warning "Not Found" "Resource not found";
  (* 500|internal server error *)
  logRule (alts [L "500"; L "internal server error"])
          error "Server Error" "Internal server error"
].

(* ================================================================== *)
(** ** The analyzer *)

Module Issue.
Record t := Make {
  type : severity;
  category : jsstring;
  message : jsstring;
  line : option nat;
  suggestion : option jsstring;
  code : option jsstring
}.
End Issue.

Module Stats.
Record t := Make { errors : nat; warnings : nat; info : nat }.
End Stats.

Record TraditionalAnalysisResult := Result {
  issues : list Issue.t;
  summary : jsstring;
  stats : Stats.t
}.

(** The regular expression [/\n/g] of [findLineNumber]. *)
Definition newlineRe : RegExp.t := RegExp.Make (Chr LF) g.

Definition findLineNumber (content : jsstring) (matchIndex : nat) : nat :=
  let beforeMatch := substring0 content matchIndex in
  length (match stringMatch beforeMatch newlineRe with
          | Some l => l
          | None => []
          end) + 1.

(** [new RegExp(pattern.regex.source, pattern.regex.flags)]: a fresh
    object, whose [lastIndex] starts at 0. *)
Definition newRegExp (p : Pattern.t) : RegExp.t :=
  RegExp.Make (source (Pattern.regex p)) (fl (Pattern.regex p)).

(** Body of the code loop: [issues.push({...})]. *)
Definition codeIssue (codeSnippet : jsstring) (pattern : Pattern.t)
    (m : MatchResult) : Issue.t :=
  let line := findLineNumber codeSnippet (index m) in
  Issue.Make (Pattern.type pattern) (Pattern.category pattern)
             (Pattern.message pattern) (Some line)
             (Pattern.suggestion pattern) (Pattern.fixCode pattern).

Definition codeBody (codeSnippet : jsstring) (pattern : Pattern.t)
    (m : MatchResult) (issues : list Issue.t) : list Issue.t :=
  issues ++ [codeIssue codeSnippet pattern m].

(** The message template of the log loop. *)
Definition logMessage (pattern : Pattern.t) (m0 : jsstring) : jsstring :=
  Pattern.message pattern ++ str ": " ++ [DQUOTE] ++ substring0 m0 50 ++
  (if 50 <? length m0 then str "..." else []) ++ [DQUOTE].

Definition logIssue (terminalLogs : jsstring) (pattern : Pattern.t)
    (m : MatchResult) : Issue.t :=
  let line := findLineNumber terminalLogs (index m) in
  Issue.Make (Pattern.type pattern) (Pattern.category pattern)
             (logMessage pattern (text m)) (Some line)
             (Pattern.suggestion pattern) None.

Definition sameKey (pattern : Pattern.t) (i : Issue.t) : bool :=
  jsstring_eqb (Issue.category i) (Pattern.category pattern)
  && severity_eqb (Issue.type i) (Pattern.type pattern).

(** Body of the log loop: the push is guarded by [issues.find]. *)
Definition logBody (terminalLogs : jsstring) (pattern : Pattern.t)
    (m : MatchResult) (issues : list Issue.t) : list Issue.t :=
  let existingIssue := find (sameKey pattern) issues in
  match existingIssue with
  | None => issues ++ [logIssue terminalLogs pattern m]
  | Some _ => issues
  end.

(** [for (const pattern of patterns) { ... while (exec) body }] *)
Fixpoint forPatterns (fuel : nat) (input : jsstring)
    (body : Pattern.t -> MatchResult -> list Issue.t -> list Issue.t)
    (patterns : list Pattern.t) (issues : list Issue.t)
    : option (list Issue.t) :=
  match patterns with
  | [] => Some issues
  | pattern :: patterns' =>
      match whileExec fuel (newRegExp pattern) 0 input (body pattern) issues with
      | Some issues' => forPatterns fuel input body patterns' issues'
      | None => None
      end
  end.

Definition scanCode (fuel : nat) (codeSnippet : jsstring)
    (issues : list Issue.t) : option (list Issue.t) :=
  if truthy (trim codeSnippet)
  then forPatterns fuel codeSnippet (codeBody codeSnippet) CODE_PATTERNS issues
  else Some issues.

Definition scanLogs (fuel : nat) (terminalLogs : jsstring)
    (issues : list Issue.t) : option (list Issue.t) :=
  if truthy (trim terminalLogs)
  then forPatterns fuel terminalLogs (logBody terminalLogs)
                   TERMINAL_PATTERNS issues
  else Some issues.

Definition severityOrder (ty : severity) : Z :=
  match ty with error => 0 | warning => 1 | info => 2 end.

(** [Array.prototype.sort] is stable: an element is placed before the
    first element it does not compare greater than. *)
Section Sort.

Variable A : Type.
Variable cmp : A -> A -> Z.

Fixpoint insertSorted (a : A) (l : list A) : list A :=
  match l with
  | [] => [a]
  | b :: l' => if (cmp a b <=? 0)%Z then a :: b :: l'
               else b :: insertSorted a l'
  end.

Definition arraySort (l : list A) : list A :=
  fold_right insertSorted [] l.

End Sort.

Definition bySeverity (a b : Issue.t) : Z :=
  (severityOrder (Issue.type a) - severityOrder (Issue.type b))%Z.

Definition countType (ty : severity) (l : list Issue.t) : nat :=
  length (filter (fun i => severity_eqb (Issue.type i) ty) l).

Definition plural (b : bool) : jsstring := if b then str "s" else [].

Definition makeSummary (n : nat) (st : Stats.t) : jsstring :=
  if n =? 0 then str "No issues detected. Code looks clean!"
  else if 0 <? Stats.errors st then
    str "Found " ++ numToString (Stats.errors st) ++ str " error" ++
    plural (1 <? Stats.errors st) ++ str ", " ++
    numToString (Stats.warnings st) ++ str " warning" ++
    plural (negb (Stats.warnings st =? 1)) ++ str ", and " ++
    numToString (Stats.info st) ++ str " info message" ++
    plural (negb (Stats.info st =? 1)) ++ str ". Address errors first."
  else if 0 <? Stats.warnings st then
    str "Found " ++ numToString (Stats.warnings st) ++ str " warning" ++
    plural (1 <? Stats.warnings st) ++ str " and " ++
    numToString (Stats.info st) ++ str " info message" ++
    plural (negb (Stats.info st =? 1)) ++
    str ". Consider addressing warnings for better code quality."
  else
    str "Found " ++ numToString (Stats.info st) ++ str " info message" ++
    plural (1 <? Stats.info st) ++ str ". Minor improvements suggested.".

(** The issues pushed by the two scans, before sorting. *)
Definition collect (fuel : nat) (codeSnippet terminalLogs : jsstring)
    : option (list Issue.t) :=
  match scanCode fuel codeSnippet [] with
  | Some issues => scanLogs fuel terminalLogs issues
  | None => None
  end.

Definition report (pushed : list Issue.t) : TraditionalAnalysisResult :=
  let issues := arraySort bySeverity pushed in
  let stats := Stats.Make (countType error issues) (countType warning issues)
                          (countType info issues) in
  Result issues (makeSummary (length issues) stats) stats.

(** [analyzeCode] with a bound on the iterations of each [while] loop;
    [None] when a loop exceeds it. *)
Definition analyzeCodeFuel (fuel : nat) (codeSnippet terminalLogs : jsstring)
    : option TraditionalAnalysisResult :=
  option_map report (collect fuel codeSnippet terminalLogs).

(** [analyzeCode]: a loop over an input of [n] code units calls [exec]
    at most [n + 1] times, so this bound is never reached. *)
Definition analyzeCode (codeSnippet terminalLogs : jsstring)
    : option TraditionalAnalysisResult :=
  analyzeCodeFuel (S (Nat.max (length codeSnippet) (length terminalLogs)))
                  codeSnippet terminalLogs.

(* ================================================================== *)
(** ** Specification-level views of the scans *)

(** The successive results of [exec] in one [while] loop, from
    [lastIndex] on: the non-overlapping matches in occurrence order. *)
Fixpoint matchesFrom (fuel : nat) (re : RegExp.t) (lastIndex : nat)
    (input : jsstring) : list MatchResult :=
  match fuel with
  | 0 => []
  | S fuel' =>
      match exec re lastIndex input with
      | (Some m, li) => m :: matchesFrom fuel' re li input
      | (None, _) => []
      end
  end.

Definition allMatches (p : Pattern.t) (input : jsstring) : list MatchResult :=
  matchesFrom (S (length input)) (newRegExp p) 0 input.

(** The regular expressions on which the [while] loop of the analyzer
    makes progress: global, and never matching the empty string. *)
Definition progressing (re : RegExp.t) : bool :=
  global (fl re) && (1 <=? minLen (source re)).

Definition nonBlank (s : jsstring) : bool := truthy (trim s).

(** Successive matches lie one after the other inside the input, each
    of them non-empty. *)
Fixpoint chained (from bound : nat) (ms : list MatchResult) : Prop :=
  match ms with
  | [] => True
  | m :: ms' =>
      from <= index m /\ index m < endIndex m /\ endIndex m <= bound /\
      chained (endIndex m) bound ms'
  end.

(** Findings of the code scan in detection order: rule-list order, then
    match-occurrence order, one finding per match. *)
Definition codeFindings (codeSnippet : jsstring) : list Issue.t :=
  if nonBlank codeSnippet
  then flat_map (fun p => map (codeIssue codeSnippet p)
                              (allMatches p codeSnippet)) CODE_PATTERNS
  else [].

(** What the log scan would push without the duplicate check. *)
Definition logCandidates (terminalLogs : jsstring) : list Issue.t :=
  if nonBlank terminalLogs
  then flat_map (fun p => map (logIssue terminalLogs p)
                              (allMatches p terminalLogs)) TERMINAL_PATTERNS
  else [].

Definition keyOf (i : Issue.t) : jsstring * severity :=
  (Issue.category i, Issue.type i).

Definition key_eqb (a b : jsstring * severity) : bool :=
  jsstring_eqb (fst a) (fst b) && severity_eqb (snd a) (snd b).

(** Keeps, in order, each element whose (category, severity) pair was
    not seen before. *)
Fixpoint firstPerKey (seen : list (jsstring * severity))
    (l : list Issue.t) : list Issue.t :=
  match l with
  | [] => []
  | i :: l' =>
      if existsb (fun k => key_eqb k (keyOf i)) seen then firstPerKey seen l'
      else i :: firstPerKey (seen ++ [keyOf i]) l'
  end.

Definition allProgressing (ps : list Pattern.t) : bool :=
  forallb (fun p => progressing (newRegExp p)) ps.

(** No category of the code catalog is a category of the log catalog. *)
Definition categoriesApart (ps qs : list Pattern.t) : bool :=
  forallb (fun p =>
    forallb (fun q =>
      negb (jsstring_eqb (Pattern.category p) (Pattern.category q))) qs) ps.

Definition logFindings (terminalLogs : jsstring) : list Issue.t :=
  firstPerKey [] (logCandidates terminalLogs).

Definition hasType (ty : severity) (i : Issue.t) : bool :=
  severity_eqb (Issue.type i) ty.

Definition severityLe (a b : Issue.t) : Prop :=
  (severityOrder (Issue.type a) <= severityOrder (Issue.type b))%Z.

(** The summary of the specification's decision table: a count word
    takes a trailing s exactly when its count is not 1. *)
Definition pluralS (count : nat) : jsstring :=
  if count =? 1 then [] else str "s".

Definition specSummary (total errorCount warningCount infoCount : nat)
    : jsstring :=
  if total =? 0 then str "No issues detected. Code looks clean!"
  else if 0 <? errorCount then
    str "Found " ++ numToString errorCount ++ str " error" ++
    pluralS errorCount ++ str ", " ++
    numToString warningCount ++ str " warning" ++ pluralS warningCount ++
    str ", and " ++
    numToString infoCount ++ str " info message" ++ pluralS infoCount ++
    str ". Address errors first."
  else if 0 <? warningCount then
    str "Found " ++ numToString warningCount ++ str " warning" ++
    pluralS warningCount ++ str " and " ++
    numToString infoCount ++ str " info message" ++ pluralS infoCount ++
    str ". Consider addressing warnings for better code quality."
  else
    str "Found " ++ numToString infoCount ++ str " info message" ++
    pluralS infoCount ++ str ". Minor improvements suggested.".

(** The number that a decimal numeral denotes, read digit by digit from
    the left; nothing for the empty string and for a string that holds
    anything but the digits 0 to 9. *)
Definition decimalDigit (c : char) : option nat :=
  if ((48 <=? c) && (c <=? 57))%N then Some (N.to_nat (c - 48)) else None.

Fixpoint decimalAcc (s : jsstring) (acc : nat) : option nat :=
  match s with
  | [] => Some acc
  | c :: s' =>
      match decimalDigit c with
      | Some d => decimalAcc s' (10 * acc + d)
      | None => None
      end
  end.

Definition decimalValue (s : jsstring) : option nat :=
  match s with
  | [] => None
  | _ :: _ => decimalAcc s 0
  end.

(** A numeral of several digits that starts with the digit 0. *)
Definition leadingZero (s : jsstring) : bool :=
  match s with
  | c :: _ :: _ => (c =? 48)%N
  | _ => false
  end.


(** Number of newline characters in a text. *)
Definition countNewlines (s : jsstring) : nat := count_occ N.eq_dec s LF.

(** [sub] occurs in [s]. *)
Definition contains (sub s : jsstring) : Prop :=
  exists pre post, s = pre ++ sub ++ post.

Fixpoint startsWith (sub s : jsstring) : bool :=
  match sub, s with
  | [], _ => true
  | a :: sub', b :: s' => (a =? b)%N && startsWith sub' s'
  | _ :: _, [] => false
  end.

Fixpoint includes (sub s : jsstring) : bool :=
  startsWith sub s ||
  match s with
  | [] => false
  | _ :: s' => includes sub s'
  end.

(** The rule for [var] declarations, ninth of the code catalog. *)
Definition varPattern : Pattern.t :=
  rule (seqs [L "var"; ws1; Plus (Cls CWord)]) g
       warning "Code Quality"
       "Using 'var' instead of 'let' or 'const'"
       "Use 'const' for constants, 'let' for variables that change"
       None.

(** A finding of category Code Quality and severity warning whose
    message mentions var. *)
Definition varFinding (i : Issue.t) : bool :=
  jsstring_eqb (Issue.category i) (str "Code Quality")
  && severity_eqb (Issue.type i) warning
  && includes (str "var") (Issue.message i).

Definition exactlyOneVarFinding (codeSnippet terminalLogs : jsstring) : Prop :=
  exists r, analyzeCode codeSnippet terminalLogs = Some r /\
            length (filter varFinding (issues r)) = 1.

(** The first newline of [t], as a match result, [i] being the index
    of the head of [t] in the whole text. *)
Fixpoint firstLF (t : jsstring) (i : nat) : option MatchResult :=
  match t with
  | [] => None
  | c :: t' =>
      if (c =? LF)%N then Some (Match i [LF] (i + 1)) else firstLF t' (S i)
  end.

(** Whether a rule produces findings of category Code Quality and
    severity warning whose message mentions var. *)
Definition varRule (p : Pattern.t) : bool :=
  jsstring_eqb (Pattern.category p) (str "Code Quality")
  && severity_eqb (Pattern.type p) warning
  && includes (str "var") (Pattern.message p).

(** The messages of a report, in order. *)
Definition messages (r : TraditionalAnalysisResult) : list jsstring :=
  map Issue.message (issues r).

(** [m] hands to its continuation a suffix of the input it received,
    at least [n] code units shorter. *)
Definition Consumes (n : nat) (m : matcher) : Prop :=
  forall x k z, m x k = Some z ->
    exists y pre, k y = Some z /\ rest x = pre ++ rest y /\ n <= length pre.

(** [m] calls its continuation only at positions of the input it
    received: two continuations that agree there give the same result. *)
Definition Local (m : matcher) : Prop :=
  forall x k1 k2,
    (forall y, length (rest y) <= length (rest x) -> k1 y = k2 y) ->
    m x k1 = m x k2.

(* ================================================================== *)
(** ** Further views of the analyzer *)

(** A code unit that is not whitespace. *)
Definition nonSpace (c : char) : bool := negb (isWhiteSpace c).

(** Patterns every match of which consumes a code unit that is not
    whitespace: a literal other than whitespace or a word character is
    on every path through the pattern. *)
Fixpoint solid (f : flags) (r : rx) : bool :=
  match r with
  | Chr c => nonSpace (canon f c)
  | Cls CWord => true
  | Seq r1 r2 => solid f r1 || solid f r2
  | Alt r1 r2 => solid f r1 && solid f r2
  | Plus r1 => solid f r1
  | _ => false
  end.

Definition allSolid (ps : list Pattern.t) : bool :=
  forallb (fun p => solid (fl (newRegExp p)) (source (newRegExp p))) ps.

(** [m] hands to its continuation a suffix of its input, having
    consumed a code unit that is not whitespace. *)
Definition ConsumesSolid (m : matcher) : Prop :=
  forall x k z, m x k = Some z ->
    exists y pre, k y = Some z /\ rest x = pre ++ rest y /\
                  existsb nonSpace pre = true.

(** The (category, severity) pair of a rule. *)
Definition patternKey (p : Pattern.t) : jsstring * severity :=
  (Pattern.category p, Pattern.type p).

Definition key_dec (a b : jsstring * severity) : {a = b} + {a <> b}.
Proof.
  decide equality.
  - decide equality.
  - apply (list_eq_dec N.eq_dec).
Defined.

(** The distinct pairs of the log catalog. *)
Definition terminalKeys : list (jsstring * severity) :=
  nodup key_dec (map patternKey TERMINAL_PATTERNS).

(** Number of lines of a text. *)
Definition lineCount (s : jsstring) : nat := countNewlines s + 1.

(** The categories of the three log rules for named errors. *)
Definition errorKind (category : jsstring) : bool :=
  jsstring_eqb category (str "Type Error")
  || jsstring_eqb category (str "Reference Error")
  || jsstring_eqb category (str "Syntax Error").

(** What follows the literal in the four error rules of the log
    catalog: [\s*.+]. *)
Definition errorTail : rx := Seq ws (Plus (Cls CDot)).

(** The first rule of the log catalog, [Error:\s*.+]. *)
Definition runtimeErrorRule : Pattern.t :=
  logRule (seqs [L "Error:"; ws; Plus (Cls CDot)])
          error "Runtime Error" "Error detected in terminal output".

(* ================================================================== *)
(** ** The report component, [TraditionalAnalysisResult] *)

(** The object [groupedIssues]: its own properties, in creation order,
    each holding an array of issues. *)
Definition JSObject := list (jsstring * list Issue.t).

(** The property names an object literal inherits from
    [Object.prototype]; reading one of them gives a function or an
    object, which is truthy and has no [push]. *)
Definition objectPrototypeNames : list jsstring :=
  map str ["constructor"; "__defineGetter__"; "__defineSetter__";
           "hasOwnProperty"; "__lookupGetter__"; "__lookupSetter__";
           "isPrototypeOf"; "propertyIsEnumerable"; "toString"; "valueOf";
           "__proto__"; "toLocaleString"]%string.

Definition inherited (k : jsstring) : bool :=
  existsb (jsstring_eqb k) objectPrototypeNames.

Fixpoint lookupOwn (k : jsstring) (o : JSObject) : option (list Issue.t) :=
  match o with
  | [] => None
  | (k', v) :: o' => if jsstring_eqb k' k then Some v else lookupOwn k o'
  end.

Fixpoint setOwn (k : jsstring) (v : list Issue.t) (o : JSObject) : JSObject :=
  match o with
  | [] => []
  | (k', v') :: o' =>
      if jsstring_eqb k' k then (k', v) :: o' else (k', v') :: setOwn k v o'
  end.

(** One call of the reducer: [if (!acc[c]) acc[c] = []; acc[c].push(issue)].
    [None] is the TypeError raised when [acc[c]] is an inherited
    property. *)
Definition groupStep (acc : JSObject) (issue : Issue.t) : option JSObject :=
  let c := Issue.category issue in
  match lookupOwn c acc with
  | Some arr => Some (setOwn c (arr ++ [issue]) acc)
  | None => if inherited c then None else Some (acc ++ [(c, [issue])])
  end.

(** [issues.reduce(step, acc)] *)
Fixpoint reduceGroups (l : list Issue.t) (acc : JSObject) : option JSObject :=
  match l with
  | [] => Some acc
  | issue :: l' =>
      match groupStep acc issue with
      | Some acc' => reduceGroups l' acc'
      | None => None
      end
  end.

Definition digitValue (c : char) : option N :=
  if ((48 <=? c) && (c <=? 57))%N then Some (c - 48)%N else None.

Fixpoint parseDigits (s : jsstring) (acc : N) : option N :=
  match s with
  | [] => Some acc
  | c :: s' =>
      match digitValue c with
      | Some d => parseDigits s' (10 * acc + d)%N
      | None => None
      end
  end.

(** An array index: the canonical decimal form of an integer below
    2^32 - 1. *)
Definition arrayIndex (k : jsstring) : option N :=
  match k with
  | [] => None
  | [c] => digitValue c
  | c :: _ =>
      if (c =? 48)%N then None
      else match parseDigits k 0 with
           | Some n => if (n <? 4294967295)%N then Some n else None
           | None => None
           end
  end.

Definition isIndex (k : jsstring) : bool :=
  match arrayIndex k with Some _ => true | None => false end.

Definition byIndex (a b : jsstring) : Z :=
  (match arrayIndex a with Some n => Z.of_N n | None => 0 end
   - match arrayIndex b with Some n => Z.of_N n | None => 0 end)%Z.

(** [Object.keys(o)]: the array indices in ascending order, then the
    other names in creation order. *)
Definition objectKeys (o : JSObject) : list jsstring :=
  arraySort byIndex (filter isIndex (map fst o)) ++
  filter (fun k => negb (isIndex k)) (map fst o).

Inductive Banner := Destructive | Caution | Success.

(** The class of the summary banner. *)
Definition bannerOf (st : Stats.t) : Banner :=
  if 0 <? Stats.errors st then Destructive
  else if 0 <? Stats.warnings st then Caution
  else Success.

(** The header of a category section: its name and the count label. *)
Definition countLabel (n : nat) : jsstring :=
  numToString n ++ str " issue" ++ (if negb (n =? 1) then str "s" else []).

Record CategorySection := Section_ {
  sectionCategory : jsstring;
  sectionLabel : jsstring;
  sectionIssues : list Issue.t
}.

Inductive Body :=
| AllClear
| Sections (l : list CategorySection).

Record View := MkView {
  viewBanner : Banner;
  viewSummary : jsstring;
  viewStats : Stats.t;
  viewBody : Body
}.

Definition sectionOf (groupedIssues : JSObject) (category : jsstring)
    : CategorySection :=
  let issues := match lookupOwn category groupedIssues with
                | Some l => l
                | None => []
                end in
  Section_ category (countLabel (length issues)) issues.

(** What the component renders; [None] when the grouping throws. *)
Definition renderResult (analysis : TraditionalAnalysisResult) : option View :=
  match reduceGroups (issues analysis) [] with
  | None => None
  | Some groupedIssues =>
      let categories := objectKeys groupedIssues in
      Some (MkView (bannerOf (stats analysis)) (summary analysis)
                   (stats analysis)
                   (if 0 <? length categories
                    then Sections (map (sectionOf groupedIssues) categories)
                    else AllClear))
  end.

(** The distinct elements of a list, in the order of their first
    occurrence. *)
Fixpoint firstSeen (seen l : list jsstring) : list jsstring :=
  match l with
  | [] => []
  | c :: l' =>
      if existsb (jsstring_eqb c) seen then firstSeen seen l'
      else c :: firstSeen (seen ++ [c]) l'
  end.

Definition inCategory (c : jsstring) (i : Issue.t) : bool :=
  jsstring_eqb (Issue.category i) c.

(** A name that is neither inherited nor an array index. *)
Definition plainName (k : jsstring) : bool :=
  negb (inherited k) && negb (isIndex k).

Definition sectionsOf (b : Body) : list CategorySection :=
  match b with AllClear => [] | Sections l => l end.

(* ================================================================== *)
(** ** The page, [Index] *)

Module AnalysisData.
Record Suggestion := MkSuggestion {
  title : jsstring;
  description : jsstring;
  code : option jsstring
}.
Record t := Make {
  rootCause : jsstring;
  errorChain : list jsstring;
  suggestedFixes : list Suggestion;
  testSuggestions : list Suggestion;
  summary : jsstring
}.
End AnalysisData.

Module Index.

Inductive AnalysisMode := ai | traditional.

(** The state of the component, one field per [useState]. *)
Record State := MkState {
  analysisMode : AnalysisMode;
  screenshot : option jsstring;
  terminalLogs : jsstring;
  codeSnippet : jsstring;
  isAnalyzing : bool;
  aiAnalysis : option AnalysisData.t;
  traditionalAnalysis : option TraditionalAnalysisResult
}.

(** A thrown value: an [Error] object with its message, or anything
    else. *)
Inductive Thrown := ErrorObject (message : jsstring) | OtherValue.

(** The [data] of a resolved call: its [error] field when truthy, as a
    string, and the analysis it carries. *)
Record ResponseData := MkData {
  dataError : option jsstring;
  analysis : AnalysisData.t
}.

(** What [await supabase.functions.invoke(...)] gives: a rejection, or
    the pair [{ data, error }], [data] possibly null and [error]
    possibly falsy. *)
Inductive InvokeResult :=
| Rejected (e : Thrown)
| Resolved (data : option ResponseData) (error : option Thrown).

(** The effects of a handler, in order. *)
Inductive Event :=
| Toast (title description : jsstring) (destructive : bool)
| InvokeFunction (name : jsstring) (screenshot : option jsstring)
                 (terminalLogs codeSnippet : jsstring)
| ConsoleError.

Definition truthyOpt (s : option jsstring) : bool :=
  match s with Some v => truthy v | None => false end.

(** [screenshot || terminalLogs.trim() || codeSnippet.trim()], as a
    condition. *)
Definition hasInput (st : State) : bool :=
  truthyOpt (screenshot st) || truthy (trim (terminalLogs st))
  || truthy (trim (codeSnippet st)).

Definition setIsAnalyzing (b : bool) (st : State) : State :=
  MkState (analysisMode st) (screenshot st) (terminalLogs st)
          (codeSnippet st) b (aiAnalysis st) (traditionalAnalysis st).

Definition setAiAnalysis (a : option AnalysisData.t) (st : State) : State :=
  MkState (analysisMode st) (screenshot st) (terminalLogs st)
          (codeSnippet st) (isAnalyzing st) a (traditionalAnalysis st).

Definition setTraditionalAnalysis (a : option TraditionalAnalysisResult)
    (st : State) : State :=
  MkState (analysisMode st) (screenshot st) (terminalLogs st)
          (codeSnippet st) (isAnalyzing st) (aiAnalysis st) a.

Definition setAnalysisMode (m : AnalysisMode) (st : State) : State :=
  MkState m (screenshot st) (terminalLogs st) (codeSnippet st)
          (isAnalyzing st) (aiAnalysis st) (traditionalAnalysis st).

Definition traditionalToast (r : TraditionalAnalysisResult) : Event :=
  Toast (str "Traditional analysis complete")
        (str "Found " ++ numToString (Stats.errors (stats r)) ++
         str " errors, " ++ numToString (Stats.warnings (stats r)) ++
         str " warnings, " ++ numToString (Stats.info (stats r)) ++
         str " info messages.")
        false.

(** The [catch] clause: the failure toast. *)
Definition failureToast (e : Thrown) : Event :=
  Toast (str "Analysis failed")
        (match e with
         | ErrorObject message => message
         | OtherValue => str "An unexpected error occurred"
         end)
        true.

Section Handlers.

(** The remote function, and the message of the TypeError raised by
    reading a property of null. *)
Variable invoke : option jsstring -> jsstring -> jsstring -> InvokeResult.
Variable nullReadMessage : jsstring.

(** The [try] block after the call returned: either the analysis to
    store, or the value thrown. *)
Definition afterInvoke (res : InvokeResult) : AnalysisData.t + Thrown :=
  match res with
  | Rejected e => inr e
  | Resolved _ (Some e) => inr e
  | Resolved None None => inr (ErrorObject nullReadMessage)
  | Resolved (Some d) None =>
      match dataError d with
      | Some message => inr (ErrorObject message)
      | None => inl (analysis d)
      end
  end.

(** [handleAnalyze]: the state after the handler has settled and the
    effects it had; [None] if the local analysis did not return. *)
Definition handleAnalyze (st : State) : option (State * list Event) :=
  if negb (hasInput st) then
    Some (st,
          [Toast (str "No input provided")
                 (str "Please add at least one: screenshot, terminal logs, or code snippet.")
                 true])
  else
    let st1 := setTraditionalAnalysis None
                 (setAiAnalysis None (setIsAnalyzing true st)) in
    match analysisMode st with
    | traditional =>
        match analyzeCode (codeSnippet st) (terminalLogs st) with
        | Some result =>
            Some (setIsAnalyzing false
                    (setTraditionalAnalysis (Some result) st1),
                  [traditionalToast result])
        | None => None
        end
    | ai =>
        let call := InvokeFunction (str "analyze-debug") (screenshot st)
                                   (terminalLogs st) (codeSnippet st) in
        match afterInvoke (invoke (screenshot st) (terminalLogs st)
                                  (codeSnippet st)) with
        | inl data =>
            Some (setIsAnalyzing false (setAiAnalysis (Some data) st1),
                  [call;
                   Toast (str "Analysis complete")
                         (str "Check out the debugging insights below.")
                         false])
        | inr e =>
            Some (setIsAnalyzing false st1,
                  [call; ConsoleError; failureToast e])
        end
    end.

End Handlers.

(** [handleClear] *)
Definition handleClear (st : State) : State :=
  MkState (analysisMode st) None [] [] (isAnalyzing st) None None.

(** The Analyze button is disabled when [!hasInput || isAnalyzing]. *)
Definition analyzeDisabled (st : State) : bool :=
  negb (hasInput st) || isAnalyzing st.

(** Which panel the results section shows. *)
Inductive Panel :=
| AiPanel (a : AnalysisData.t)
| TraditionalPanel (a : TraditionalAnalysisResult)
| Placeholder.

Definition resultsPanel (st : State) : Panel :=
  match aiAnalysis st, analysisMode st with
  | Some a, ai => AiPanel a
  | _, _ =>
      match traditionalAnalysis st, analysisMode st with
      | Some a, traditional => TraditionalPanel a
      | _, _ => Placeholder
      end
  end.

Definition isInvoke (e : Event) : bool :=
  match e with InvokeFunction _ _ _ _ => true | _ => false end.

Definition isToast (e : Event) : bool :=
  match e with Toast _ _ _ => true | _ => false end.

End Index.

(* ================================================================== *)
(** ** The analyzer script of the downloadable workflow *)

(** [analyze.js], the script that [WORKFLOW_YAML] writes and runs, read
    with the escapes of the template literal undone. *)
Module Workflow.

Record ScriptIssue := MkIssue {
  file : jsstring;
  line : nat;
  type : severity;
  category : jsstring;
  message : jsstring
}.

Definition scriptRule (r : rx) (f : flags) (ty : severity)
    (cat msg : string) : Pattern.t :=
  Pattern.Make (RegExp.Make r f) ty (str cat) (str msg) None None.

(** The pattern definitions of the script. *)
Definition CODE_PATTERNS : list Pattern.t := [
  (* Security *)
  scriptRule (seqs [L "console."; alts [L "log"; L "debug"; L "info"; L "warn"; L "error"];
                    ws; L "("]) g
             warning "Security" "Console statement found";
  scriptRule (seqs [alts [L "password"; L "secret";
                          seqs [L "api"; Opt (Cls (COneOf (str "_-"))); L "key"];
                          L "token"];
                    ws; Cls (COneOf (str ":=")); ws;
                    Cls quote; Plus (Cls notQuote); Cls quote]) gi
             error "Security" "Potential hardcoded secret";
  scriptRule (seqs [L "eval"; ws; L "("]) g
             error "Security" "eval() is dangerous";
  scriptRule (seqs [L "innerHTML"; ws; L "="]) g
             warning "Security" "innerHTML can lead to XSS";
  scriptRule (L "dangerouslySetInnerHTML") g
             warning "Security" "dangerouslySetInnerHTML XSS risk";
  (* Error Handling *)
  scriptRule (seqs [L "catch"; ws; L "("; Star (Cls (noneOf ")")); L ")"; ws;
                    L "{"; ws; L "}"]) g
             error "Error Handling" "Empty catch block";
  scriptRule (seqs [L ".catch"; ws; L "("; ws; L "("; ws; L ")"; ws; L "=>";
                    ws; L "{"; ws; L "}"; ws; L ")"]) g
             error "Error Handling" "Empty .catch() handler";
  (* Code Quality *)
  scriptRule (seqs [L "var"; ws1; Plus (Cls CWord)]) g
             warning "Code Quality" "Using var instead of let/const";
  scriptRule (seqs [L "=="; NotAhead (L "=")]) g
             warning "Code Quality" "Using loose equality (==)";
  scriptRule (seqs [L "!="; NotAhead (L "=")]) g
             warning "Code Quality" "Using loose inequality (!=)";
  scriptRule (seqs [L "debugger"; ws; Opt (L ";")]) g
             error "Code Quality" "Debugger statement found";
  (* React *)
  scriptRule (seqs [L "key"; ws; L "="; ws; Opt (L "{"); ws; L "index"; ws;
                    Opt (L "}")]) g
             warning "React" "Using array index as key";
  scriptRule (seqs [L "useEffect"; ws; L "("; ws; L "async"]) g
             error "React" "useEffect callback should not be async";
  (* TypeScript *)
  scriptRule (seqs [L ":"; ws; L "any"; WordBoundary]) g
             warning "TypeScript" "Using any type";
  scriptRule (L "@ts-ignore") g
             warning "TypeScript" "@ts-ignore suppresses type checking";
  scriptRule (seqs [L "as"; ws1; L "any"; WordBoundary]) g
             warning "TypeScript" "Type assertion to any";
  (* Potential Bugs *)
  scriptRule (seqs [L "if"; ws; L "("; Star (Cls (noneOf ")")); L ")"; ws;
                    L ";"]) g
             error "Potential Bug" "Empty if statement";
  scriptRule (seqs [L "for"; ws; L "("; Star (Cls (noneOf ")")); L ")"; ws;
                    L ";"]) g
             error "Potential Bug" "Empty for loop"
].

(** [s.split(sep)] for a separator of one code unit. *)
Fixpoint split (sep : char) (s : jsstring) : list jsstring :=
  match s with
  | [] => [[]]
  | c :: s' =>
      if (c =? sep)%N then [] :: split sep s'
      else match split sep s' with
           | h :: t => (c :: h) :: t
           | [] => [[c]]
           end
  end.

(** [content.substring(0, index).split('\n').length] *)
Definition lineOf (content : jsstring) (index : nat) : nat :=
  length (split LF (substring0 content index)).

Definition analyzeBody (filePath content : jsstring) (pattern : Pattern.t)
    (m : MatchResult) (issues : list ScriptIssue) : list ScriptIssue :=
  let line := lineOf content (index m) in
  issues ++ [MkIssue filePath line (Pattern.type pattern)
                     (Pattern.category pattern) (Pattern.message pattern)].

(** [for (const pattern of patterns) { ... while (exec) body }] *)
Fixpoint scanPatterns (A : Type) (fuel : nat) (input : jsstring)
    (body : Pattern.t -> MatchResult -> A -> A)
    (patterns : list Pattern.t) (acc : A) : option A :=
  match patterns with
  | [] => Some acc
  | pattern :: patterns' =>
      match whileExec fuel (newRegExp pattern) 0 input (body pattern) acc with
      | Some acc' => scanPatterns fuel input body patterns' acc'
      | None => None
      end
  end.

(** The body of [analyzeFile(filePath)] after its first line,
    [content] being what [readFileSync] returned, with a bound on the
    iterations of each loop. *)
Definition analyzeFileFuel (fuel : nat) (filePath content : jsstring)
    : option (list ScriptIssue) :=
  scanPatterns fuel content (analyzeBody filePath content) CODE_PATTERNS [].

Definition analyzeFile (filePath content : jsstring)
    : option (list ScriptIssue) :=
  analyzeFileFuel (S (length content)) filePath content.

(** What [fs.readFileSync(filePath, 'utf-8')] does: it returns the
    content, or it throws an error with a code (ENOENT, EACCES,
    EISDIR, ...). *)
Inductive ReadResult :=
| Content (content : jsstring)
| ReadError (code : jsstring).

Definition contentOf (r : ReadResult) : jsstring :=
  match r with Content content => content | ReadError _ => [] end.

(** How the analysis of files completes: with its issues, or with the
    error thrown by the read of a file. *)
Inductive Scan :=
| Issues (issues : list ScriptIssue)
| ReadThrew (filePath code : jsstring).

Definition ofType (ty : severity) (i : ScriptIssue) : bool :=
  severity_eqb (type i) ty.

(** What the run prints as counts and the code it passes to
    [process.exit]. *)
Record Outcome := MkOutcome {
  filesAnalyzed : nat;
  allIssues : list ScriptIssue;
  errors : list ScriptIssue;
  warnings : list ScriptIssue;
  exitCode : nat
}.

(** How the process ends: by [process.exit] after the results are
    printed, or by the exception of a read, which nothing catches. *)
Inductive Run :=
| Exited (o : Outcome)
| Uncaught (filePath code : jsstring).

(** The status of the process: the argument of [process.exit], and 1
    for an uncaught exception. *)
Definition exitStatus (r : Run) : nat :=
  match r with
  | Exited o => exitCode o
  | Uncaught _ _ => 1
  end.

Section FileSystem.

Variable readFileSync : jsstring -> ReadResult.

(** [analyzeFile(filePath)] from its first line: the read stands
    outside any [try]. *)
Definition analyzeFileAt (filePath : jsstring) : option Scan :=
  match readFileSync filePath with
  | Content content => option_map Issues (analyzeFile filePath content)
  | ReadError code => Some (ReadThrew filePath code)
  end.

(** The main loop: [allIssues = allIssues.concat(analyzeFile(file))]
    over the files found; an exception leaves the loop. *)
Fixpoint analyzeAll (files : list jsstring)
    (allIssues : list ScriptIssue) : option Scan :=
  match files with
  | [] => Some (Issues allIssues)
  | file :: files' =>
      match analyzeFileAt file with
      | Some (Issues issues) => analyzeAll files' (allIssues ++ issues)
      | Some (ReadThrew filePath code) => Some (ReadThrew filePath code)
      | None => None
      end
  end.

(** The main execution on the files that [findFiles] returned. *)
Definition main (files : list jsstring) : option Run :=
  match analyzeAll files [] with
  | Some (Issues allIssues) =>
      let errors := filter (ofType error) allIssues in
      let warnings := filter (ofType warning) allIssues in
      Some (Exited
              (MkOutcome (length files) allIssues errors warnings
                 (if 0 <? length errors then 1
                  else if 0 <? length warnings then 0
                  else 0)))
  | Some (ReadThrew filePath code) => Some (Uncaught filePath code)
  | None => None
  end.

End FileSystem.

(** The severity, category and line of an issue of the script. *)
Definition triple (i : ScriptIssue) : severity * jsstring * nat :=
  (type i, category i, line i).

End Workflow.

(** The severity, category and line of an issue of the page's
    analyzer. *)
Definition issueTriple (i : Issue.t) : severity * jsstring * nat :=
  (Issue.type i, Issue.category i,
   match Issue.line i with Some n => n | None => 0 end).

(** The regular expression, severity and category of a rule. *)
Definition ruleCore (p : Pattern.t) : RegExp.t * severity * jsstring :=
  (newRegExp p, Pattern.type p, Pattern.category p).

(** The rules of the page's code catalog that the script does not
    have, by their messages. *)
Definition pageOnlyMessages : list jsstring :=
  map str ["Async function without try-catch block";
           "TODO comment found - incomplete implementation";
           "FIXME comment found - known issue needs attention";
           "HACK comment found - workaround in place";
           "Consider using useMemo for expensive array initializations";
           "Return statement with line break before object - returns undefined";
           "Invalid operator (three equals with spaces)";
           "Chained .map().filter() - consider using .reduce() for efficiency";
           "Deep clone via JSON - slow and loses functions/dates"]%string.

Definition sharedRule (p : Pattern.t) : bool :=
  negb (existsb (jsstring_eqb (Pattern.message p)) pageOnlyMessages).

Definition sharedFinding (i : Issue.t) : bool :=
  negb (existsb (jsstring_eqb (Issue.message i)) pageOnlyMessages).

(** The issues the script finds in a file, rule by rule and match by
    match. *)
Definition scriptFindings (filePath content : jsstring)
    : list Workflow.ScriptIssue :=
  flat_map (fun p =>
              map (fun m =>
                     Workflow.MkIssue filePath
                       (Workflow.lineOf content (index m))
                       (Pattern.type p) (Pattern.category p)
                       (Pattern.message p))
                  (allMatches p content))
           Workflow.CODE_PATTERNS.

(** Severity, category and line of the matches of a rule, given by its
    regular expression, severity and category. *)
Definition coreTriples (content : jsstring)
    (core : RegExp.t * severity * jsstring)
    : list (severity * jsstring * nat) :=
  map (fun m => (snd (fst core), snd core,
                 findLineNumber content (index m)))
      (matchesFrom (S (length content)) (fst (fst core)) 0 content).

(* ================================================================== *)
(** ** The file search of the workflow script *)

Module Files.

(** What the script sees of the file system: an entry of a directory
    is a file, a directory with its own entries ([readable] false when
    [readdirSync] throws on it), or an entry on which [statSync]
    throws. *)
#[warnings="-register-all"]
Inductive Entry :=
| FileEntry (name : jsstring)
| DirEntry (name : jsstring) (readable : bool) (items : list Entry)
| BrokenEntry (name : jsstring).

(** [path.join(dir, item)] for a directory path that is ['.'] or was
    itself built here, and the name of an entry. *)
Definition join (dir item : jsstring) : jsstring :=
  if jsstring_eqb dir (str ".") then item else dir ++ str "/" ++ item.

(** [s.endsWith(suffix)] *)
Definition endsWith (suffix s : jsstring) : bool :=
  startsWith (rev suffix) (rev s).

(** [list.includes(item)] *)
Definition arrayIncludes (l : list jsstring) (item : jsstring) : bool :=
  existsb (jsstring_eqb item) l.

Section Search.

Variable extensions : list jsstring.
Variable ignore : list jsstring.

(** The [for] loop of [findFiles], inside its [try]: [body] gives what
    one entry adds to the results, or [None] when it throws, which
    leaves the loop with the results found so far. *)
Fixpoint loopEntries (body : Entry -> option (list jsstring))
    (items : list Entry) (results : list jsstring) : list jsstring :=
  match items with
  | [] => results
  | e :: rest_ =>
      match body e with
      | Some found => loopEntries body rest_ (results ++ found)
      | None => results
      end
  end.

(** One iteration on an entry of the directory [dir]: [statSync]
    throws, or a directory that is not ignored adds what the recursive
    call finds, or a file with one of the extensions adds its path. *)
Fixpoint visit (dir : jsstring) (e : Entry) {struct e}
    : option (list jsstring) :=
  match e with
  | BrokenEntry _ => None
  | DirEntry item readable items =>
      if negb (arrayIncludes ignore item) then
        Some (if readable
              then loopEntries (visit (join dir item)) items []
              else [])
      else Some []
  | FileEntry item =>
      if existsb (fun ext => endsWith ext item) extensions
      then Some [join dir item]
      else Some []
  end.

(** [findFiles(dir, extensions, ignore)] on a directory with the given
    entries. *)
Definition findFiles (dir : jsstring) (readable : bool)
    (items : list Entry) : list jsstring :=
  if readable then loopEntries (visit dir) items [] else [].

(** An entry with the contents of the ignored directories removed. *)
Fixpoint pruneEntry (e : Entry) : Entry :=
  match e with
  | DirEntry item readable items =>
      DirEntry item readable
               (if arrayIncludes ignore item then []
                else map pruneEntry items)
  | _ => e
  end.

End Search.

(** The arguments of the script's call. *)
Definition scriptExtensions : list jsstring :=
  map str [".js"; ".jsx"; ".ts"; ".tsx"; ".mjs"; ".cjs"]%string.

Definition defaultIgnore : list jsstring :=
  map str ["node_modules"; ".git"; "dist"; "build"; ".next"]%string.

End Files.

(** The script from its first line: the files found from ['.'] with
    the script's extensions and the default ignore list, then the main
    execution; [readable] and [items] are what [readdirSync('.')]
    gives. *)
Definition analyzeScript (readFileSync : jsstring -> Workflow.ReadResult)
    (readable : bool) (items : list Files.Entry) : option Workflow.Run :=
  Workflow.main readFileSync
    (Files.findFiles Files.scriptExtensions Files.defaultIgnore (str ".")
                     readable items).

(** Patterns without lookahead, word boundary or end anchor: whether
    they match at a place depends only on the code units from that
    place on, and a match is not lost when more text follows. *)
Fixpoint positive (r : rx) : bool :=
  match r with
  | Empty | Chr _ | Cls _ => true
  | Seq r1 r2 | Alt r1 r2 => positive r1 && positive r2
  | Star r1 | Plus r1 | Opt r1 => positive r1
  | NotAhead _ | WordBoundary | EndAnchor => false
  end.

(** [m] keeps matching when text is added after the input: if it
    succeeds with [k], it succeeds on the longer input with any [k']
    that succeeds wherever [k] did. *)
Definition Extends (t : jsstring) (m : matcher) : Prop :=
  forall x k z, m x k = Some z ->
    forall x' k',
      rest x' = rest x ++ t ->
      (forall y y' z', rest y' = rest y ++ t -> k y = Some z' ->
                       k' y' <> None) ->
      m x' k' <> None.

Definition allPositive (ps : list Pattern.t) : bool :=
  forallb (fun p => positive (source (newRegExp p)) &&
                    global (fl (newRegExp p))) ps.

(* ================================================================== *)
(** ** The matcher consumes a prefix of its input *)

Section MatcherFacts.

Lemma orElse_Some a b z :
  orElse a b = Some z -> a = Some z \/ (a = None /\ b = Some z).
Proof. destruct a; simpl; intros H; [left | right]; auto. Qed.

Lemma Consumes_weaken n n' m : n' <= n -> Consumes n m -> Consumes n' m.
Proof.
  intros Hle Hm x k z H. destruct (Hm x k z H) as (y & pre & ? & ? & ?).
  exists y, pre. repeat split; auto. lia.
Qed.

Lemma Consumes_one p : Consumes 1 (one p).
Proof.
  intros x k z. unfold one. destruct (rest x) as [|c s] eqn:E; [discriminate|].
  destruct (p c); [|discriminate]. intros H.
  exists (Pos (Some c) s), [c]. simpl. auto.
Qed.

Lemma Consumes_repeat m fuel : Consumes 0 m -> Consumes 0 (repeatMatcher m fuel).
Proof.
  intros Hm. induction fuel as [|fuel IH]; intros x k z; simpl.
  - intros H. exists x, []. simpl. auto with arith.
  - intros H. apply orElse_Some in H. destruct H as [H | [_ H]].
    + apply Hm in H. destruct H as (y & pre & Hk & Hx & _).
      destruct (length (rest y) <? length (rest x)); [|discriminate].
      apply IH in Hk. destruct Hk as (y' & pre' & Hk & Hy & _).
      exists y', (pre ++ pre'). rewrite <- app_assoc, <- Hy.
      repeat split; auto with arith.
    + exists x, []. simpl. auto with arith.
Qed.

Lemma run_Consumes f r : Consumes (minLen r) (run f r).
Proof.
  induction r; simpl.
  - intros x k z H. exists x, []. simpl. auto.
  - apply Consumes_one.
  - apply Consumes_one.
  - intros x k z H. apply IHr1 in H. destruct H as (y & pre & H & Hx & Hn).
    apply IHr2 in H. destruct H as (y' & pre' & H & Hy & Hn').
    exists y', (pre ++ pre'). rewrite <- app_assoc, <- Hy, length_app.
    repeat split; auto. lia.
  - intros x k z H. apply orElse_Some in H. destruct H as [H | [_ H]].
    + apply IHr1 in H. destruct H as (y & pre & ? & ? & ?).
      exists y, pre. repeat split; auto. lia.
    + apply IHr2 in H. destruct H as (y & pre & ? & ? & ?).
      exists y, pre. repeat split; auto. lia.
  - assert (H0 : Consumes 0 (run f r))
      by (eapply Consumes_weaken; [|exact IHr]; lia).
    intros x k z H.
    exact (@Consumes_repeat (run f r) (length (rest x)) H0 x k z H).
  - assert (H0 : Consumes 0 (run f r))
      by (eapply Consumes_weaken; [|exact IHr]; lia).
    intros x k z H. apply IHr in H. destruct H as (y & pre & H & Hx & Hn).
    apply (@Consumes_repeat (run f r) (length (rest y)) H0) in H.
    destruct H as (y' & pre' & H & Hy & _).
    exists y', (pre ++ pre'). rewrite <- app_assoc, <- Hy, length_app.
    repeat split; auto. lia.
  - intros x k z H. apply orElse_Some in H. destruct H as [H | [_ H]].
    + apply IHr in H. destruct H as (y & pre & H & Hx & _).
      destruct (length (rest y) <? length (rest x)); [|discriminate].
      exists y, pre. repeat split; auto with arith.
    + exists x, []. simpl. auto.
  - intros x k z H. destruct (run f r x Some); [discriminate|].
    exists x, []. simpl. auto.
  - intros x k z H.
    destruct (xorb (isWordAt (before x)) (isWordAt (hd_error (rest x))));
      [|discriminate].
    exists x, []. simpl. auto.
  - intros x k z H. exists x, []. simpl. split; [|auto].
    destruct (rest x); auto.
    destruct (multiline f && isLineTerminator c); [auto|discriminate].
Qed.

Lemma Local_one p : Local (one p).
Proof.
  intros x k1 k2 H. unfold one. destruct x as [b [|c s]]; simpl in *; auto.
  destruct (p c); auto.
Qed.

Lemma Local_repeat m fuel : Local m -> Local (repeatMatcher m fuel).
Proof.
  intros Hm. induction fuel as [|fuel IH]; intros x k1 k2 H; simpl.
  - apply H. lia.
  - rewrite (H x) by lia. f_equal. apply Hm. intros y Hy.
    destruct (length (rest y) <? length (rest x)); [|reflexivity].
    apply IH. intros z Hz. apply H. lia.
Qed.

Lemma run_Local f r : Local (run f r).
Proof.
  induction r; intros x k1 k2 H; simpl.
  - apply H. lia.
  - now apply Local_one.
  - now apply Local_one.
  - apply IHr1. intros y Hy. apply IHr2. intros z Hz. apply H. lia.
  - now rewrite (IHr1 x k1 k2 H), (IHr2 x k1 k2 H).
  - now apply Local_repeat.
  - apply IHr. intros y Hy. apply Local_repeat; auto.
    intros z Hz. apply H. lia.
  - rewrite (H x) by lia. f_equal. apply IHr. intros y Hy.
    destruct (length (rest y) <? length (rest x)); [|reflexivity].
    apply H, Hy.
  - now rewrite (H x) by lia.
  - now rewrite (H x) by lia.
  - now rewrite (H x) by lia.
Qed.

(** The bound of [repeatMatcher] is never reached: any number of
    iterations at least the number of code units left gives the same
    result. *)
Lemma repeatMatcher_fuel m fuel fuel' x k :
  Consumes 0 m -> Local m ->
  length (rest x) <= fuel -> length (rest x) <= fuel' ->
  repeatMatcher m fuel x k = repeatMatcher m fuel' x k.
Proof.
  intros Hc Hl.
  assert (Hstop : forall n y, length (rest y) = 0 ->
            repeatMatcher m n y k = k y).
  { intros [|n] y Hy; simpl; [reflexivity|].
    destruct (m y _) as [z|] eqn:E; [exfalso | reflexivity].
    apply Hc in E. destruct E as (y' & pre & E & _ & _).
    rewrite Hy in E. simpl in E. discriminate. }
  revert fuel' x. induction fuel as [|fuel IH]; intros fuel' x H1 H2.
  - rewrite !Hstop by lia. reflexivity.
  - destruct fuel' as [|fuel'].
    + rewrite !Hstop by lia. reflexivity.
    + simpl. f_equal. apply Hl. intros y Hy.
      destruct (length (rest y) <? length (rest x)) eqn:E; [|reflexivity].
      apply Nat.ltb_lt in E. apply IH; lia.
Qed.

Lemma star_fuel f r fuel x k :
  length (rest x) <= fuel ->
  run f (Star r) x k = repeatMatcher (run f r) fuel x k.
Proof.
  intros H. simpl. apply repeatMatcher_fuel; auto using run_Local.
  eapply Consumes_weaken; [|apply run_Consumes]. lia.
Qed.

(** What [search] and [exec] return describes a match inside the input. *)
Lemma search_eq re b s i :
  search re b s i =
  match run (fl re) (source re) (Pos b s) Some with
  | Some y =>
      let n := length s - length (rest y) in
      Some (Match i (firstn n s) (i + n))
  | None =>
      match s with
      | [] => None
      | c :: s' => search re (Some c) s' (S i)
      end
  end.
Proof. destruct s; reflexivity. Qed.

Lemma run_top f r b s y :
  run f r (Pos b s) Some = Some y ->
  exists pre,
    s = pre ++ rest y /\ minLen r <= length pre /\
    length s - length (rest y) = length pre /\
    firstn (length s - length (rest y)) s = pre.
Proof.
  intros E. apply run_Consumes in E. destruct E as (y' & pre & Hy & Hx & Hn).
  injection Hy as ->. cbn [rest] in Hx. exists pre.
  assert (Hlen : length s - length (rest y) = length pre).
  { rewrite Hx at 1. rewrite length_app. lia. }
  repeat split; auto.
  rewrite Hlen. rewrite Hx at 1.
  rewrite firstn_app, firstn_all, Nat.sub_diag. simpl.
  apply app_nil_r.
Qed.

Lemma search_inside re b s i m :
  search re b s i = Some m ->
  exists pre suf,
    s = pre ++ text m ++ suf /\ index m = i + length pre /\
    endIndex m = index m + length (text m) /\
    minLen (source re) <= length (text m).
Proof.
  revert b i m. induction s as [|c s IH]; intros b i m; rewrite search_eq;
    destruct (run (fl re) (source re) (Pos b _) Some) as [y|] eqn:E;
    try discriminate.
  - apply run_top in E. destruct E as (pre & Hs & Hn & Hl & Hf).
    cbv zeta. rewrite Hf, Hl. intros H; injection H as <-.
    exists [], (rest y). cbn [index text endIndex app length].
    repeat split; auto; lia.
  - apply run_top in E. destruct E as (pre & Hs & Hn & Hl & Hf).
    cbv zeta. rewrite Hf, Hl. intros H; injection H as <-.
    exists [], (rest y). cbn [index text endIndex app length].
    repeat split; auto; lia.
  - intros H. apply IH in H.
    destruct H as (pre & suf & Hs & Hi & He & Hn).
    exists (c :: pre), suf. simpl. rewrite <- Hs.
    repeat split; auto; lia.
Qed.

Lemma exec_inside re li input m li' :
  global (fl re) = true ->
  exec re li input = (Some m, li') ->
  li' = endIndex m /\ li <= index m /\
  endIndex m = index m + length (text m) /\
  endIndex m <= length input /\
  minLen (source re) <= length (text m) /\
  text m = firstn (length (text m)) (skipn (index m) input).
Proof.
  intros Hg. unfold exec. rewrite Hg.
  destruct (length input <? li) eqn:Hlt; [discriminate|].
  apply Nat.ltb_ge in Hlt. simpl.
  destruct (search re _ (skipn li input) li) as [m'|] eqn:E; [|discriminate].
  intros H; injection H as -> <-.
  apply search_inside in E. destruct E as (pre & suf & Hs & Hi & He & Hn).
  assert (Hl : length (skipn li input) = length input - li)
    by apply length_skipn.
  rewrite Hs in Hl. rewrite !length_app in Hl.
  repeat split; auto; try lia.
  assert (Hsk : skipn (index m) input = text m ++ suf).
  { rewrite Hi, Nat.add_comm, <- skipn_skipn, Hs.
    rewrite skipn_app, skipn_all, Nat.sub_diag. reflexivity. }
  rewrite Hsk, firstn_app, firstn_all, Nat.sub_diag. simpl.
  now rewrite app_nil_r.
Qed.

End MatcherFacts.

(* ================================================================== *)
(** ** The [while] loops *)

Section Loops.

Variable re : RegExp.t.
Hypothesis re_progressing : progressing re = true.

Lemma progressing_global : global (fl re) = true.
Proof.
  unfold progressing in re_progressing.
  now apply andb_true_iff in re_progressing.
Qed.

Lemma progressing_minLen : 1 <= minLen (source re).
Proof.
  unfold progressing in re_progressing.
  apply andb_true_iff in re_progressing.
  now apply Nat.leb_le.
Qed.

Lemma exec_progress li input m li' :
  exec re li input = (Some m, li') ->
  li' = endIndex m /\ li <= index m /\ index m < endIndex m /\
  endIndex m <= length input.
Proof.
  intros H. apply exec_inside in H; [|apply progressing_global].
  pose proof progressing_minLen. intuition lia.
Qed.

Lemma whileExec_matches (A : Type) (body : MatchResult -> A -> A)
    fuel li input acc :
  li <= length input -> length input < fuel + li ->
  whileExec fuel re li input body acc =
  Some (fold_left (fun a m => body m a) (matchesFrom fuel re li input) acc).
Proof.
  revert li acc. induction fuel as [|fuel IH]; intros li acc Hli Hf.
  - lia.
  - simpl. destruct (exec re li input) as [[m|] li'] eqn:E; [|reflexivity].
    apply exec_progress in E. destruct E as (-> & ? & ? & ?).
    simpl. apply IH; lia.
Qed.

Lemma matchesFrom_fuel fuel fuel' li input :
  li <= length input -> length input < fuel + li ->
  length input < fuel' + li ->
  matchesFrom fuel re li input = matchesFrom fuel' re li input.
Proof.
  revert fuel' li. induction fuel as [|fuel IH]; intros fuel' li Hli Hf Hf'.
  - lia.
  - destruct fuel' as [|fuel']; [lia|]. simpl.
    destruct (exec re li input) as [[m|] li'] eqn:E; [|reflexivity].
    apply exec_progress in E. destruct E as (-> & ? & ? & ?).
    f_equal. apply IH; lia.
Qed.

Lemma matchesFrom_chained fuel li input :
  chained li (length input) (matchesFrom fuel re li input).
Proof.
  revert li. induction fuel as [|fuel IH]; intros li; simpl; [exact I|].
  destruct (exec re li input) as [[m|] li'] eqn:E; [|exact I].
  apply exec_progress in E. destruct E as (-> & ? & ? & ?).
  simpl. auto.
Qed.

End Loops.

Lemma chained_length from bound ms :
  chained from bound ms -> from + length ms <= Nat.max from bound.
Proof.
  revert from. induction ms as [|m ms IH]; intros from; simpl; [lia|].
  intros (? & ? & ? & H). apply IH in H. lia.
Qed.

(** More fuel never changes the result of a loop that returned. *)
Lemma whileExec_mono (A : Type) (body : MatchResult -> A -> A)
    re fuel fuel' li input acc r :
  whileExec fuel re li input body acc = Some r -> fuel <= fuel' ->
  whileExec fuel' re li input body acc = Some r.
Proof.
  revert fuel' li acc. induction fuel as [|fuel IH]; intros fuel' li acc;
    [discriminate|].
  intros H Hle. destruct fuel' as [|fuel']; [lia|]. simpl in *.
  destruct (exec re li input) as [[m|] li']; auto.
  apply IH; auto. lia.
Qed.

Lemma forPatterns_mono fuel fuel' input body ps acc r :
  forPatterns fuel input body ps acc = Some r -> fuel <= fuel' ->
  forPatterns fuel' input body ps acc = Some r.
Proof.
  revert acc. induction ps as [|p ps IH]; intros acc; simpl; auto.
  destruct (whileExec fuel _ 0 input (body p) acc) as [acc'|] eqn:E;
    [|discriminate].
  intros H Hle. rewrite (whileExec_mono _ _ _ _ _ E Hle). auto.
Qed.

(* ================================================================== *)
(** ** The scans, pattern by pattern *)

Lemma CODE_progressing : allProgressing CODE_PATTERNS = true.
Proof. vm_compute. reflexivity. Qed.

Lemma TERMINAL_progressing : allProgressing TERMINAL_PATTERNS = true.
Proof. vm_compute. reflexivity. Qed.

Lemma catalogs_apart : categoriesApart CODE_PATTERNS TERMINAL_PATTERNS = true.
Proof. vm_compute. reflexivity. Qed.

Lemma forPatterns_spec fuel input body ps acc :
  allProgressing ps = true -> length input < fuel ->
  forPatterns fuel input body ps acc =
  Some (fold_left
          (fun a p => fold_left (fun a' m => body p m a') (allMatches p input) a)
          ps acc).
Proof.
  intros Hps Hf. revert acc.
  induction ps as [|p ps IH]; intros acc; simpl; [reflexivity|].
  simpl in Hps. apply andb_true_iff in Hps. destruct Hps as [Hp Hps].
  rewrite (whileExec_matches _ Hp); [|lia|lia].
  rewrite (matchesFrom_fuel _ Hp fuel (S (length input))); [|lia|lia|lia].
  apply IH, Hps.
Qed.

Lemma fold_left_snoc (A : Type) (ms acc : list A) :
  fold_left (fun a m => a ++ [m]) ms acc = acc ++ ms.
Proof.
  revert acc. induction ms as [|m ms IH]; intros acc; simpl.
  - now rewrite app_nil_r.
  - rewrite IH, <- app_assoc. reflexivity.
Qed.

(** [allMatches] lists what the loop of the analyzer sees: a loop that
    records each match returns it. *)
Lemma allMatches_loop p input :
  progressing (newRegExp p) = true ->
  whileExec (S (length input)) (newRegExp p) 0 input
            (fun m acc => acc ++ [m]) []
  = Some (allMatches p input).
Proof.
  intros Hp. rewrite (whileExec_matches _ Hp); [|lia|lia].
  now rewrite fold_left_snoc.
Qed.

Lemma codeBody_fold c p ms acc :
  fold_left (fun a m => codeBody c p m a) ms acc =
  acc ++ map (codeIssue c p) ms.
Proof.
  revert acc. induction ms as [|m ms IH]; intros acc; simpl.
  - now rewrite app_nil_r.
  - rewrite IH. unfold codeBody. now rewrite <- app_assoc.
Qed.

Lemma codePatterns_fold c ps acc :
  fold_left
    (fun a p => fold_left (fun a' m => codeBody c p m a') (allMatches p c) a)
    ps acc =
  acc ++ flat_map (fun p => map (codeIssue c p) (allMatches p c)) ps.
Proof.
  revert acc. induction ps as [|p ps IH]; intros acc; simpl.
  - now rewrite app_nil_r.
  - rewrite IH, codeBody_fold. now rewrite <- app_assoc.
Qed.

Lemma find_none_existsb (A : Type) (f : A -> bool) l :
  find f l = None <-> existsb f l = false.
Proof.
  induction l as [|a l IH]; simpl; [tauto|].
  destruct (f a); simpl; [split; discriminate | exact IH].
Qed.

Lemma existsb_map_comp (A B : Type) (f : B -> bool) (h : A -> B) l :
  existsb f (map h l) = existsb (fun a => f (h a)) l.
Proof. induction l as [|a l IH]; simpl; [reflexivity | now rewrite IH]. Qed.

Lemma logBody_cases logs p m acc :
  logBody logs p m acc =
  if existsb (fun k => key_eqb k (keyOf (logIssue logs p m))) (map keyOf acc)
  then acc else acc ++ [logIssue logs p m].
Proof.
  unfold logBody. rewrite existsb_map_comp.
  change (existsb _ acc) with (existsb (sameKey p) acc).
  destruct (find (sameKey p) acc) eqn:E.
  - destruct (existsb (sameKey p) acc) eqn:E'; auto.
    apply find_none_existsb in E'. congruence.
  - apply find_none_existsb in E. now rewrite E.
Qed.

Lemma logBody_fold logs p ms acc :
  fold_left (fun a m => logBody logs p m a) ms acc =
  acc ++ firstPerKey (map keyOf acc) (map (logIssue logs p) ms).
Proof.
  revert acc. induction ms as [|m ms IH]; intros acc; simpl.
  - now rewrite app_nil_r.
  - rewrite IH, logBody_cases.
    destruct (existsb _ (map keyOf acc)); [reflexivity|].
    now rewrite map_app, <- app_assoc.
Qed.

Lemma firstPerKey_app seen l1 l2 :
  firstPerKey seen (l1 ++ l2) =
  firstPerKey seen l1 ++
  firstPerKey (seen ++ map keyOf (firstPerKey seen l1)) l2.
Proof.
  revert seen. induction l1 as [|i l1 IH]; intros seen; simpl.
  - now rewrite app_nil_r.
  - destruct (existsb _ seen); [apply IH|].
    simpl. rewrite IH, <- app_assoc. reflexivity.
Qed.

Lemma logPatterns_fold logs ps acc :
  fold_left
    (fun a p => fold_left (fun a' m => logBody logs p m a') (allMatches p logs) a)
    ps acc =
  acc ++ firstPerKey (map keyOf acc)
           (flat_map (fun p => map (logIssue logs p) (allMatches p logs)) ps).
Proof.
  revert acc. induction ps as [|p ps IH]; intros acc; simpl.
  - now rewrite app_nil_r.
  - rewrite IH, logBody_fold, firstPerKey_app, map_app, <- app_assoc.
    reflexivity.
Qed.

Lemma scanCode_spec fuel c acc :
  length c < fuel -> scanCode fuel c acc = Some (acc ++ codeFindings c).
Proof.
  intros Hf. unfold scanCode, codeFindings, nonBlank.
  destruct (truthy (trim c)).
  - rewrite forPatterns_spec; auto using CODE_progressing.
    now rewrite codePatterns_fold.
  - now rewrite app_nil_r.
Qed.

Lemma scanLogs_spec fuel logs acc :
  length logs < fuel ->
  scanLogs fuel logs acc =
  Some (acc ++ firstPerKey (map keyOf acc) (logCandidates logs)).
Proof.
  intros Hf. unfold scanLogs, logCandidates, nonBlank.
  destruct (truthy (trim logs)).
  - rewrite forPatterns_spec; auto using TERMINAL_progressing.
    now rewrite logPatterns_fold.
  - simpl. now rewrite app_nil_r.
Qed.

Lemma firstPerKey_unseen seen0 seen l :
  (forall i, In i l ->
     existsb (fun k => key_eqb k (keyOf i)) seen0 = false) ->
  firstPerKey (seen0 ++ seen) l = firstPerKey seen l.
Proof.
  revert seen. induction l as [|i l IH]; intros seen Hl; simpl; auto.
  rewrite existsb_app, (Hl i (or_introl eq_refl)). simpl.
  destruct (existsb _ seen).
  - apply IH. intros; apply Hl; now right.
  - rewrite <- app_assoc. f_equal. apply IH. intros; apply Hl; now right.
Qed.

Lemma in_codeFindings c i :
  In i (codeFindings c) ->
  exists p m, In p CODE_PATTERNS /\ In m (allMatches p c) /\
              i = codeIssue c p m.
Proof.
  unfold codeFindings. destruct (nonBlank c); [|intros []].
  intros H. apply in_flat_map in H. destruct H as (p & Hp & H).
  apply in_map_iff in H. destruct H as (m & <- & Hm). eauto.
Qed.

Lemma in_logCandidates logs i :
  In i (logCandidates logs) ->
  exists p m, In p TERMINAL_PATTERNS /\ In m (allMatches p logs) /\
              i = logIssue logs p m.
Proof.
  unfold logCandidates. destruct (nonBlank logs); [|intros []].
  intros H. apply in_flat_map in H. destruct H as (p & Hp & H).
  apply in_map_iff in H. destruct H as (m & <- & Hm). eauto.
Qed.

Lemma firstPerKey_incl seen l i : In i (firstPerKey seen l) -> In i l.
Proof.
  revert seen. induction l as [|j l IH]; intros seen; simpl; auto.
  destruct (existsb _ seen); simpl; intros H.
  - right. eapply IH, H.
  - destruct H as [H|H]; [now left | right; eapply IH, H].
Qed.

Lemma in_logFindings logs i :
  In i (logFindings logs) ->
  exists p m, In p TERMINAL_PATTERNS /\ In m (allMatches p logs) /\
              i = logIssue logs p m.
Proof. intros H. apply firstPerKey_incl in H. now apply in_logCandidates. Qed.

Lemma candidates_unseen c logs i :
  In i (logCandidates logs) ->
  existsb (fun k => key_eqb k (keyOf i)) (map keyOf (codeFindings c)) = false.
Proof.
  intros Hi. apply in_logCandidates in Hi.
  destruct Hi as (q & m & Hq & _ & ->).
  destruct (existsb _ _) eqn:E; [exfalso | reflexivity].
  apply existsb_exists in E. destruct E as (k & Hk & E).
  apply in_map_iff in Hk. destruct Hk as (j & <- & Hj).
  apply in_codeFindings in Hj. destruct Hj as (p & m' & Hp & _ & ->).
  unfold key_eqb in E. simpl in E. apply andb_true_iff in E.
  destruct E as [E _].
  pose proof catalogs_apart as Hc. unfold categoriesApart in Hc.
  rewrite forallb_forall in Hc. specialize (Hc p Hp).
  rewrite forallb_forall in Hc. specialize (Hc q Hq).
  rewrite E in Hc. discriminate.
Qed.

(** The issues pushed by the two scans: the code findings, then the
    log findings. *)
Lemma collect_spec fuel c logs :
  Nat.max (length c) (length logs) < fuel ->
  collect fuel c logs = Some (codeFindings c ++ logFindings logs).
Proof.
  intros Hf. unfold collect.
  rewrite scanCode_spec by lia. simpl.
  rewrite scanLogs_spec by lia. unfold logFindings.
  rewrite <- (app_nil_r (map keyOf (codeFindings c))).
  rewrite firstPerKey_unseen; [reflexivity|].
  intros i Hi. apply candidates_unseen with (logs := logs). exact Hi.
Qed.

Lemma analyzeCodeFuel_spec fuel c logs :
  Nat.max (length c) (length logs) < fuel ->
  analyzeCodeFuel fuel c logs =
  Some (report (codeFindings c ++ logFindings logs)).
Proof.
  intros Hf. unfold analyzeCodeFuel. now rewrite collect_spec.
Qed.

Lemma analyzeCode_spec c logs :
  analyzeCode c logs = Some (report (codeFindings c ++ logFindings logs)).
Proof. apply analyzeCodeFuel_spec. lia. Qed.

(* ================================================================== *)
(** ** Sorting by severity *)

Lemma insertSorted_perm (A : Type) (cmp : A -> A -> Z) a l :
  Permutation (insertSorted cmp a l) (a :: l).
Proof.
  induction l as [|b l IH]; simpl; [reflexivity|].
  destruct (cmp a b <=? 0)%Z; [reflexivity|].
  rewrite IH. apply perm_swap.
Qed.

Lemma arraySort_perm (A : Type) (cmp : A -> A -> Z) l :
  Permutation (arraySort cmp l) l.
Proof.
  induction l as [|a l IH]; simpl; [reflexivity|].
  rewrite insertSorted_perm. now constructor.
Qed.

Lemma bySeverity_le a b : (bySeverity a b <=? 0)%Z = true <-> severityLe a b.
Proof. unfold bySeverity, severityLe. rewrite Z.leb_le. lia. Qed.

Lemma insertSorted_sorted a l :
  StronglySorted severityLe l ->
  StronglySorted severityLe (insertSorted bySeverity a l).
Proof.
  induction 1 as [|b l Hl IH Hb]; simpl.
  - repeat constructor.
  - destruct (bySeverity a b <=? 0)%Z eqn:E.
    + apply bySeverity_le in E. constructor; [now constructor|].
      constructor; [exact E|].
      eapply Forall_impl; [|exact Hb].
      unfold severityLe in *. intros; lia.
    + constructor; [exact IH|].
      assert (Hba : severityLe b a).
      { destruct (bySeverity a b <=? 0)%Z eqn:E'; [discriminate|].
        apply Z.leb_gt in E'. unfold bySeverity, severityLe in *. lia. }
      eapply Permutation_Forall.
      * symmetry. apply insertSorted_perm.
      * now constructor.
Qed.

Lemma arraySort_sorted l : StronglySorted severityLe (arraySort bySeverity l).
Proof.
  induction l as [|a l IH]; simpl; [constructor|].
  now apply insertSorted_sorted.
Qed.

Lemma hasType_rank ty a b :
  hasType ty a = true -> hasType ty b = true ->
  severityOrder (Issue.type a) = severityOrder (Issue.type b).
Proof.
  unfold hasType.
  destruct (Issue.type a), (Issue.type b), ty; simpl; congruence.
Qed.

Lemma insertSorted_filter ty a l :
  filter (hasType ty) (insertSorted bySeverity a l) =
  filter (hasType ty) (a :: l).
Proof.
  induction l as [|b l IH]; simpl; [reflexivity|].
  destruct (bySeverity a b <=? 0)%Z eqn:E; [reflexivity|].
  simpl. rewrite IH. simpl.
  destruct (hasType ty a) eqn:Ha, (hasType ty b) eqn:Hb; try reflexivity.
  apply Z.leb_gt in E. unfold bySeverity in E.
  rewrite (hasType_rank _ _ _ Ha Hb) in E. lia.
Qed.

Lemma arraySort_stable ty l :
  filter (hasType ty) (arraySort bySeverity l) = filter (hasType ty) l.
Proof.
  induction l as [|a l IH]; simpl; [reflexivity|].
  rewrite insertSorted_filter. simpl. now rewrite IH.
Qed.

Lemma countType_sum l :
  countType error l + countType warning l + countType info l = length l.
Proof.
  unfold countType. induction l as [|a l IH]; simpl; [reflexivity|].
  destruct (Issue.type a); simpl; lia.
Qed.

Lemma catalog_progressing p :
  In p (CODE_PATTERNS ++ TERMINAL_PATTERNS) -> progressing (newRegExp p) = true.
Proof.
  intros H. apply in_app_or in H. destruct H as [H|H].
  - pose proof CODE_progressing as Hc. unfold allProgressing in Hc.
    rewrite forallb_forall in Hc. auto.
  - pose proof TERMINAL_progressing as Hc. unfold allProgressing in Hc.
    rewrite forallb_forall in Hc. auto.
Qed.

(** The matches of a catalog pattern come in increasing position. *)
Lemma allMatches_chained p input :
  In p (CODE_PATTERNS ++ TERMINAL_PATTERNS) ->
  chained 0 (length input) (allMatches p input).
Proof.
  intros Hp. apply matchesFrom_chained. now apply catalog_progressing.
Qed.

Lemma allMatches_length p input :
  In p (CODE_PATTERNS ++ TERMINAL_PATTERNS) ->
  length (allMatches p input) <= length input.
Proof.
  intros Hp. pose proof (allMatches_chained input Hp) as H.
  apply chained_length in H. lia.
Qed.

Lemma flat_map_length_le (A B : Type) (h : A -> list B) n l :
  (forall a, In a l -> length (h a) <= n) ->
  length (flat_map h l) <= length l * n.
Proof.
  induction l as [|a l IH]; simpl; intros H; [lia|].
  rewrite length_app.
  pose proof (H a (or_introl eq_refl)).
  assert (length (flat_map h l) <= length l * n)
    by (apply IH; intros; apply H; now right).
  lia.
Qed.

Lemma firstPerKey_length seen l : length (firstPerKey seen l) <= length l.
Proof.
  revert seen. induction l as [|i l IH]; intros seen; simpl; [lia|].
  destruct (existsb _ seen); simpl.
  - specialize (IH seen). lia.
  - specialize (IH (seen ++ [keyOf i])). lia.
Qed.

Lemma codeFindings_length c :
  length (codeFindings c) <= length CODE_PATTERNS * length c.
Proof.
  unfold codeFindings. destruct (nonBlank c); [|simpl; lia].
  apply flat_map_length_le. intros p Hp. rewrite length_map.
  apply allMatches_length, in_or_app. now left.
Qed.

Lemma logFindings_length logs :
  length (logFindings logs) <= length TERMINAL_PATTERNS * length logs.
Proof.
  unfold logFindings. etransitivity; [apply firstPerKey_length|].
  unfold logCandidates. destruct (nonBlank logs); [|simpl; lia].
  apply flat_map_length_le. intros p Hp. rewrite length_map.
  apply allMatches_length, in_or_app. now right.
Qed.

(* ================================================================== *)
(** ** Ordering, statistics and summary of the report *)

Lemma severity_eqb_eq a b : severity_eqb a b = true <-> a = b.
Proof. destruct a, b; simpl; split; congruence. Qed.

Lemma filter_none (A : Type) (f : A -> bool) l :
  (forall x, In x l -> f x = false) -> filter f l = [].
Proof.
  induction l as [|a l IH]; simpl; intros H; [reflexivity|].
  rewrite (H a (or_introl eq_refl)). apply IH. intros; apply H; now right.
Qed.

Lemma filter_all (A : Type) (f : A -> bool) l :
  (forall x, In x l -> f x = true) -> filter f l = l.
Proof.
  induction l as [|a l IH]; simpl; intros H; [reflexivity|].
  rewrite (H a (or_introl eq_refl)). f_equal. apply IH.
  intros; apply H; now right.
Qed.

Lemma sorted_no_lower a l ty :
  Forall (severityLe a) l ->
  (severityOrder ty < severityOrder (Issue.type a))%Z ->
  filter (hasType ty) l = [].
Proof.
  intros Hl Hty. apply filter_none. intros b Hb.
  rewrite Forall_forall in Hl. specialize (Hl b Hb).
  unfold severityLe in Hl. unfold hasType.
  destruct (severity_eqb (Issue.type b) ty) eqn:E; [|reflexivity].
  apply severity_eqb_eq in E. subst ty. lia.
Qed.

Lemma filter_cons_type ty a l :
  filter (hasType ty) (a :: l) =
  if severity_eqb (Issue.type a) ty then a :: filter (hasType ty) l
  else filter (hasType ty) l.
Proof. reflexivity. Qed.

(** A list sorted by severity is its errors, then its warnings, then
    its infos. *)
Lemma sorted_by_type l :
  StronglySorted severityLe l ->
  l = filter (hasType error) l ++ filter (hasType warning) l ++
      filter (hasType info) l.
Proof.
  induction 1 as [|a l Hl IH Ha]; [reflexivity|].
  rewrite !filter_cons_type.
  destruct (Issue.type a) eqn:Ea; cbn [severity_eqb].
  - cbn [app]. f_equal. exact IH.
  - assert (He : filter (hasType error) l = [])
      by (apply (sorted_no_lower error Ha); rewrite Ea; simpl; lia).
    rewrite He in *. cbn [app] in *. f_equal. exact IH.
  - assert (He : filter (hasType error) l = [])
      by (apply (sorted_no_lower error Ha); rewrite Ea; simpl; lia).
    assert (Hw : filter (hasType warning) l = [])
      by (apply (sorted_no_lower warning Ha); rewrite Ea; simpl; lia).
    rewrite He, Hw in *. cbn [app] in *. f_equal. exact IH.
Qed.

(** In a list sorted by severity an element is never ranked above one
    that comes after it. *)
Lemma sorted_before (pre : list Issue.t) a mid b post :
  StronglySorted severityLe (pre ++ a :: mid ++ b :: post) ->
  severityLe a b.
Proof.
  induction pre as [|c pre IH]; cbn [app]; intros H;
    apply StronglySorted_inv in H; destruct H as [H Ha].
  - rewrite Forall_forall in Ha. apply Ha, in_or_app. right. now left.
  - now apply IH.
Qed.

(** C2: the returned issues are sorted by severity rank, error before
    warning before info: the list is its errors, followed by its
    warnings, followed by its infos, so that no warning or info precedes
    an error and no info precedes a warning.  The sort is stable: for
    each severity, the issues of that severity come in the order in
    which the two scans pushed them, which is all code findings before
    all log findings, each in rule-list order and, within a rule, in the
    order of the matches, whose positions increase.  A code whose
    findings are detected as warning, info, error is reported as error,
    warning, info. *)
Theorem findings_sorted_stable (codeSnippet terminalLogs : jsstring) :
  exists r,
    analyzeCode codeSnippet terminalLogs = Some r /\
    collect (S (Nat.max (length codeSnippet) (length terminalLogs)))
            codeSnippet terminalLogs
      = Some (codeFindings codeSnippet ++ logFindings terminalLogs) /\
    StronglySorted severityLe (issues r) /\
    Permutation (issues r)
                (codeFindings codeSnippet ++ logFindings terminalLogs) /\
    (forall ty,
       filter (hasType ty) (issues r) =
       filter (hasType ty) (codeFindings codeSnippet) ++
       filter (hasType ty) (logFindings terminalLogs)) /\
    (forall p input,
       In p (CODE_PATTERNS ++ TERMINAL_PATTERNS) ->
       chained 0 (length input) (allMatches p input)) /\
    issues r =
      filter (hasType error) (issues r) ++
      filter (hasType warning) (issues r) ++
      filter (hasType info) (issues r) /\
    (forall pre a mid b post,
       issues r = pre ++ a :: mid ++ b :: post ->
       (Issue.type b = error -> Issue.type a = error) /\
       (Issue.type b = warning -> Issue.type a <> info)) /\
    map Issue.type
        (codeFindings (str "// TODO x" ++ [LF] ++ str "var y = 1;" ++ [LF] ++
                       str "debugger;")) = [warning; info; error] /\
    option_map (fun r' => map Issue.type (issues r'))
               (analyzeCode (str "// TODO x" ++ [LF] ++ str "var y = 1;" ++
                             [LF] ++ str "debugger;") [])
      = Some [error; warning; info].
Proof.
  eexists. split; [apply analyzeCode_spec|].
  split; [apply collect_spec; lia|]. cbn [issues report].
  split; [apply arraySort_sorted|].
  split; [apply arraySort_perm|].
  split; [intros ty; now rewrite arraySort_stable, filter_app|].
  split; [intros p input; apply allMatches_chained|].
  split; [apply sorted_by_type, arraySort_sorted|].
  split; [|split; vm_compute; reflexivity].
  intros pre a mid b post E.
  pose proof (arraySort_sorted
                (codeFindings codeSnippet ++ logFindings terminalLogs)) as Hs.
  rewrite E in Hs. apply sorted_before in Hs. unfold severityLe in Hs.
  split; intros Hb; rewrite Hb in Hs;
    destruct (Issue.type a); simpl in Hs; try lia; congruence.
Qed.

(** C4: each field of the returned stats is the number of returned
    issues of that severity, and the three fields add up to the number
    of returned issues. *)
Theorem stats_consistent (codeSnippet terminalLogs : jsstring) :
  exists r,
    analyzeCode codeSnippet terminalLogs = Some r /\
    Stats.errors (stats r) = length (filter (hasType error) (issues r)) /\
    Stats.warnings (stats r) = length (filter (hasType warning) (issues r)) /\
    Stats.info (stats r) = length (filter (hasType info) (issues r)) /\
    Stats.errors (stats r) + Stats.warnings (stats r) + Stats.info (stats r)
      = length (issues r).
Proof.
  eexists. split; [apply analyzeCode_spec|]. simpl.
  repeat split. apply countType_sum.
Qed.

Lemma makeSummary_table e w i :
  makeSummary (e + w + i) (Stats.Make e w i) = specSummary (e + w + i) e w i.
Proof.
  unfold makeSummary, specSummary, plural, pluralS. simpl.
  destruct (e + w + i =? 0) eqn:E0; [reflexivity|].
  apply Nat.eqb_neq in E0.
  destruct (0 <? e) eqn:Ee.
  - apply Nat.ltb_lt in Ee.
    replace (1 <? e) with (negb (e =? 1)).
    + destruct (e =? 1), (w =? 1), (i =? 1); reflexivity.
    + destruct (e =? 1) eqn:E1; simpl; symmetry.
      * apply Nat.eqb_eq in E1. apply Nat.ltb_ge. lia.
      * apply Nat.eqb_neq in E1. apply Nat.ltb_lt. lia.
  - apply Nat.ltb_ge in Ee. destruct (0 <? w) eqn:Ew.
    + apply Nat.ltb_lt in Ew.
      replace (1 <? w) with (negb (w =? 1)).
      * destruct (w =? 1), (i =? 1); reflexivity.
      * destruct (w =? 1) eqn:E1; simpl; symmetry.
        -- apply Nat.eqb_eq in E1. apply Nat.ltb_ge. lia.
        -- apply Nat.eqb_neq in E1. apply Nat.ltb_lt. lia.
    + apply Nat.ltb_ge in Ew.
      replace (1 <? i) with (negb (i =? 1)).
      * destruct (i =? 1); reflexivity.
      * destruct (i =? 1) eqn:E1; simpl; symmetry.
        -- apply Nat.eqb_eq in E1. apply Nat.ltb_ge. lia.
        -- apply Nat.eqb_neq in E1. apply Nat.ltb_lt. lia.
Qed.

Lemma decimalAcc_digits d acc :
  decimalAcc (digits d) acc = Some (Nat.of_uint_acc d acc).
Proof.
  revert acc.
  induction d as [|d IH|d IH|d IH|d IH|d IH|d IH|d IH|d IH|d IH|d IH];
    intros acc; cbn [digits decimalAcc Nat.of_uint_acc];
    [reflexivity|..];
    match goal with
    | |- context [decimalDigit ?c] =>
        let v := eval vm_compute in (decimalDigit c) in
        change (decimalDigit c) with v
    end;
    cbv iota; rewrite IH, Nat.tail_mul_spec; do 2 f_equal; lia.
Qed.

Lemma nzhead_no_zero d d' : Decimal.nzhead d <> Decimal.D0 d'.
Proof. induction d; simpl; auto; discriminate. Qed.

Lemma to_uint_normal n : Nat.to_uint n = Decimal.unorm (Nat.to_uint n).
Proof.
  rewrite <- (DecimalNat.Unsigned.of_to n) at 1.
  apply DecimalNat.Unsigned.to_of.
Qed.

(** [numToString] writes the canonical decimal numeral of its
    argument. *)
Lemma numToString_decimal n :
  decimalValue (numToString n) = Some n /\
  leadingZero (numToString n) = false.
Proof.
  unfold numToString.
  assert (Hv : decimalAcc (digits (Nat.to_uint n)) 0 = Some n).
  { rewrite decimalAcc_digits. f_equal.
    apply DecimalNat.Unsigned.of_to. }
  rewrite to_uint_normal in *. unfold Decimal.unorm in *.
  pose proof (nzhead_no_zero (Nat.to_uint n)) as Hz.
  destruct (Decimal.nzhead (Nat.to_uint n)) as [|d|d|d|d|d|d|d|d|d|d];
    try (exfalso; eapply Hz; reflexivity);
    split; try exact Hv; cbn [digits leadingZero];
    try reflexivity; destruct (digits d); reflexivity.
Qed.

(** C3: the summary is the sentence of the specification's decision
    table over the final stats, with each count word pluralized exactly
    when its count is not 1.  A count is written as its canonical
    decimal numeral: the digits that denote it, with no leading zero.
    The four rows of the table are reached: no issue; an error, with
    both plural forms; warnings without errors, here with twelve
    infos; an info alone. *)
Theorem summary_decision_table (codeSnippet terminalLogs : jsstring) :
  exists r,
    analyzeCode codeSnippet terminalLogs = Some r /\
    summary r =
    specSummary (length (issues r)) (Stats.errors (stats r))
                (Stats.warnings (stats r)) (Stats.info (stats r)) /\
    (forall n,
       decimalValue (numToString n) = Some n /\
       leadingZero (numToString n) = false) /\
    option_map summary (analyzeCode (str "const x = 1;") []) =
      Some (str "No issues detected. Code looks clean!") /\
    option_map summary
      (analyzeCode (str "try { risky(); } catch (e) {}") []) =
      Some (str "Found 1 error, 0 warnings, and 0 info messages. Address errors first.") /\
    option_map summary
      (analyzeCode (str "debugger; eval(x); var y = 1; // TODO z") []) =
      Some (str "Found 2 errors, 1 warning, and 1 info message. Address errors first.") /\
    option_map summary
      (analyzeCode
         (str "var a; var b; // todo // todo // todo // todo // todo // todo" ++
          str " // todo // todo // todo // todo // todo // todo") []) =
      Some (str "Found 2 warnings and 12 info messages. Consider addressing warnings for better code quality.") /\
    option_map summary (analyzeCode (str "var a; // todo") []) =
      Some (str "Found 1 warning and 1 info message. Consider addressing warnings for better code quality.") /\
    option_map summary (analyzeCode (str "// TODO later") []) =
      Some (str "Found 1 info message. Minor improvements suggested.") /\
    option_map summary (analyzeCode (str "// TODO a // TODO b") []) =
      Some (str "Found 2 info messages. Minor improvements suggested.").
Proof.
  eexists. split; [apply analyzeCode_spec|].
  split.
  { cbn [summary issues stats report Stats.errors Stats.warnings Stats.info].
    rewrite <- countType_sum. apply makeSummary_table. }
  split; [exact numToString_decimal|].
  repeat split; vm_compute; reflexivity.
Qed.

(* ================================================================== *)
(** ** Termination *)

Lemma collect_mono fuel fuel' c logs r :
  collect fuel c logs = Some r -> fuel <= fuel' ->
  collect fuel' c logs = Some r.
Proof.
  unfold collect, scanCode, scanLogs. intros H Hle.
  destruct (truthy (trim c)).
  - destruct (forPatterns fuel c _ _ _) as [cs|] eqn:E; [|discriminate].
    rewrite (forPatterns_mono _ _ _ _ E Hle).
    destruct (truthy (trim logs)); auto.
    eapply forPatterns_mono; eauto.
  - destruct (truthy (trim logs)); auto.
    eapply forPatterns_mono; eauto.
Qed.

(** C9: [analyzeCode] returns a report for every pair of strings, the
    same whatever bound above the input sizes is put on the loops, and
    the same as any run that returns under a smaller bound.  Every
    pattern of the two catalogs is global and consumes at least one
    code unit, so each [exec] in a loop returns a non-empty match
    ending strictly after the previous [lastIndex] and inside the
    input; the successive matches of a pattern are therefore at most as
    many as the code units of the input, a loop over an input of n
    code units ends within n + 1 calls of [exec], and the report holds
    at most one issue per rule and code unit of the rule's input. *)
Theorem analyzeCode_total (codeSnippet terminalLogs : jsstring) :
  (exists r,
     analyzeCode codeSnippet terminalLogs = Some r /\
     (forall fuel,
        Nat.max (length codeSnippet) (length terminalLogs) < fuel ->
        analyzeCodeFuel fuel codeSnippet terminalLogs = Some r) /\
     (forall fuel r',
        analyzeCodeFuel fuel codeSnippet terminalLogs = Some r' -> r' = r) /\
     length (issues r) <=
       length CODE_PATTERNS * length codeSnippet +
       length TERMINAL_PATTERNS * length terminalLogs) /\
  (forall p, In p (CODE_PATTERNS ++ TERMINAL_PATTERNS) ->
     global (fl (newRegExp p)) = true /\
     1 <= minLen (source (newRegExp p)) /\
     (forall input li m li',
        exec (newRegExp p) li input = (Some m, li') ->
        text m <> [] /\ li <= index m /\ index m < endIndex m /\
        li' = endIndex m /\ endIndex m <= length input) /\
     (forall input,
        chained 0 (length input) (allMatches p input) /\
        length (allMatches p input) <= length input) /\
     (forall input (body : MatchResult -> list Issue.t -> list Issue.t) acc,
        exists acc',
          whileExec (S (length input)) (newRegExp p) 0 input body acc
          = Some acc')).
Proof.
  split.
  - eexists. split; [apply analyzeCode_spec|]. split; [|split].
    + intros fuel Hf. now apply analyzeCodeFuel_spec.
    + intros fuel r' H. unfold analyzeCodeFuel in H.
      destruct (collect fuel codeSnippet terminalLogs) as [l|] eqn:E;
        [|discriminate].
      injection H as <-.
      apply collect_mono
        with (fuel' := fuel +
                       S (Nat.max (length codeSnippet) (length terminalLogs)))
        in E; [|lia].
      rewrite collect_spec in E by lia. now injection E as <-.
    + cbn [issues report].
      rewrite (Permutation_length (arraySort_perm bySeverity _)).
      rewrite length_app.
      pose proof (codeFindings_length codeSnippet).
      pose proof (logFindings_length terminalLogs). lia.
  - intros p Hp. pose proof (catalog_progressing Hp) as Hprog.
    split; [now apply progressing_global|].
    split; [now apply progressing_minLen|].
    split; [|split].
    + intros input li m li' E.
      pose proof (exec_inside _ _ _ (progressing_global _ Hprog) E)
        as (_ & _ & _ & _ & Hn & _).
      pose proof (progressing_minLen _ Hprog).
      apply (exec_progress _ Hprog) in E.
      destruct E as (? & ? & ? & ?). repeat split; auto.
      intros Ht. apply length_zero_iff_nil in Ht. lia.
    + intros input.
      pose proof (matchesFrom_chained _ Hprog (S (length input)) 0 input) as Hc.
      split; [exact Hc|]. apply chained_length in Hc.
      unfold allMatches. lia.
    + intros input body acc. eexists.
      apply (whileExec_matches _ Hprog); lia.
Qed.

(* ================================================================== *)
(** ** Blank inputs *)

Lemma trimStart_blank s : forallb isWhiteSpace s = true -> trimStart s = [].
Proof.
  induction s as [|c s IH]; simpl; [reflexivity|].
  intros H. apply andb_true_iff in H. destruct H as [-> H]. auto.
Qed.

Lemma blank_nonBlank s : forallb isWhiteSpace s = true -> nonBlank s = false.
Proof.
  intros H. unfold nonBlank, trim. now rewrite (trimStart_blank _ H).
Qed.

Lemma trimStart_keeps c s :
  In c s -> isWhiteSpace c = false -> In c (trimStart s).
Proof.
  intros Hin Hc. induction s as [|a s IH]; simpl; [contradiction|].
  destruct (isWhiteSpace a) eqn:Ha; [|exact Hin].
  destruct Hin as [->|Hin]; [congruence | auto].
Qed.

Lemma nonBlank_intro c s :
  In c s -> isWhiteSpace c = false -> nonBlank s = true.
Proof.
  intros Hin Hc. unfold nonBlank, trim.
  assert (H : In c (rev (trimStart (rev (trimStart s))))).
  { apply -> in_rev. apply trimStart_keeps; auto.
    apply -> in_rev. apply trimStart_keeps; auto. }
  destruct (rev _); [contradiction | reflexivity].
Qed.

(** C7: [analyzeCode] returns a report for any two strings; an input
    that is empty or made of whitespace only is not scanned at all (its
    scan leaves the issues as they are, whatever the loop bound) and
    the report is the one of the empty input; and for two empty inputs
    the report has no issues, all-zero stats and the clean-code
    summary. *)
Theorem blank_inputs (codeSnippet terminalLogs : jsstring) :
  (exists r, analyzeCode codeSnippet terminalLogs = Some r) /\
  (forallb isWhiteSpace codeSnippet = true ->
     (forall fuel acc, scanCode fuel codeSnippet acc = Some acc) /\
     codeFindings codeSnippet = [] /\
     analyzeCode codeSnippet terminalLogs = analyzeCode [] terminalLogs) /\
  (forallb isWhiteSpace terminalLogs = true ->
     (forall fuel acc, scanLogs fuel terminalLogs acc = Some acc) /\
     logFindings terminalLogs = [] /\
     analyzeCode codeSnippet terminalLogs = analyzeCode codeSnippet []) /\
  analyzeCode [] [] =
    Some (Result [] (str "No issues detected. Code looks clean!")
                 (Stats.Make 0 0 0)).
Proof.
  split; [eexists; apply analyzeCode_spec|].
  split; [|split; [|reflexivity]].
  - intros H. apply blank_nonBlank in H.
    assert (Hc : codeFindings codeSnippet = [])
      by (unfold codeFindings; now rewrite H).
    split; [|split; [exact Hc|]].
    + intros fuel acc. unfold scanCode. unfold nonBlank in H. now rewrite H.
    + rewrite !analyzeCode_spec, Hc. reflexivity.
  - intros H. apply blank_nonBlank in H.
    assert (Hc : logFindings terminalLogs = [])
      by (unfold logFindings, logCandidates; now rewrite H).
    split; [|split; [exact Hc|]].
    + intros fuel acc. unfold scanLogs. unfold nonBlank in H. now rewrite H.
    + rewrite !analyzeCode_spec, Hc. reflexivity.
Qed.

(* ================================================================== *)
(** ** The duplicate check of the log scan *)

Lemma jsstring_eqb_eq a b : jsstring_eqb a b = true <-> a = b.
Proof.
  unfold jsstring_eqb. destruct (list_eq_dec N.eq_dec a b); split;
    congruence.
Qed.

Lemma key_eqb_eq a b : key_eqb a b = true <-> a = b.
Proof.
  destruct a as [c s], b as [c' s']. unfold key_eqb. simpl.
  rewrite andb_true_iff, jsstring_eqb_eq, severity_eqb_eq.
  split; [intros [-> ->]; reflexivity | intros H; now injection H].
Qed.

Lemma seen_iff k seen :
  existsb (fun k' => key_eqb k' k) seen = true <-> In k seen.
Proof.
  rewrite existsb_exists. split.
  - intros (k' & Hin & E). apply key_eqb_eq in E. now subst.
  - intros Hin. exists k. split; [exact Hin | now apply key_eqb_eq].
Qed.

Lemma unseen_iff k seen :
  existsb (fun k' => key_eqb k' k) seen = false <-> ~ In k seen.
Proof.
  rewrite <- seen_iff. destruct (existsb _ seen); intuition congruence.
Qed.

Lemma sameKey_iff p i :
  sameKey p i = true <->
  Issue.category i = Pattern.category p /\ Issue.type i = Pattern.type p.
Proof.
  unfold sameKey. now rewrite andb_true_iff, jsstring_eqb_eq, severity_eqb_eq.
Qed.

Lemma firstPerKey_fresh seen l i :
  In i (firstPerKey seen l) -> ~ In (keyOf i) seen.
Proof.
  revert seen. induction l as [|j l IH]; intros seen; simpl; [tauto|].
  destruct (existsb _ seen) eqn:E; [apply IH|].
  intros [->|H]; [now apply unseen_iff|].
  apply IH in H. intros Hin. apply H, in_or_app. now left.
Qed.

Lemma firstPerKey_NoDup seen l : NoDup (map keyOf (firstPerKey seen l)).
Proof.
  revert seen. induction l as [|j l IH]; intros seen; simpl; [constructor|].
  destruct (existsb _ seen); [apply IH|].
  simpl. constructor; [|apply IH].
  intros Hin. apply in_map_iff in Hin. destruct Hin as (i & Hk & Hi).
  apply firstPerKey_fresh in Hi. apply Hi, in_or_app. right. rewrite Hk.
  now left.
Qed.

Lemma firstPerKey_first seen pre i post :
  (forall j, In j pre -> keyOf j <> keyOf i) -> ~ In (keyOf i) seen ->
  In i (firstPerKey seen (pre ++ i :: post)).
Proof.
  revert seen. induction pre as [|j pre IH]; intros seen Hpre Hs; simpl.
  - apply unseen_iff in Hs. rewrite Hs. now left.
  - assert (Hj : keyOf j <> keyOf i) by (apply Hpre; now left).
    assert (Hpre' : forall j', In j' pre -> keyOf j' <> keyOf i)
      by (intros; apply Hpre; now right).
    destruct (existsb _ seen); [now apply IH|].
    right. apply IH; auto.
    intros Hin. apply in_app_or in Hin. destruct Hin as [Hin|[Hin|[]]]; auto.
Qed.

Lemma firstPerKey_only seen l i :
  In i (firstPerKey seen l) ->
  exists pre post,
    l = pre ++ i :: post /\ forall j, In j pre -> keyOf j <> keyOf i.
Proof.
  revert seen. induction l as [|j l IH]; intros seen; simpl; [tauto|].
  destruct (existsb _ seen) eqn:E.
  - intros H. pose proof (firstPerKey_fresh _ _ _ H) as Hf.
    apply IH in H. destruct H as (pre & post & -> & Hpre).
    exists (j :: pre), post. split; [reflexivity|].
    intros j' [<-|Hj']; [|auto].
    apply seen_iff in E. congruence.
  - intros [->|H].
    + exists [], l. split; [reflexivity | intros j []].
    + pose proof (firstPerKey_fresh _ _ _ H) as Hf.
      apply IH in H. destruct H as (pre & post & -> & Hpre).
      exists (j :: pre), post. split; [reflexivity|].
      intros j' [<-|Hj']; [|auto].
      intros Hk. apply Hf, in_or_app. right. rewrite Hk. now left.
Qed.

(** C1: in the log loop a match pushes nothing when an issue with the
    pattern's (category, severity) pair is already among the issues,
    and pushes its own issue otherwise.  Over a whole call the log
    findings hold each pair at most once, a candidate is emitted exactly
    when no earlier candidate of the log scan (rule-list order, then
    occurrence order) has its pair, so the finding of a pair embeds the
    first matched substring; the code scan pushes one finding per match
    whatever the logs are, and the log scan pushes the same findings
    after the code findings as it does alone.  For the logs made of the
    line [Error: foo] and the line [Error: bar] the one finding embeds
    [Error: foo]; for a line where ETIMEDOUT comes before ECONNREFUSED
    the one Network finding is the one of the earlier rule,
    ECONNREFUSED. *)
Theorem log_dedup (codeSnippet terminalLogs : jsstring) :
  (forall p m acc,
     (exists i, In i acc /\ Issue.category i = Pattern.category p /\
                Issue.type i = Pattern.type p) ->
     logBody terminalLogs p m acc = acc) /\
  (forall p m acc,
     (forall i, In i acc ->
        ~ (Issue.category i = Pattern.category p /\
           Issue.type i = Pattern.type p)) ->
     logBody terminalLogs p m acc = acc ++ [logIssue terminalLogs p m]) /\
  scanCode (S (Nat.max (length codeSnippet) (length terminalLogs)))
           codeSnippet [] = Some (codeFindings codeSnippet) /\
  scanLogs (S (Nat.max (length codeSnippet) (length terminalLogs)))
           terminalLogs (codeFindings codeSnippet)
    = Some (codeFindings codeSnippet ++ logFindings terminalLogs) /\
  scanLogs (S (Nat.max (length codeSnippet) (length terminalLogs)))
           terminalLogs [] = Some (logFindings terminalLogs) /\
  NoDup (map keyOf (logFindings terminalLogs)) /\
  (forall pre i post,
     logCandidates terminalLogs = pre ++ i :: post ->
     (forall j, In j pre -> keyOf j <> keyOf i) ->
     In i (logFindings terminalLogs)) /\
  (forall i, In i (logFindings terminalLogs) ->
     exists pre post,
       logCandidates terminalLogs = pre ++ i :: post /\
       forall j, In j pre -> keyOf j <> keyOf i) /\
  (exists r,
     analyzeCode codeSnippet terminalLogs = Some r /\
     Permutation (issues r)
                 (codeFindings codeSnippet ++ logFindings terminalLogs)) /\
  (exists r,
     analyzeCode [] (str "Error: foo" ++ [LF] ++ str "Error: bar") = Some r /\
     issues r =
       [Issue.Make error (str "Runtime Error")
          (str "Error detected in terminal output: " ++ [DQUOTE] ++
           str "Error: foo" ++ [DQUOTE])
          (Some 1) None None]) /\
  (exists r,
     analyzeCode [] (str "ETIMEDOUT after ECONNREFUSED") = Some r /\
     issues r =
       [Issue.Make error (str "Network")
          (str "Connection refused - service may be down: " ++ [DQUOTE] ++
           str "ECONNREFUSED" ++ [DQUOTE])
          (Some 1) None None]).
Proof.
  split.
  { intros p m acc (i & Hin & Hc & Ht). unfold logBody.
    destruct (find (sameKey p) acc) eqn:E; [reflexivity|].
    exfalso. apply find_none_existsb in E.
    assert (E' : existsb (sameKey p) acc = true).
    { apply existsb_exists. exists i. split; [exact Hin|].
      now apply sameKey_iff. }
    congruence. }
  split.
  { intros p m acc Hacc. unfold logBody.
    destruct (find (sameKey p) acc) as [i|] eqn:E; [|reflexivity].
    exfalso. apply find_some in E. destruct E as [Hin E].
    apply sameKey_iff in E. exact (Hacc i Hin E). }
  split; [rewrite scanCode_spec by lia; reflexivity|].
  split.
  { pose proof (collect_spec codeSnippet terminalLogs
                  (fuel := S (Nat.max (length codeSnippet)
                                      (length terminalLogs)))) as H.
    unfold collect in H. rewrite scanCode_spec in H by lia.
    apply H. lia. }
  split; [rewrite scanLogs_spec by lia; reflexivity|].
  split; [apply firstPerKey_NoDup|].
  split.
  { intros pre i post Hl Hpre. unfold logFindings. rewrite Hl.
    apply firstPerKey_first; auto. }
  split; [intros i Hi; eapply firstPerKey_only; exact Hi|].
  split.
  { eexists. split; [apply analyzeCode_spec|]. apply arraySort_perm. }
  split; eexists; split; vm_compute; reflexivity.
Qed.

(* ================================================================== *)
(** ** Log findings: message and optional fields *)

Lemma matchesFrom_text re fuel li input m :
  global (fl re) = true ->
  In m (matchesFrom fuel re li input) ->
  text m = firstn (endIndex m - index m) (skipn (index m) input) /\
  endIndex m <= length input.
Proof.
  intros Hg. revert li. induction fuel as [|fuel IH]; intros li; simpl;
    [tauto|].
  destruct (exec re li input) as [[m'|] li'] eqn:E; [|intros []].
  intros [->|H]; [|eapply IH, H].
  apply exec_inside in E; auto.
  destruct E as (_ & _ & He & Hl & _ & Ht).
  replace (endIndex m - index m) with (length (text m)) by lia. auto.
Qed.


Lemma TERMINAL_plain :
  forallb (fun p => match Pattern.suggestion p, Pattern.fixCode p with
                    | None, None => true
                    | _, _ => false
                    end) TERMINAL_PATTERNS = true.
Proof. vm_compute. reflexivity. Qed.

Lemma terminal_plain p :
  In p TERMINAL_PATTERNS ->
  Pattern.suggestion p = None /\ Pattern.fixCode p = None.
Proof.
  intros Hp. pose proof TERMINAL_plain as H.
  rewrite forallb_forall in H. specialize (H p Hp).
  destruct (Pattern.suggestion p), (Pattern.fixCode p); try discriminate.
  auto.
Qed.


(** C10: no pattern of the log catalog defines a suggestion or a fix,
    and the log loop never copies a fix, so every log finding of a
    report has neither; an issue of the report that carries one of them
    is a code finding. *)
Theorem log_findings_plain (codeSnippet terminalLogs : jsstring) :
  (forall p, In p TERMINAL_PATTERNS ->
     Pattern.suggestion p = None /\ Pattern.fixCode p = None) /\
  (forall p m, Issue.code (logIssue terminalLogs p m) = None) /\
  (exists r,
     analyzeCode codeSnippet terminalLogs = Some r /\
     (forall i, In i (issues r) <->
                In i (codeFindings codeSnippet) \/
                In i (logFindings terminalLogs)) /\
     (forall i, In i (logFindings terminalLogs) ->
        Issue.suggestion i = None /\ Issue.code i = None) /\
     (forall i, In i (issues r) ->
        Issue.suggestion i <> None \/ Issue.code i <> None ->
        In i (codeFindings codeSnippet))).
Proof.
  assert (Hlog : forall i, In i (logFindings terminalLogs) ->
            Issue.suggestion i = None /\ Issue.code i = None).
  { intros i Hi. apply in_logFindings in Hi.
    destruct Hi as (p & m & Hp & _ & ->). simpl.
    split; [now apply terminal_plain | reflexivity]. }
  assert (Hin : forall i,
            In i (arraySort bySeverity
                    (codeFindings codeSnippet ++ logFindings terminalLogs)) <->
            In i (codeFindings codeSnippet) \/
            In i (logFindings terminalLogs)).
  { intros i. rewrite <- in_app_iff. split; apply Permutation_in.
    - apply arraySort_perm.
    - symmetry. apply arraySort_perm. }
  split; [exact terminal_plain|]. split; [reflexivity|].
  eexists. split; [apply analyzeCode_spec|]. simpl.
  split; [exact Hin|]. split; [exact Hlog|].
  intros i Hi Hcarry. apply Hin in Hi. destruct Hi as [Hi|Hi]; [exact Hi|].
  apply Hlog in Hi. destruct Hi as [Hs Hc]. destruct Hcarry; contradiction.
Qed.

(* ================================================================== *)
(** ** Line numbers *)

Lemma search_newline b t i : search newlineRe b t i = firstLF t i.
Proof.
  revert b i. induction t as [|c t IH]; intros b i; [reflexivity|].
  rewrite search_eq. cbn [fl source newlineRe run one rest g canon ignoreCase].
  cbn [firstLF]. destruct (c =? LF)%N eqn:E.
  - apply N.eqb_eq in E. subst c.
    cbn [rest length]. replace (S (length t) - length t) with 1 by lia.
    reflexivity.
  - apply IH.
Qed.

Lemma countNewlines_cons c t :
  countNewlines (c :: t) =
  (if (c =? LF)%N then 1 else 0) + countNewlines t.
Proof.
  unfold countNewlines. simpl.
  destruct (N.eq_dec c LF) as [->|Hne].
  - now rewrite N.eqb_refl.
  - apply N.eqb_neq in Hne. now rewrite Hne.
Qed.

Lemma firstLF_None t i : firstLF t i = None -> countNewlines t = 0.
Proof.
  revert i. induction t as [|c t IH]; intros i; [reflexivity|].
  rewrite countNewlines_cons. simpl.
  destruct (c =? LF)%N; [discriminate|]. apply IH.
Qed.

Lemma firstLF_Some t i m :
  firstLF t i = Some m ->
  text m = [LF] /\ i < endIndex m /\ endIndex m <= i + length t /\
  countNewlines t = S (countNewlines (skipn (endIndex m - i) t)).
Proof.
  revert i. induction t as [|c t IH]; intros i; [discriminate|].
  rewrite countNewlines_cons. simpl firstLF.
  destruct (c =? LF)%N.
  - intros H; injection H as <-. cbn [text endIndex length].
    replace (i + 1 - i) with 1 by lia. simpl. repeat split; lia.
  - intros H. apply IH in H. destruct H as (Ht & Hi & He & Hc).
    cbn [length]. replace (endIndex m - i) with (S (endIndex m - S i)) by lia.
    simpl. repeat split; auto; lia.
Qed.

Lemma matchLoop_newline fuel li s :
  li <= length s -> length s < fuel + li ->
  length (matchLoop fuel newlineRe li s) = countNewlines (skipn li s).
Proof.
  revert li. induction fuel as [|fuel IH]; intros li Hli Hf; [lia|].
  cbn [matchLoop]. unfold exec.
  cbn [fl newlineRe g global posAt rest before].
  replace (length s <? li) with false by (symmetry; apply Nat.ltb_ge; lia).
  rewrite search_newline.
  destruct (firstLF (skipn li s) li) as [m|] eqn:E.
  - apply firstLF_Some in E. destruct E as (Ht & Hi & He & Hc).
    rewrite length_skipn in He. rewrite Ht. cbn [length].
    rewrite IH by lia. rewrite Hc, skipn_skipn.
    do 2 f_equal. f_equal. lia.
  - apply firstLF_None in E. now rewrite E.
Qed.

Lemma findLineNumber_spec content matchIndex :
  findLineNumber content matchIndex =
  countNewlines (firstn matchIndex content) + 1.
Proof.
  unfold findLineNumber, stringMatch, substring0. f_equal.
  pose proof (@matchLoop_newline
                (S (S (length (firstn matchIndex content)))) 0
                (firstn matchIndex content)) as H.
  rewrite skipn_O in H. rewrite <- H by lia.
  destruct (matchLoop _ newlineRe 0 (firstn matchIndex content)); reflexivity.
Qed.


(* ================================================================== *)
(** ** The rule for var declarations *)

Lemma search_finds re s :
  (forall b, run (fl re) (source re) (Pos b s) Some <> None) ->
  forall pre b i, search re b (pre ++ s) i <> None.
Proof.
  intros Hs pre. induction pre as [|c pre IH]; intros b i; simpl app;
    rewrite search_eq.
  - specialize (Hs b).
    destruct (run (fl re) (source re) (Pos b s) Some); [discriminate|].
    contradiction.
  - destruct (run (fl re) (source re) (Pos b (c :: pre ++ s)) Some);
      [discriminate | apply IH].
Qed.

Lemma var_matches_here b post :
  run (fl (newRegExp varPattern)) (source (newRegExp varPattern))
      (Pos b (str "var x = 1;" ++ post)) Some
  = Some (Pos (Some 120%N) (str " = 1;" ++ post)).
Proof. vm_compute. reflexivity. Qed.

Lemma var_match_exists c :
  contains (str "var x = 1;") c -> allMatches varPattern c <> [].
Proof.
  intros (pre & post & ->). unfold allMatches. cbn [matchesFrom].
  unfold exec. cbn [newRegExp varPattern rule Pattern.regex fl source global g].
  cbn [Nat.ltb Nat.leb posAt skipn before rest].
  assert (Hrun : forall b,
            run (fl (newRegExp varPattern)) (source (newRegExp varPattern))
                (Pos b (str "var x = 1;" ++ post)) Some <> None)
    by (intros b; rewrite var_matches_here; discriminate).
  pose proof (search_finds _ _ Hrun pre None 0) as H.
  cbn [newRegExp varPattern rule Pattern.regex fl source] in H.
  destruct (search _ None (pre ++ str "var x = 1;" ++ post) 0);
    [discriminate | contradiction].
Qed.

Lemma filter_refines (A : Type) (f h : A -> bool) l :
  (forall x, f x = true -> h x = true) ->
  filter f (filter h l) = filter f l.
Proof.
  intros Hfh. induction l as [|a l IH]; simpl; [reflexivity|].
  destruct (h a) eqn:Ha; simpl; rewrite IH; [reflexivity|].
  destruct (f a) eqn:Hf; [|reflexivity].
  apply Hfh in Hf. congruence.
Qed.

Lemma varFinding_warning i : varFinding i = true -> hasType warning i = true.
Proof.
  unfold varFinding, hasType. intros H.
  apply andb_true_iff in H. destruct H as [H _].
  apply andb_true_iff in H. now destruct H.
Qed.

Lemma varFinding_code c p m : varFinding (codeIssue c p m) = varRule p.
Proof. reflexivity. Qed.

Lemma CODE_split :
  CODE_PATTERNS =
  firstn 8 CODE_PATTERNS ++ varPattern :: skipn 9 CODE_PATTERNS.
Proof. reflexivity. Qed.

Lemma other_rules_not_var :
  forallb (fun p => negb (varRule p))
          (firstn 8 CODE_PATTERNS ++ skipn 9 CODE_PATTERNS) = true.
Proof. vm_compute. reflexivity. Qed.

Lemma TERMINAL_not_quality :
  forallb (fun p => negb (jsstring_eqb (Pattern.category p)
                                       (str "Code Quality")))
          TERMINAL_PATTERNS = true.
Proof. vm_compute. reflexivity. Qed.

Lemma filter_var_rules c ps :
  forallb (fun p => negb (varRule p)) ps = true ->
  filter varFinding
    (flat_map (fun p => map (codeIssue c p) (allMatches p c)) ps) = [].
Proof.
  intros H. apply filter_none. intros i Hi.
  apply in_flat_map in Hi. destruct Hi as (p & Hp & Hi).
  apply in_map_iff in Hi. destruct Hi as (m & <- & _).
  rewrite varFinding_code. rewrite forallb_forall in H.
  specialize (H p Hp). now destruct (varRule p).
Qed.

Lemma filter_var_code c :
  nonBlank c = true ->
  filter varFinding (codeFindings c) =
  map (codeIssue c varPattern) (allMatches varPattern c).
Proof.
  intros Hb. unfold codeFindings. rewrite Hb, CODE_split.
  pose proof other_rules_not_var as H. rewrite forallb_app in H.
  apply andb_true_iff in H. destruct H as [H1 H2].
  rewrite flat_map_app, filter_app. cbn [flat_map].
  rewrite filter_app, !filter_var_rules by assumption.
  rewrite app_nil_r. cbn [app]. apply filter_all.
  intros i Hi. apply in_map_iff in Hi. destruct Hi as (m & <- & _).
  reflexivity.
Qed.

Lemma filter_var_logs logs : filter varFinding (logFindings logs) = [].
Proof.
  apply filter_none. intros i Hi. apply in_logFindings in Hi.
  destruct Hi as (p & m & Hp & _ & ->).
  pose proof TERMINAL_not_quality as H. rewrite forallb_forall in H.
  specialize (H p Hp). unfold varFinding.
  cbn [logIssue Issue.category].
  now destruct (jsstring_eqb (Pattern.category p) (str "Code Quality")).
Qed.

Lemma contains_nonBlank c : contains (str "var x = 1;") c -> nonBlank c = true.
Proof.
  intros (pre & post & ->). apply nonBlank_intro with (c := 118%N).
  - apply in_or_app. right. now left.
  - reflexivity.
Qed.

(** C8, as the code has it: for every code string in which
    [var x = 1;] occurs, the findings of category Code Quality and
    severity warning whose message mentions var are the findings of the
    var rule, one per non-overlapping match of that rule in the code, in
    occurrence order; there is at least one, each with the rule's
    message, and exactly one when the code is [var x = 1;] itself. *)
Theorem var_findings (codeSnippet terminalLogs : jsstring) :
  contains (str "var x = 1;") codeSnippet ->
  exists r,
    analyzeCode codeSnippet terminalLogs = Some r /\
    filter varFinding (issues r) =
      map (codeIssue codeSnippet varPattern)
          (allMatches varPattern codeSnippet) /\
    1 <= length (filter varFinding (issues r)) /\
    (forall i, In i (filter varFinding (issues r)) ->
       Issue.category i = str "Code Quality" /\ Issue.type i = warning /\
       Issue.message i = str "Using 'var' instead of 'let' or 'const'") /\
    (codeSnippet = str "var x = 1;" ->
     length (filter varFinding (issues r)) = 1).
Proof.
  intros Hc. eexists. split; [apply analyzeCode_spec|].
  assert (Hf : filter varFinding
                 (issues (report (codeFindings codeSnippet ++
                                  logFindings terminalLogs))) =
               map (codeIssue codeSnippet varPattern)
                   (allMatches varPattern codeSnippet)).
  { simpl. rewrite <- (filter_refines _ (hasType warning)) by
      exact varFinding_warning.
    rewrite arraySort_stable, filter_refines by exact varFinding_warning.
    rewrite filter_app, filter_var_logs, app_nil_r.
    apply filter_var_code, contains_nonBlank, Hc. }
  rewrite Hf. split; [reflexivity|]. split; [|split].
  - rewrite length_map. apply var_match_exists in Hc.
    destruct (allMatches varPattern codeSnippet); [contradiction|simpl; lia].
  - intros i Hi. apply in_map_iff in Hi. destruct Hi as (m & <- & _).
    repeat split.
  - intros ->. vm_compute. reflexivity.
Qed.

(** The theorem at a code with two var declarations and a log line. *)
Lemma var_findings_witness :
  exists r,
    analyzeCode (str "let a; var x = 1; var y = 2;") (str "warning") = Some r /\
    filter varFinding (issues r) =
      map (codeIssue (str "let a; var x = 1; var y = 2;") varPattern)
          (allMatches varPattern (str "let a; var x = 1; var y = 2;")) /\
    1 <= length (filter varFinding (issues r)) /\
    (forall i, In i (filter varFinding (issues r)) ->
       Issue.category i = str "Code Quality" /\ Issue.type i = warning /\
       Issue.message i = str "Using 'var' instead of 'let' or 'const'") /\
    (str "let a; var x = 1; var y = 2;" = str "var x = 1;" ->
     length (filter varFinding (issues r)) = 1).
Proof.
  apply (var_findings (codeSnippet := str "let a; var x = 1; var y = 2;")
                      (str "warning")).
  exists (str "let a; "), (str " var y = 2;"). reflexivity.
Defined.

(** C8 as stated fails: the code [var x = 1; var y = 2;] contains
    [var x = 1;] and yields two findings of category Code Quality and
    severity warning whose message mentions var. *)
Lemma exactly_one_var_finding_refuted :
  contains (str "var x = 1;") (str "var x = 1; var y = 2;") /\
  ~ exactlyOneVarFinding (str "var x = 1; var y = 2;") [].
Proof.
  split.
  - exists [], (str " var y = 2;"). reflexivity.
  - intros (r & Hr & Hlen). vm_compute in Hr. injection Hr as <-.
    vm_compute in Hlen. discriminate.
Qed.

(* ================================================================== *)
(** ** Worked examples *)

(** An empty catch block is an error of category Error Handling. *)
Example empty_catch_block :
  option_map (fun r => (map keyOf (issues r), summary r))
             (analyzeCode (str "try { risky(); } catch (e) {}") [])
  = Some ([(str "Error Handling", error)],
          str "Found 1 error, 0 warnings, and 0 info messages. Address errors first.").
Proof. vm_compute. reflexivity. Qed.

(** The word boundary of the any rule: [anything] is not flagged. *)
Example any_word_boundary :
  option_map messages
    (analyzeCode (str "const a: any = 1; const b: anything = 2;") [])
  = Some [str "Using 'any' type defeats TypeScript's type safety"].
Proof. vm_compute. reflexivity. Qed.

(** The lookahead of the async rule and the multiline end anchor: the
    function of the first line is flagged, the one of the second line,
    whose body opens a try block, is not; the log rules are case
    insensitive, and the second alternative of the not-found rule is
    dropped as a duplicate. *)
Example async_and_logs :
  option_map (fun r => (map (fun i => (keyOf i, Issue.line i)) (issues r),
                        summary r))
    (analyzeCode
       (str "async function f() { await g(); }" ++ [LF] ++
        str "async function h() { try { x } catch (e) { y } }" ++ [LF] ++
        str "// todo later")
       (str "npm WARN Deprecated pkg" ++ [LF] ++ str "GET /x 404 not found"))
  = Some ([((str "Error Handling", warning), Some 1);
           ((str "Deprecation", warning), Some 1);
           ((str "Not Found", warning), Some 2);
           ((str "Code Quality", info), Some 3)],
          str "Found 3 warnings and 1 info message. Consider addressing warnings for better code quality.").
Proof. vm_compute. reflexivity. Qed.

(** Backtracking of the whitespace run before the rest of the line. *)
Example error_with_trailing_space :
  option_map messages (analyzeCode [] (str "error: " ++ [LF]))
  = Some [str "Error detected in terminal output: " ++ [DQUOTE] ++
          str "error: " ++ [DQUOTE]].
Proof. vm_compute. reflexivity. Qed.

Example numToString_examples :
  numToString 0 = str "0" /\ numToString 7 = str "7" /\
  numToString 120 = str "120".
Proof. repeat split. Qed.

(* ================================================================== *)
(** ** Matches are never blank *)

Lemma lower_nonSpace c :
  ((97 <=? c) && (c <=? 122))%N = true -> isWhiteSpace c = false.
Proof.
  intros H. apply andb_true_iff in H. destruct H as [H1 H2].
  apply N.leb_le in H1. apply N.leb_le in H2.
  unfold isWhiteSpace, isLineTerminator.
  repeat match goal with
  | |- context [(c =? ?n)%N] =>
      replace (c =? n)%N with false by (symmetry; apply N.eqb_neq; lia)
  end.
  replace (8192 <=? c)%N with false by (symmetry; apply N.leb_gt; lia).
  reflexivity.
Qed.

Lemma word_nonSpace c : isWordChar c = true -> isWhiteSpace c = false.
Proof.
  unfold isWordChar. rewrite !orb_true_iff, !andb_true_iff.
  rewrite !N.leb_le, N.eqb_eq. intros H.
  unfold isWhiteSpace, isLineTerminator.
  repeat match goal with
  | |- context [(c =? ?n)%N] =>
      replace (c =? n)%N with false by (symmetry; apply N.eqb_neq; lia)
  end.
  replace (8192 <=? c)%N with false by (symmetry; apply N.leb_gt; lia).
  reflexivity.
Qed.

Lemma canon_nonSpace f a c :
  nonSpace (canon f a) = true -> (canon f c =? canon f a)%N = true ->
  nonSpace c = true.
Proof.
  unfold nonSpace. intros Ha E. apply N.eqb_eq in E.
  unfold canon in E at 1. destruct (ignoreCase f) eqn:Hi.
  - destruct ((97 <=? c) && (c <=? 122))%N eqn:Hc.
    + now rewrite (lower_nonSpace _ Hc).
    + now rewrite E.
  - now rewrite E.
Qed.

Lemma ConsumesSolid_one p :
  (forall c, p c = true -> nonSpace c = true) -> ConsumesSolid (one p).
Proof.
  intros Hp x k z. unfold one.
  destruct (rest x) as [|c s] eqn:E; [discriminate|].
  destruct (p c) eqn:Hc; [|discriminate]. intros H.
  exists (Pos (Some c) s), [c]. simpl. rewrite (Hp c Hc). auto.
Qed.

Lemma run_solid f r : solid f r = true -> ConsumesSolid (run f r).
Proof.
  induction r; simpl; try discriminate.
  - intros Hs. apply ConsumesSolid_one. intros a. now apply canon_nonSpace.
  - destruct k; try discriminate. intros _. apply ConsumesSolid_one.
    intros c Hc. unfold nonSpace. simpl in Hc.
    now rewrite (word_nonSpace _ Hc).
  - intros Hs x k z H. apply orb_true_iff in Hs. destruct Hs as [Hs|Hs].
    + apply (IHr1 Hs) in H. destruct H as (y & pre & H & Hx & Hp).
      apply run_Consumes in H. destruct H as (y' & pre' & H & Hy & _).
      exists y', (pre ++ pre'). rewrite <- app_assoc, <- Hy, existsb_app, Hp.
      auto.
    + apply run_Consumes in H. destruct H as (y & pre & H & Hx & _).
      apply (IHr2 Hs) in H. destruct H as (y' & pre' & H & Hy & Hp).
      exists y', (pre ++ pre'). rewrite <- app_assoc, <- Hy, existsb_app, Hp.
      rewrite orb_true_r. auto.
  - intros Hs x k z H. apply andb_true_iff in Hs. destruct Hs as [Hs1 Hs2].
    apply orElse_Some in H. destruct H as [H | [_ H]].
    + now apply (IHr1 Hs1) in H.
    + now apply (IHr2 Hs2) in H.
  - intros Hs x k z H.
    apply (IHr Hs) in H. destruct H as (y & pre & H & Hx & Hp).
    assert (H0 : Consumes 0 (run f r))
      by (eapply Consumes_weaken; [|apply run_Consumes]; lia).
    apply (@Consumes_repeat (run f r) (length (rest y)) H0) in H.
    destruct H as (y' & pre' & H & Hy & _).
    exists y', (pre ++ pre'). rewrite <- app_assoc, <- Hy, existsb_app, Hp.
    auto.
Qed.

Lemma search_solid re b s i m :
  solid (fl re) (source re) = true ->
  search re b s i = Some m -> existsb nonSpace (text m) = true.
Proof.
  intros Hs. revert b i. induction s as [|c s IH]; intros b i;
    rewrite search_eq;
    destruct (run (fl re) (source re) (Pos b _) Some) as [y|] eqn:E;
    try discriminate.
  - apply (run_solid _ _ Hs) in E. destruct E as (y' & pre' & _ & Hx & Hp).
    cbn [rest] in Hx. destruct pre'; discriminate.
  - pose proof (run_top _ _ _ _ E) as (pre & Hs' & _ & _ & Hf).
    apply (run_solid _ _ Hs) in E. destruct E as (y' & pre' & Hy & Hx & Hp).
    injection Hy as ->. cbn [rest] in Hx.
    cbv zeta. rewrite Hf. intros H; injection H as <-. cbn [text].
    rewrite Hs' in Hx. apply app_inv_tail in Hx. now subst.
  - apply IH.
Qed.

Lemma matchesFrom_solid re fuel li input m :
  solid (fl re) (source re) = true ->
  In m (matchesFrom fuel re li input) -> existsb nonSpace (text m) = true.
Proof.
  intros Hs. revert li. induction fuel as [|fuel IH]; intros li; simpl;
    [tauto|].
  destruct (exec re li input) as [[m'|] li'] eqn:E; [|intros []].
  intros [->|H]; [|eapply IH, H].
  unfold exec in E. destruct (length input <? _); [discriminate|].
  destruct (search re _ _ _) as [m'|] eqn:E'; [|discriminate].
  injection E as -> _. eapply search_solid; eauto.
Qed.

Lemma catalog_solid :
  allSolid (CODE_PATTERNS ++ TERMINAL_PATTERNS) = true.
Proof. vm_compute. reflexivity. Qed.

Lemma allMatches_solid p input m :
  In p (CODE_PATTERNS ++ TERMINAL_PATTERNS) ->
  In m (allMatches p input) -> existsb nonSpace (text m) = true.
Proof.
  intros Hp. apply matchesFrom_solid.
  pose proof catalog_solid as H. unfold allSolid in H.
  rewrite forallb_forall in H. now apply H.
Qed.

Lemma existsb_firstn (A : Type) (f : A -> bool) n l :
  existsb f (firstn n l) = true -> existsb f l = true.
Proof.
  intros H. rewrite <- (firstn_skipn n l), existsb_app, H. reflexivity.
Qed.

Lemma existsb_skipn (A : Type) (f : A -> bool) n l :
  existsb f (skipn n l) = true -> existsb f l = true.
Proof.
  intros H. rewrite <- (firstn_skipn n l), existsb_app, H.
  apply orb_true_r.
Qed.

Lemma blank_no_nonSpace s :
  forallb isWhiteSpace s = true -> existsb nonSpace s = false.
Proof.
  induction s as [|c s IH]; simpl; [reflexivity|].
  intros H. apply andb_true_iff in H. destruct H as [Hc H].
  unfold nonSpace at 1. rewrite Hc. simpl. auto.
Qed.

Lemma allMatches_blank p input :
  In p (CODE_PATTERNS ++ TERMINAL_PATTERNS) ->
  forallb isWhiteSpace input = true -> allMatches p input = [].
Proof.
  intros Hp Hb. destruct (allMatches p input) as [|m ms] eqn:E;
    [reflexivity | exfalso].
  assert (Hm : In m (allMatches p input)) by (rewrite E; now left).
  pose proof (allMatches_solid _ _ Hp Hm) as Hs.
  pose proof (catalog_progressing Hp) as Hprog.
  unfold allMatches in Hm.
  eapply matchesFrom_text in Hm; [|exact (progressing_global _ Hprog)].
  destruct Hm as [Ht _]. rewrite Ht in Hs.
  apply existsb_firstn, existsb_skipn in Hs.
  rewrite (blank_no_nonSpace _ Hb) in Hs. discriminate.
Qed.

Lemma forPatterns_blank input body ps acc :
  incl ps (CODE_PATTERNS ++ TERMINAL_PATTERNS) ->
  forallb isWhiteSpace input = true ->
  forPatterns (S (length input)) input body ps acc = Some acc.
Proof.
  intros Hps Hb. rewrite forPatterns_spec; [|
    apply forallb_forall; intros p Hp; apply catalog_progressing, Hps, Hp
    | lia].
  f_equal. revert acc. induction ps as [|p ps IH]; intros acc; simpl;
    [reflexivity|].
  rewrite allMatches_blank; auto; [|apply Hps; now left]. simpl.
  apply IH. intros q Hq. apply Hps. now right.
Qed.

(** X1: every match of a pattern of the two catalogs contains a code
    unit that is not whitespace.  On an input that is empty or made of
    whitespace only no pattern matches, so the loops of the two scans,
    were they run, would push nothing: the trim guards of [analyzeCode]
    never hide a finding. *)
Theorem matches_never_blank (input : jsstring) :
  (forall p m,
     In p (CODE_PATTERNS ++ TERMINAL_PATTERNS) ->
     In m (allMatches p input) ->
     existsb nonSpace (text m) = true) /\
  (forallb isWhiteSpace input = true ->
     (forall p, In p (CODE_PATTERNS ++ TERMINAL_PATTERNS) ->
        allMatches p input = []) /\
     (forall acc,
        forPatterns (S (length input)) input (codeBody input)
                    CODE_PATTERNS acc = Some acc /\
        forPatterns (S (length input)) input (logBody input)
                    TERMINAL_PATTERNS acc = Some acc)).
Proof.
  split.
  - intros p m Hp Hm. eapply allMatches_solid; eauto.
  - intros Hb. split.
    + intros p Hp. now apply allMatches_blank.
    + intros acc. split; apply forPatterns_blank; auto.
      * apply incl_appl, incl_refl.
      * apply incl_appr, incl_refl.
Qed.

(* ================================================================== *)
(** ** Size of the log findings *)

Lemma terminalKeys_length : length terminalKeys = 15.
Proof. vm_compute. reflexivity. Qed.

Lemma logFindings_keys logs :
  incl (map keyOf (logFindings logs)) terminalKeys.
Proof.
  intros k Hk. apply in_map_iff in Hk. destruct Hk as (i & <- & Hi).
  apply in_logFindings in Hi. destruct Hi as (p & m & Hp & _ & ->).
  unfold terminalKeys. apply nodup_In.
  change (keyOf (logIssue logs p m)) with (patternKey p).
  now apply in_map.
Qed.

Lemma logFindings_at_most_15 logs : length (logFindings logs) <= 15.
Proof.
  rewrite <- terminalKeys_length, <- (length_map keyOf).
  apply NoDup_incl_length; [apply firstPerKey_NoDup | apply logFindings_keys].
Qed.

(** X2: the log catalog has 15 distinct (category, severity) pairs, so
    the log scan yields at most 15 findings whatever the size of the
    logs, and a report holds at most one finding per code rule and code
    unit of the code, plus 15. *)
Theorem log_findings_bounded (codeSnippet terminalLogs : jsstring) :
  length terminalKeys = 15 /\
  length (logFindings terminalLogs) <= 15 /\
  exists r,
    analyzeCode codeSnippet terminalLogs = Some r /\
    length (issues r) <= 27 * length codeSnippet + 15.
Proof.
  split; [apply terminalKeys_length|].
  split; [apply logFindings_at_most_15|].
  eexists. split; [apply analyzeCode_spec|].
  cbn [issues report].
  rewrite (Permutation_length (arraySort_perm bySeverity _)), length_app.
  pose proof (codeFindings_length codeSnippet) as Hc.
  change (length CODE_PATTERNS) with 27 in Hc.
  pose proof (logFindings_at_most_15 terminalLogs). lia.
Qed.

(* ================================================================== *)
(** ** Line numbers stay inside the input *)

Lemma countNewlines_app a b :
  countNewlines (a ++ b) = countNewlines a + countNewlines b.
Proof. unfold countNewlines. apply count_occ_app. Qed.

Lemma countNewlines_firstn n s :
  countNewlines (firstn n s) <= countNewlines s.
Proof.
  rewrite <- (firstn_skipn n s) at 2. rewrite countNewlines_app. lia.
Qed.

Lemma countNewlines_firstn_mono i j s :
  i <= j -> countNewlines (firstn i s) <= countNewlines (firstn j s).
Proof.
  intros H. replace i with (Nat.min i j) by lia.
  rewrite <- firstn_firstn. apply countNewlines_firstn.
Qed.

Lemma countNewlines_firstn_S i s :
  countNewlines (firstn (S i) s) =
  countNewlines (firstn i s) +
  match nth_error s i with
  | Some c => if (c =? LF)%N then 1 else 0
  | None => 0
  end.
Proof.
  revert i. induction s as [|c s IH]; intros i.
  - destruct i; reflexivity.
  - destruct i as [|i].
    + simpl firstn. rewrite countNewlines_cons. simpl. unfold countNewlines.
      simpl. lia.
    + change (firstn (S (S i)) (c :: s)) with (c :: firstn (S i) s).
      change (firstn (S i) (c :: s)) with (c :: firstn i s).
      rewrite !countNewlines_cons, IH. simpl nth_error. lia.
Qed.

Lemma findLineNumber_range content i :
  1 <= findLineNumber content i <= lineCount content.
Proof.
  rewrite findLineNumber_spec. unfold lineCount.
  pose proof (countNewlines_firstn i content). lia.
Qed.

(** X3: [findLineNumber] of index 0 is line 1; the line grows with the
    index, by one exactly when the index passes a newline character; it
    never exceeds the number of lines of the text, which it reaches for
    every index from the length of the text on. *)
Theorem findLineNumber_bounds (content : jsstring) :
  findLineNumber content 0 = 1 /\
  (forall i j, i <= j ->
     findLineNumber content i <= findLineNumber content j) /\
  (forall i,
     findLineNumber content (S i) =
     findLineNumber content i +
     match nth_error content i with
     | Some c => if (c =? LF)%N then 1 else 0
     | None => 0
     end) /\
  (forall i, 1 <= findLineNumber content i <= lineCount content) /\
  (forall i, length content <= i ->
     findLineNumber content i = lineCount content).
Proof.
  split; [now rewrite findLineNumber_spec|].
  split.
  { intros i j H. rewrite !findLineNumber_spec.
    pose proof (countNewlines_firstn_mono content H). lia. }
  split.
  { intros i. rewrite !findLineNumber_spec, countNewlines_firstn_S. lia. }
  split; [intros i; apply findLineNumber_range|].
  intros i H. rewrite findLineNumber_spec. unfold lineCount.
  now rewrite firstn_all2.
Qed.

(** X4: every issue of a report has a line, which is at least 1 and at
    most the number of lines of the input it was found in: the code for
    a code finding, the logs for a log finding. *)
Theorem lines_within_input (codeSnippet terminalLogs : jsstring) :
  exists r,
    analyzeCode codeSnippet terminalLogs = Some r /\
    forall i, In i (issues r) ->
      exists n,
        Issue.line i = Some n /\ 1 <= n /\
        (In i (codeFindings codeSnippet) /\ n <= lineCount codeSnippet \/
         In i (logFindings terminalLogs) /\ n <= lineCount terminalLogs).
Proof.
  eexists. split; [apply analyzeCode_spec|].
  intros i Hi. cbn [issues report] in Hi.
  eapply Permutation_in in Hi; [|apply arraySort_perm].
  apply in_app_or in Hi. destruct Hi as [Hi|Hi].
  - pose proof Hi as Hi'. apply in_codeFindings in Hi'.
    destruct Hi' as (p & m & _ & _ & ->).
    exists (findLineNumber codeSnippet (index m)).
    pose proof (findLineNumber_range codeSnippet (index m)) as Hb.
    split; [reflexivity|]. split; [lia|].
    left. split; [exact Hi | lia].
  - pose proof Hi as Hi'. apply in_logFindings in Hi'.
    destruct Hi' as (p & m & _ & _ & ->).
    exists (findLineNumber terminalLogs (index m)).
    pose proof (findLineNumber_range terminalLogs (index m)) as Hb.
    split; [reflexivity|]. split; [lia|].
    right. split; [exact Hi | lia].
Qed.

(* ================================================================== *)
(** ** Fields of the code findings *)

Lemma CODE_suggest :
  forallb (fun p => match Pattern.suggestion p with
                    | Some _ => true
                    | None => false
                    end) CODE_PATTERNS = true.
Proof. vm_compute. reflexivity. Qed.

Lemma CODE_fixes :
  forallb (fun p => match Pattern.fixCode p with
                    | Some _ =>
                        severity_eqb (Pattern.type p) error &&
                        (jsstring_eqb (Pattern.category p)
                                      (str "Error Handling")
                         || jsstring_eqb (Pattern.category p) (str "React"))
                    | None => true
                    end) CODE_PATTERNS = true.
Proof. vm_compute. reflexivity. Qed.

(** X5: a code finding copies the severity, category, message,
    suggestion and fix of its rule unchanged.  Every code rule defines a
    suggestion, so an issue of a report carries a suggestion exactly
    when it is a code finding; and an issue that carries a fix is an
    error of category Error Handling or React. *)
Theorem code_findings_fields (codeSnippet terminalLogs : jsstring) :
  exists r,
    analyzeCode codeSnippet terminalLogs = Some r /\
    (forall i, In i (codeFindings codeSnippet) ->
       exists p,
         In p CODE_PATTERNS /\
         Issue.type i = Pattern.type p /\
         Issue.category i = Pattern.category p /\
         Issue.message i = Pattern.message p /\
         Issue.suggestion i = Pattern.suggestion p /\
         Issue.code i = Pattern.fixCode p) /\
    (forall i, In i (issues r) ->
       (Issue.suggestion i <> None <-> In i (codeFindings codeSnippet))) /\
    (forall i, In i (issues r) -> Issue.code i <> None ->
       Issue.type i = error /\
       (Issue.category i = str "Error Handling" \/
        Issue.category i = str "React")).
Proof.
  eexists. split; [apply analyzeCode_spec|].
  assert (Hcode : forall i, In i (codeFindings codeSnippet) ->
            Issue.suggestion i <> None /\
            (Issue.code i <> None ->
             Issue.type i = error /\
             (Issue.category i = str "Error Handling" \/
              Issue.category i = str "React"))).
  { intros i Hi. apply in_codeFindings in Hi.
    destruct Hi as (p & m & Hp & _ & ->). cbn [codeIssue Issue.suggestion
      Issue.code Issue.type Issue.category]. split.
    - pose proof CODE_suggest as H. rewrite forallb_forall in H.
      specialize (H p Hp). destruct (Pattern.suggestion p); congruence.
    - pose proof CODE_fixes as H. rewrite forallb_forall in H.
      specialize (H p Hp). destruct (Pattern.fixCode p); [|congruence].
      intros _. apply andb_true_iff in H. destruct H as [H1 H2].
      apply severity_eqb_eq in H1. apply orb_true_iff in H2.
      rewrite !jsstring_eqb_eq in H2. auto. }
  assert (Hlog : forall i, In i (logFindings terminalLogs) ->
            Issue.suggestion i = None /\ Issue.code i = None).
  { intros i Hi. apply in_logFindings in Hi.
    destruct Hi as (p & m & Hp & _ & ->). simpl.
    split; [now apply terminal_plain | reflexivity]. }
  assert (Hin : forall i,
            In i (issues (report (codeFindings codeSnippet ++
                                  logFindings terminalLogs))) ->
            In i (codeFindings codeSnippet) \/
            In i (logFindings terminalLogs)).
  { intros i Hi. cbn [issues report] in Hi.
    eapply Permutation_in in Hi; [|apply arraySort_perm].
    now apply in_app_or. }
  split; [|split].
  - intros i Hi. apply in_codeFindings in Hi.
    destruct Hi as (p & m & Hp & _ & ->). exists p. repeat split; auto.
  - intros i Hi. split.
    + intros Hs. destruct (Hin i Hi) as [H|H]; [exact H|].
      apply Hlog in H. destruct H; contradiction.
    + intros H. now apply Hcode.
  - intros i Hi Hc. destruct (Hin i Hi) as [H|H].
    + now apply Hcode.
    + apply Hlog in H. destruct H; contradiction.
Qed.

(* ================================================================== *)
(** ** A report is the merge of the reports of its two inputs *)

Lemma sorted_unique l l' :
  StronglySorted severityLe l -> StronglySorted severityLe l' ->
  (forall ty, filter (hasType ty) l = filter (hasType ty) l') -> l = l'.
Proof.
  intros Hl Hl' H. rewrite (sorted_by_type Hl), (sorted_by_type Hl').
  now rewrite !H.
Qed.

Lemma codeFindings_empty : codeFindings [] = [].
Proof. reflexivity. Qed.

Lemma logFindings_empty : logFindings [] = [].
Proof. reflexivity. Qed.

(** X6: the report of a code and a log input is the merge of the
    report of the code alone and the report of the logs alone: for each
    severity its issues are those of the code report followed by those
    of the log report, it is the stable sort of the two reports put one
    after the other, and each of its stats is the sum of theirs. *)
Theorem analyze_composes (codeSnippet terminalLogs : jsstring) :
  exists r rc rl,
    analyzeCode codeSnippet terminalLogs = Some r /\
    analyzeCode codeSnippet [] = Some rc /\
    analyzeCode [] terminalLogs = Some rl /\
    (forall ty,
       filter (hasType ty) (issues r) =
       filter (hasType ty) (issues rc) ++ filter (hasType ty) (issues rl)) /\
    issues r = arraySort bySeverity (issues rc ++ issues rl) /\
    length (issues r) = length (issues rc) + length (issues rl) /\
    Stats.errors (stats r) = Stats.errors (stats rc) + Stats.errors (stats rl) /\
    Stats.warnings (stats r) =
      Stats.warnings (stats rc) + Stats.warnings (stats rl) /\
    Stats.info (stats r) = Stats.info (stats rc) + Stats.info (stats rl).
Proof.
  do 3 eexists. split; [apply analyzeCode_spec|].
  split; [apply analyzeCode_spec|]. split; [apply analyzeCode_spec|].
  rewrite codeFindings_empty, logFindings_empty, app_nil_r.
  cbn [app issues report stats Stats.errors Stats.warnings Stats.info].
  set (cf := codeFindings codeSnippet). set (lf := logFindings terminalLogs).
  assert (Hty : forall ty,
            filter (hasType ty) (arraySort bySeverity (cf ++ lf)) =
            filter (hasType ty) (arraySort bySeverity cf) ++
            filter (hasType ty) (arraySort bySeverity lf)).
  { intros ty. now rewrite !arraySort_stable, filter_app. }
  split; [exact Hty|].
  split.
  { apply sorted_unique; try apply arraySort_sorted.
    intros ty. now rewrite !arraySort_stable, !filter_app, !arraySort_stable. }
  split.
  { rewrite !(Permutation_length (arraySort_perm bySeverity _)).
    apply length_app. }
  unfold countType. change (fun i => severity_eqb (Issue.type i) ?t)
    with (hasType t).
  repeat split; rewrite Hty; apply length_app.
Qed.

(* ================================================================== *)
(** ** The rule for [Error:] sees every named error *)

Lemma lit_cons a w : w <> [] -> lit (a :: w) = Seq (Chr a) (lit w).
Proof. destruct w; [contradiction | reflexivity]. Qed.

Lemma lit_before f w R b b' s k :
  w <> [] ->
  run f (Seq (lit w) R) (Pos b s) k = run f (Seq (lit w) R) (Pos b' s) k.
Proof.
  destruct w as [|a [|a' w]]; [contradiction | reflexivity | reflexivity].
Qed.

(** A literal with a prefix dropped matches where the whole literal
    did, after the prefix. *)
Lemma lit_drop_prefix f w1 w2 R b b' s k z :
  w2 <> [] ->
  run f (Seq (lit (w1 ++ w2)) R) (Pos b s) k = Some z ->
  run f (Seq (lit w2) R) (Pos b' (skipn (length w1) s)) k = Some z.
Proof.
  intros Hw. revert b s. induction w1 as [|a w1 IH]; intros b s.
  - simpl app. simpl skipn. now rewrite (lit_before f R b b' s k Hw).
  - simpl app. rewrite lit_cons by (destruct w1; [exact Hw | discriminate]).
    change (run f (Seq (Seq (Chr a) (lit (w1 ++ w2))) R) (Pos b s) k)
      with (one (fun c => (canon f c =? canon f a)%N) (Pos b s)
                (fun y => run f (Seq (lit (w1 ++ w2)) R) y k)).
    unfold one. cbn [rest]. destruct s as [|c s]; [discriminate|].
    destruct (canon f c =? canon f a)%N; [|discriminate].
    intros H. apply IH in H. exact H.
Qed.

Lemma search_found re b s i m :
  search re b s i = Some m ->
  exists pre s' b',
    s = pre ++ s' /\ run (fl re) (source re) (Pos b' s') Some <> None.
Proof.
  revert b i. induction s as [|c s IH]; intros b i; rewrite search_eq;
    destruct (run (fl re) (source re) (Pos b _) Some) as [y|] eqn:E;
    try discriminate.
  - intros _. exists [], [], b. rewrite E. split; [reflexivity|discriminate].
  - intros _. exists [], (c :: s), b. rewrite E.
    split; [reflexivity|discriminate].
  - intros H. apply IH in H. destruct H as (pre & s' & b' & -> & H).
    exists (c :: pre), s', b'. auto.
Qed.

Lemma allMatches_nonempty_iff p input :
  global (fl (newRegExp p)) = true ->
  allMatches p input <> [] <->
  search (newRegExp p) None input 0 <> None.
Proof.
  intros Hg. unfold allMatches. cbn [matchesFrom]. unfold exec.
  rewrite Hg. cbn [Nat.ltb Nat.leb posAt skipn before rest].
  destruct (search (newRegExp p) None input 0); split; intros H;
    try discriminate; try contradiction; congruence.
Qed.

(** Where a named-error rule matches, the runtime-error rule matches
    four, nine or six code units later. *)
Lemma named_error_found (name : jsstring) p input :
  source (newRegExp p) = Seq (lit (name ++ str "Error:")) errorTail ->
  fl (newRegExp p) = gi ->
  allMatches p input <> [] -> allMatches runtimeErrorRule input <> [].
Proof.
  intros Hsrc Hfl Hm.
  apply allMatches_nonempty_iff in Hm; [|rewrite Hfl; reflexivity].
  apply allMatches_nonempty_iff; [reflexivity|].
  destruct (search (newRegExp p) None input 0) as [m|] eqn:E;
    [|contradiction].
  apply search_found in E. destruct E as (pre & s' & b' & -> & Hrun).
  rewrite Hsrc, Hfl in Hrun.
  rewrite <- (firstn_skipn (length name) s'), app_assoc.
  apply search_finds. intros b.
  destruct (run gi _ (Pos b' s') Some) as [z|] eqn:Ez; [|contradiction].
  apply (lit_drop_prefix gi name (w2 := str "Error:") errorTail b' b s')
    in Ez; [|discriminate].
  change (fl (newRegExp runtimeErrorRule)) with gi.
  change (source (newRegExp runtimeErrorRule))
    with (Seq (lit (str "Error:")) errorTail).
  rewrite Ez. discriminate.
Qed.

Lemma named_error_rules p :
  In p TERMINAL_PATTERNS -> errorKind (Pattern.category p) = true ->
  exists name,
    source (newRegExp p) = Seq (lit (name ++ str "Error:")) errorTail /\
    fl (newRegExp p) = gi.
Proof.
  intros Hp Hk. unfold TERMINAL_PATTERNS in Hp. simpl In in Hp.
  repeat (destruct Hp as [<-|Hp];
          [first [ discriminate Hk
                 | exists (str "Type"); split; reflexivity
                 | exists (str "Reference"); split; reflexivity
                 | exists (str "Syntax"); split; reflexivity ] |]).
  contradiction.
Qed.

Lemma runtime_error_first logs :
  allMatches runtimeErrorRule logs <> [] -> nonBlank logs = true ->
  exists m j,
    In m (allMatches runtimeErrorRule logs) /\
    j = logIssue logs runtimeErrorRule m /\
    exists rest_, logFindings logs = j :: rest_.
Proof.
  intros Hm Hb. destruct (allMatches runtimeErrorRule logs) as [|m ms] eqn:E;
    [contradiction|].
  exists m, (logIssue logs runtimeErrorRule m).
  split; [now left|]. split; [reflexivity|].
  unfold logFindings, logCandidates. rewrite Hb.
  change TERMINAL_PATTERNS
    with (runtimeErrorRule :: skipn 1 TERMINAL_PATTERNS).
  cbn [flat_map]. rewrite E. cbn [map app firstPerKey existsb].
  eexists. reflexivity.
Qed.

(** X7: a report that holds a finding of category Type Error,
    Reference Error or Syntax Error also holds the finding of category
    Runtime Error, so it counts at least two errors: the rule for
    [Error:] matches inside every match of the three rules for named
    errors.  The logs [TypeError: x is undefined] give both findings. *)
Theorem named_errors_reported_twice (codeSnippet terminalLogs : jsstring) :
  (exists r,
     analyzeCode codeSnippet terminalLogs = Some r /\
     forall i, In i (issues r) -> errorKind (Issue.category i) = true ->
       (exists j, In j (issues r) /\
                  Issue.category j = str "Runtime Error" /\
                  Issue.type j = error) /\
       2 <= Stats.errors (stats r)) /\
  (exists r,
     analyzeCode [] (str "TypeError: x is undefined") = Some r /\
     map keyOf (issues r) =
       [(str "Runtime Error", error); (str "Type Error", error)]).
Proof.
  split.
  - eexists. split; [apply analyzeCode_spec|].
    intros i Hi Hk. cbn [issues report] in Hi.
    assert (Hperm := arraySort_perm bySeverity
                       (codeFindings codeSnippet ++ logFindings terminalLogs)).
    eapply Permutation_in in Hi; [|exact Hperm].
    apply in_app_or in Hi. destruct Hi as [Hi|Hi].
    { exfalso. apply in_codeFindings in Hi.
      destruct Hi as (p & m & Hp & _ & ->). cbn [codeIssue Issue.category] in Hk.
      unfold CODE_PATTERNS in Hp. simpl In in Hp.
      repeat (destruct Hp as [<-|Hp]; [discriminate Hk|]). contradiction. }
    pose proof Hi as Hi'. apply in_logFindings in Hi'.
    destruct Hi' as (p & m & Hp & Hm & ->).
    cbn [logIssue Issue.category] in Hk.
    destruct (named_error_rules Hp Hk) as (name & Hsrc & Hfl).
    assert (Hb : nonBlank terminalLogs = true).
    { unfold logFindings, logCandidates in Hi.
      destruct (nonBlank terminalLogs); [reflexivity | contradiction]. }
    assert (Hne : allMatches p terminalLogs <> [])
      by (intros E; rewrite E in Hm; contradiction).
    apply (named_error_found name _ _ Hsrc Hfl) in Hne.
    destruct (runtime_error_first _ Hne Hb) as (m1 & j & _ & Hj & l & Hl).
    assert (Hjin : In j (logFindings terminalLogs)) by (rewrite Hl; now left).
    split.
    + exists j. split; [|subst j; split; reflexivity].
      cbn [issues report]. eapply Permutation_in; [symmetry; exact Hperm|].
      apply in_or_app. now right.
    + cbn [stats report Stats.errors]. unfold countType.
      change (fun i => severity_eqb (Issue.type i) error) with (hasType error).
      rewrite arraySort_stable, filter_app, length_app.
      assert (Hnd := firstPerKey_NoDup [] (logCandidates terminalLogs)).
      fold (logFindings terminalLogs) in Hnd.
      assert (Hp_err : Pattern.type p = error).
      { clear - Hp Hk. unfold TERMINAL_PATTERNS in Hp. simpl In in Hp.
        repeat (destruct Hp as [<-|Hp];
                [first [discriminate Hk | reflexivity]|]).
        contradiction. }
      assert (Hneq : j <> logIssue terminalLogs p m).
      { subst j. intros E. apply (f_equal Issue.category) in E.
        cbn [logIssue Issue.category] in E. rewrite <- E in Hk.
        discriminate Hk. }
      rewrite Hl in Hi. destruct Hi as [Hi|Hi]; [contradiction|].
      rewrite Hl. rewrite filter_cons_type.
      replace (severity_eqb (Issue.type j) error) with true
        by (subst j; reflexivity).
      assert (Hl' : In (logIssue terminalLogs p m)
                       (filter (hasType error) l)).
      { apply filter_In. split; [exact Hi|]. unfold hasType.
        cbn [logIssue Issue.type]. now rewrite Hp_err. }
      cbn [length].
      destruct (filter (hasType error) l); [contradiction|]. simpl. lia.
  - eexists. split; vm_compute; reflexivity.
Qed.

(* ================================================================== *)
(** ** Grouping the issues by category *)

Lemma jsstring_eqb_refl a : jsstring_eqb a a = true.
Proof. now apply jsstring_eqb_eq. Qed.

Lemma jsstring_eqb_neq a b : jsstring_eqb a b = false <-> a <> b.
Proof.
  rewrite <- jsstring_eqb_eq. destruct (jsstring_eqb a b);
    intuition congruence.
Qed.

Lemma jsstring_eqb_sym a b : jsstring_eqb a b = jsstring_eqb b a.
Proof.
  destruct (jsstring_eqb b a) eqn:E.
  - apply jsstring_eqb_eq in E. subst. apply jsstring_eqb_refl.
  - apply jsstring_eqb_neq in E. apply jsstring_eqb_neq. congruence.
Qed.

Lemma lookupOwn_None k o :
  lookupOwn k o = None <-> existsb (jsstring_eqb k) (map fst o) = false.
Proof.
  induction o as [|[k' v] o IH]; simpl; [tauto|].
  rewrite (jsstring_eqb_sym k k').
  destruct (jsstring_eqb k' k); simpl; [split; discriminate | exact IH].
Qed.

Lemma keys_setOwn k v o : map fst (setOwn k v o) = map fst o.
Proof.
  induction o as [|[k' v'] o IH]; simpl; [reflexivity|].
  destruct (jsstring_eqb k' k); simpl; [reflexivity | now rewrite IH].
Qed.

Lemma lookupOwn_setOwn k v o c :
  lookupOwn c (setOwn k v o) =
  match lookupOwn c o with
  | Some g => Some (if jsstring_eqb k c then v else g)
  | None => None
  end.
Proof.
  induction o as [|[k' v'] o IH]; simpl; [reflexivity|].
  destruct (jsstring_eqb k' k) eqn:Ek; simpl.
  - apply jsstring_eqb_eq in Ek. subst k'.
    destruct (jsstring_eqb k c); [reflexivity|].
    destruct (lookupOwn c o); reflexivity.
  - destruct (jsstring_eqb k' c) eqn:Ec; [|exact IH].
    apply jsstring_eqb_eq in Ec. subst k'.
    rewrite jsstring_eqb_sym, Ek. reflexivity.
Qed.

Lemma lookupOwn_app k v o c :
  lookupOwn c (o ++ [(k, v)]) =
  match lookupOwn c o with
  | Some g => Some g
  | None => if jsstring_eqb k c then Some v else None
  end.
Proof.
  induction o as [|[k' v'] o IH]; simpl; [reflexivity|].
  destruct (jsstring_eqb k' c); [reflexivity | exact IH].
Qed.

Lemma filter_inCategory_cons c i l :
  filter (inCategory c) (i :: l) =
  if jsstring_eqb (Issue.category i) c then i :: filter (inCategory c) l
  else filter (inCategory c) l.
Proof. reflexivity. Qed.

(** The reducer, from any accumulator: it throws only on an inherited
    name; otherwise the names are those of the accumulator followed by
    the new categories in order of first occurrence, and each name
    holds what it held followed by the issues of that category. *)
Lemma reduceGroups_spec l :
  forall acc,
    (forall i, In i l -> inherited (Issue.category i) = false) ->
    exists o,
      reduceGroups l acc = Some o /\
      map fst o = map fst acc ++
                  firstSeen (map fst acc) (map Issue.category l) /\
      forall c,
        lookupOwn c o =
        match lookupOwn c acc with
        | Some g => Some (g ++ filter (inCategory c) l)
        | None => match filter (inCategory c) l with
                  | [] => None
                  | g => Some g
                  end
        end.
Proof.
  induction l as [|i l IH]; intros acc Hl.
  - exists acc. split; [reflexivity|]. split; [now rewrite app_nil_r|].
    intros c. simpl. destruct (lookupOwn c acc); [now rewrite app_nil_r|].
    reflexivity.
  - assert (Hi : inherited (Issue.category i) = false)
      by (apply Hl; now left).
    assert (Hl' : forall j, In j l -> inherited (Issue.category j) = false)
      by (intros; apply Hl; now right).
    cbn [reduceGroups]. unfold groupStep. cbv zeta.
    destruct (lookupOwn (Issue.category i) acc) as [arr|] eqn:E.
    + destruct (IH (setOwn (Issue.category i) (arr ++ [i]) acc) Hl')
        as (o & Ho & Hk & Hv).
      exists o. split; [exact Ho|]. rewrite keys_setOwn in Hk. split.
      * rewrite Hk. cbn [map firstSeen].
        assert (Hs : existsb (jsstring_eqb (Issue.category i)) (map fst acc)
                     = true).
        { destruct (existsb _ _) eqn:Ex; [reflexivity|].
          apply lookupOwn_None in Ex. congruence. }
        now rewrite Hs.
      * intros c. rewrite Hv, lookupOwn_setOwn, filter_inCategory_cons.
        destruct (lookupOwn c acc) as [g|] eqn:Ec.
        -- destruct (jsstring_eqb (Issue.category i) c) eqn:Eic.
           ++ apply jsstring_eqb_eq in Eic. subst c.
              assert (g = arr) by congruence. subst g.
              now rewrite <- app_assoc.
           ++ reflexivity.
        -- destruct (jsstring_eqb (Issue.category i) c) eqn:Eic;
             [|reflexivity].
           apply jsstring_eqb_eq in Eic. subst c. congruence.
    + rewrite Hi.
      destruct (IH (acc ++ [(Issue.category i, [i])]) Hl')
        as (o & Ho & Hk & Hv).
      exists o. split; [exact Ho|]. rewrite map_app in Hk. split.
      * rewrite Hk. cbn [map firstSeen fst].
        apply lookupOwn_None in E. rewrite E.
        now rewrite <- app_assoc.
      * intros c. rewrite Hv, lookupOwn_app, filter_inCategory_cons.
        destruct (lookupOwn c acc) as [g|] eqn:Ec.
        -- destruct (jsstring_eqb (Issue.category i) c) eqn:Eic;
             [|reflexivity].
           apply jsstring_eqb_eq in Eic. subst c. congruence.
        -- destruct (jsstring_eqb (Issue.category i) c); [reflexivity|].
           reflexivity.
Qed.

(** The reducer throws as soon as a category is an inherited name. *)
Lemma reduceGroups_throws l :
  forall acc,
    (forall k, In k (map fst acc) -> inherited k = false) ->
    (exists i, In i l /\ inherited (Issue.category i) = true) ->
    reduceGroups l acc = None.
Proof.
  induction l as [|i l IH]; intros acc Hacc (j & Hj & Hinh);
    [contradiction|].
  cbn [reduceGroups]. unfold groupStep. cbv zeta.
  destruct (inherited (Issue.category i)) eqn:Hi.
  - destruct (lookupOwn (Issue.category i) acc) eqn:E; [|reflexivity].
    exfalso.
    assert (Hin : In (Issue.category i) (map fst acc)).
    { destruct (existsb (jsstring_eqb (Issue.category i)) (map fst acc))
        eqn:Ex.
      - apply existsb_exists in Ex. destruct Ex as (k & Hk & Ek).
        apply jsstring_eqb_eq in Ek. now subst.
      - apply lookupOwn_None in Ex. congruence. }
    apply Hacc in Hin. congruence.
  - destruct Hj as [->|Hj]; [congruence|].
    destruct (lookupOwn (Issue.category i) acc) eqn:E.
    + apply IH; [|eauto]. now rewrite keys_setOwn.
    + apply IH; [|eauto]. intros k Hk. rewrite map_app in Hk.
      apply in_app_or in Hk. destruct Hk as [Hk|[<-|[]]]; auto.
Qed.

Lemma seen_name c seen :
  existsb (jsstring_eqb c) seen = true <-> In c seen.
Proof.
  rewrite existsb_exists. split.
  - intros (k & Hk & E). apply jsstring_eqb_eq in E. now subst.
  - intros H. exists c. split; [exact H | apply jsstring_eqb_refl].
Qed.

Lemma firstSeen_fresh seen l c :
  In c (firstSeen seen l) -> ~ In c seen /\ In c l.
Proof.
  revert seen. induction l as [|a l IH]; intros seen; simpl; [tauto|].
  destruct (existsb (jsstring_eqb a) seen) eqn:E.
  - intros H. apply IH in H. tauto.
  - intros [->|H].
    + split; [|now left]. intros Hin. apply seen_name in Hin. congruence.
    + apply IH in H. destruct H as [Hs Hl]. split; [|now right].
      intros Hin. apply Hs, in_or_app. now left.
Qed.

Lemma firstSeen_NoDup seen l : NoDup (firstSeen seen l).
Proof.
  revert seen. induction l as [|a l IH]; intros seen; simpl; [constructor|].
  destruct (existsb (jsstring_eqb a) seen); [apply IH|].
  constructor; [|apply IH].
  intros H. apply firstSeen_fresh in H. destruct H as [H _].
  apply H, in_or_app. right. now left.
Qed.

Lemma firstSeen_complete seen l c :
  In c l -> ~ In c seen -> In c (firstSeen seen l).
Proof.
  revert seen. induction l as [|a l IH]; intros seen; simpl; [tauto|].
  intros Hin Hs. destruct (existsb (jsstring_eqb a) seen) eqn:E.
  - apply seen_name in E. destruct Hin as [->|Hin]; [contradiction|].
    now apply IH.
  - destruct (list_eq_dec N.eq_dec a c) as [->|Hne]; [now left|].
    right. destruct Hin as [->|Hin]; [contradiction|].
    apply IH; auto. intros H. apply in_app_or in H.
    destruct H as [H|[H|[]]]; auto.
Qed.

Lemma filter_split_perm (A : Type) (f : A -> bool) l :
  Permutation (filter f l ++ filter (fun x => negb (f x)) l) l.
Proof.
  induction l as [|a l IH]; simpl; [reflexivity|].
  destruct (f a); simpl.
  - now constructor.
  - rewrite <- Permutation_middle. now constructor.
Qed.

Lemma flat_map_ext_in (A B : Type) (f h : A -> list B) l :
  (forall a, In a l -> f a = h a) -> flat_map f l = flat_map h l.
Proof.
  induction l as [|a l IH]; simpl; intros H; [reflexivity|].
  rewrite (H a (or_introl eq_refl)), IH; auto.
Qed.

(** The groups of distinct categories that cover a list partition it. *)
Lemma group_partition ks l :
  NoDup ks -> (forall i, In i l -> In (Issue.category i) ks) ->
  Permutation (flat_map (fun c => filter (inCategory c) l) ks) l.
Proof.
  intros Hnd. revert l. induction Hnd as [|c ks Hc Hnd IH]; intros l Hl.
  - destruct l as [|i l]; [reflexivity|]. destruct (Hl i (or_introl eq_refl)).
  - cbn [flat_map].
    set (l' := filter (fun i => negb (inCategory c i)) l).
    assert (Hks : flat_map (fun c' => filter (inCategory c') l) ks =
                  flat_map (fun c' => filter (inCategory c') l') ks).
    { apply flat_map_ext_in. intros c' Hc'. unfold l'. symmetry.
      apply filter_refines. intros i Hi. unfold inCategory in *.
      apply jsstring_eqb_eq in Hi.
      destruct (jsstring_eqb (Issue.category i) c) eqn:E; [|reflexivity].
      apply jsstring_eqb_eq in E. congruence. }
    rewrite Hks. rewrite IH.
    + apply filter_split_perm.
    + intros i Hi. unfold l' in Hi. apply filter_In in Hi.
      destruct Hi as [Hi Hn]. destruct (Hl i Hi) as [E|H]; [|exact H].
      unfold inCategory in Hn. rewrite <- E, jsstring_eqb_refl in Hn.
      discriminate.
Qed.

Lemma objectKeys_plain (o : JSObject) :
  (forall k, In k (map fst o) -> isIndex k = false) ->
  objectKeys o = map fst o.
Proof.
  intros H. unfold objectKeys.
  rewrite (filter_none isIndex (map fst o)) by exact H.
  rewrite filter_all; [reflexivity|].
  intros k Hk. now rewrite (H k Hk).
Qed.

(** What the component shows for a report whose categories are neither
    inherited names nor array indices: one section per category, in
    order of first occurrence, holding the issues of the category. *)
Lemma renderResult_plain (r : TraditionalAnalysisResult) :
  (forall i, In i (issues r) -> plainName (Issue.category i) = true) ->
  renderResult r =
  Some (MkView (bannerOf (stats r)) (summary r) (stats r)
          (match firstSeen [] (map Issue.category (issues r)) with
           | [] => AllClear
           | ks =>
               Sections
                 (map (fun c =>
                         Section_ c
                           (countLabel
                              (length (filter (inCategory c) (issues r))))
                           (filter (inCategory c) (issues r))) ks)
           end)).
Proof.
  intros Hp. unfold renderResult.
  destruct (@reduceGroups_spec (issues r) []) as (o & Ho & Hk & Hv).
  { intros i Hi. apply Hp in Hi. unfold plainName in Hi.
    apply andb_true_iff in Hi. destruct Hi as [Hi _].
    now destruct (inherited (Issue.category i)). }
  rewrite Ho. cbn [map app] in Hk.
  assert (Hkeys : objectKeys o = firstSeen [] (map Issue.category (issues r))).
  { rewrite objectKeys_plain; [exact Hk|]. intros k Hin. rewrite Hk in Hin.
    apply firstSeen_fresh in Hin. destruct Hin as [_ Hin].
    apply in_map_iff in Hin. destruct Hin as (i & <- & Hi).
    apply Hp in Hi. unfold plainName in Hi.
    apply andb_true_iff in Hi. destruct Hi as [_ Hi].
    now destruct (isIndex (Issue.category i)). }
  rewrite Hkeys.
  assert (Hsec : forall c,
            sectionOf o c =
            Section_ c (countLabel (length (filter (inCategory c) (issues r))))
                     (filter (inCategory c) (issues r))).
  { intros c. unfold sectionOf. rewrite Hv. cbn [lookupOwn].
    destruct (filter (inCategory c) (issues r)); reflexivity. }
  do 2 f_equal.
  destruct (firstSeen [] (map Issue.category (issues r))) as [|k ks];
    [reflexivity|].
  cbn [length Nat.ltb Nat.leb]. f_equal. apply map_ext. exact Hsec.
Qed.

Lemma catalog_plain :
  forallb (fun p => plainName (Pattern.category p))
          (CODE_PATTERNS ++ TERMINAL_PATTERNS) = true.
Proof. vm_compute. reflexivity. Qed.

Lemma report_categories_plain c logs i :
  In i (issues (report (codeFindings c ++ logFindings logs))) ->
  plainName (Issue.category i) = true.
Proof.
  intros Hi. cbn [issues report] in Hi.
  eapply Permutation_in in Hi; [|apply arraySort_perm].
  pose proof catalog_plain as H. rewrite forallb_forall in H.
  apply in_app_or in Hi. destruct Hi as [Hi|Hi].
  - apply in_codeFindings in Hi. destruct Hi as (p & m & Hp & _ & ->).
    apply H, in_or_app. now left.
  - apply in_logFindings in Hi. destruct Hi as (p & m & Hp & _ & ->).
    apply H, in_or_app. now right.
Qed.

Lemma sectionsOf_match (F : jsstring -> CategorySection) ks :
  sectionsOf (match ks with
              | [] => AllClear
              | j :: l => Sections (map F (j :: l))
              end) = map F ks.
Proof. destruct ks; reflexivity. Qed.

(** X8: rendering the report of [analyzeCode] never throws.  It shows
    the summary and the stats unchanged and one section per category
    that occurs among the issues, in the order in which the categories
    first occur; a section holds the issues of its category in the order
    of the report, it is never empty, its label counts them, and the
    sections together hold each issue of the report once. *)
Theorem render_sections (codeSnippet terminalLogs : jsstring) :
  exists r v,
    analyzeCode codeSnippet terminalLogs = Some r /\
    renderResult r = Some v /\
    viewSummary v = summary r /\ viewStats v = stats r /\
    map sectionCategory (sectionsOf (viewBody v)) =
      firstSeen [] (map Issue.category (issues r)) /\
    NoDup (map sectionCategory (sectionsOf (viewBody v))) /\
    (forall s, In s (sectionsOf (viewBody v)) ->
       sectionIssues s =
         filter (inCategory (sectionCategory s)) (issues r) /\
       sectionIssues s <> [] /\
       sectionLabel s = countLabel (length (sectionIssues s))) /\
    Permutation (flat_map sectionIssues (sectionsOf (viewBody v)))
                (issues r).
Proof.
  pose (r := report (codeFindings codeSnippet ++ logFindings terminalLogs)).
  assert (Hp : forall i, In i (issues r) ->
                 plainName (Issue.category i) = true)
    by (intros i Hi; eapply report_categories_plain; exact Hi).
  exists r. eexists. split; [apply analyzeCode_spec|].
  split; [exact (renderResult_plain r Hp)|].
  cbn [viewSummary viewStats viewBody].
  split; [reflexivity|]. split; [reflexivity|].
  set (ks := firstSeen [] (map Issue.category (issues r))).
  assert (Hks : forall c, In c ks -> In c (map Issue.category (issues r)))
    by (intros c Hc; now apply firstSeen_fresh in Hc).
  rewrite !sectionsOf_match.
  split; [rewrite map_map; cbn [sectionCategory]; apply map_id|].
  split; [rewrite map_map; cbn [sectionCategory]; rewrite map_id;
          apply firstSeen_NoDup|].
  split.
  - intros s Hs. apply in_map_iff in Hs. destruct Hs as (c & <- & Hc).
    cbn [sectionIssues sectionCategory sectionLabel].
    split; [reflexivity|]. split; [|reflexivity].
    apply Hks in Hc. apply in_map_iff in Hc. destruct Hc as (i & <- & Hi).
    intros E.
    assert (Hin : In i (filter (inCategory (Issue.category i)) (issues r))).
    { apply filter_In. split; [exact Hi|]. apply jsstring_eqb_refl. }
    rewrite E in Hin. contradiction.
  - rewrite flat_map_concat_map, map_map. cbn [sectionIssues].
    rewrite <- flat_map_concat_map.
    apply group_partition; [apply firstSeen_NoDup|].
    intros i Hi. apply firstSeen_complete; [|intros []].
    now apply in_map.
Qed.

Lemma head_error_count a l :
  Issue.type a = error -> 0 < countType error (a :: l).
Proof. intros E. unfold countType. simpl. rewrite E. simpl. lia. Qed.

Lemma countType_sorted_tail ty a l :
  StronglySorted severityLe (a :: l) ->
  (severityOrder ty < severityOrder (Issue.type a))%Z ->
  countType ty (a :: l) = 0.
Proof.
  intros Hs Hty. inversion Hs as [|? ? _ Ha]; subst.
  unfold countType. change (fun i => severity_eqb (Issue.type i) ty)
    with (hasType ty).
  rewrite filter_cons_type, (sorted_no_lower ty Ha Hty).
  destruct (severity_eqb (Issue.type a) ty) eqn:E; [|reflexivity].
  apply severity_eqb_eq in E. subst ty. lia.
Qed.

(** X9: the component shows the all-clear panel exactly when the
    report has no issue, which is when the summary is the clean-code
    sentence; otherwise the banner has the severity of the first issue
    listed, the first section is the one of that issue's category and
    starts with it. *)
Theorem render_banner (codeSnippet terminalLogs : jsstring) :
  exists r v,
    analyzeCode codeSnippet terminalLogs = Some r /\
    renderResult r = Some v /\
    (viewBody v = AllClear <-> issues r = []) /\
    (issues r = [] <->
     summary r = str "No issues detected. Code looks clean!") /\
    match issues r with
    | [] => viewBanner v = Success
    | i :: _ =>
        viewBanner v =
          match Issue.type i with
          | error => Destructive
          | warning => Caution
          | info => Success
          end /\
        exists s rest_ tail,
          viewBody v = Sections (s :: rest_) /\
          sectionCategory s = Issue.category i /\
          sectionIssues s = i :: tail
    end.
Proof.
  pose (r := report (codeFindings codeSnippet ++ logFindings terminalLogs)).
  assert (Hp : forall i, In i (issues r) ->
                 plainName (Issue.category i) = true)
    by (intros i Hi; eapply report_categories_plain; exact Hi).
  exists r. eexists. split; [apply analyzeCode_spec|].
  split; [exact (renderResult_plain r Hp)|].
  cbn [viewBanner viewBody].
  assert (Hsorted : StronglySorted severityLe (issues r))
    by apply arraySort_sorted.
  assert (Hstats : stats r = Stats.Make (countType error (issues r))
                                        (countType warning (issues r))
                                        (countType info (issues r)))
    by reflexivity.
  assert (Hsum : summary r = makeSummary (length (issues r)) (stats r))
    by reflexivity.
  destruct (issues r) as [|i l] eqn:El.
  - cbn [map firstSeen]. split; [tauto|]. split; [|rewrite Hstats; reflexivity].
    split; [intros _; rewrite Hsum; reflexivity | reflexivity].
  - cbn [map firstSeen existsb]. split; [split; discriminate|].
    split.
    { split; [discriminate|]. rewrite Hsum. unfold makeSummary.
      cbn [length Nat.eqb].
      destruct (0 <? Stats.errors (stats r));
        [|destruct (0 <? Stats.warnings (stats r))]; discriminate. }
    split.
    + rewrite Hstats. unfold bannerOf. cbn [Stats.errors Stats.warnings].
      destruct (Issue.type i) eqn:Ei.
      * pose proof (head_error_count i l Ei) as H.
        apply Nat.ltb_lt in H. now rewrite H.
      * rewrite (countType_sorted_tail error Hsorted)
          by (rewrite Ei; simpl; lia).
        change (0 <? 0) with false. cbv iota.
        assert (H : 0 < countType warning (i :: l))
          by (unfold countType; simpl; rewrite Ei; simpl; lia).
        apply Nat.ltb_lt in H. now rewrite H.
      * rewrite (countType_sorted_tail error Hsorted)
          by (rewrite Ei; simpl; lia).
        rewrite (countType_sorted_tail warning Hsorted)
          by (rewrite Ei; simpl; lia).
        reflexivity.
    + eexists. eexists. eexists. split; [reflexivity|].
      cbn [sectionCategory sectionIssues]. split; [reflexivity|].
      rewrite filter_inCategory_cons, jsstring_eqb_refl. reflexivity.
Qed.

(** X10: for any analysis, the component throws while grouping exactly
    when the category of some issue is a name inherited from
    [Object.prototype], such as [constructor] or [toString]: reading it
    from the fresh object gives a value with no [push]. *)
Theorem render_throws_iff (analysis : TraditionalAnalysisResult) :
  renderResult analysis = None <->
  exists i, In i (issues analysis) /\ inherited (Issue.category i) = true.
Proof.
  split.
  - intros H.
    destruct (existsb (fun i => inherited (Issue.category i))
                      (issues analysis)) eqn:E.
    + apply existsb_exists in E. exact E.
    + exfalso.
      destruct (@reduceGroups_spec (issues analysis) []) as (o & Ho & _).
      { intros i Hi.
        destruct (inherited (Issue.category i)) eqn:Ei; [|reflexivity].
        assert (existsb (fun i => inherited (Issue.category i))
                        (issues analysis) = true)
          by (apply existsb_exists; eauto).
        congruence. }
      unfold renderResult in H. rewrite Ho in H. discriminate.
  - intros H. unfold renderResult.
    rewrite (@reduceGroups_throws (issues analysis) []); auto.
    intros k [].
Qed.

(* ================================================================== *)
(** ** The handlers of the page *)

Lemma report_blank c logs :
  forallb isWhiteSpace c = true -> forallb isWhiteSpace logs = true ->
  analyzeCode c logs =
  Some (Result [] (str "No issues detected. Code looks clean!")
               (Stats.Make 0 0 0)).
Proof.
  intros Hc Hl. rewrite analyzeCode_spec.
  unfold codeFindings, logFindings, logCandidates.
  now rewrite (blank_nonBlank _ Hc), (blank_nonBlank _ Hl).
Qed.

(** X11: in traditional mode, with some input, [handleAnalyze] stores
    the report of [analyzeCode] on the code and the logs, clears the AI
    result, leaves the inputs and the mode as they were, ends with
    [isAnalyzing] false and shows one toast, whose three counts add up
    to the number of issues of the report; the results section then
    shows that report, which renders without throwing.  The screenshot
    plays no part: when it is the only input the report is the
    clean-code one. *)
Theorem traditional_run
    (invoke : option jsstring -> jsstring -> jsstring -> Index.InvokeResult)
    (nullReadMessage : jsstring) (st : Index.State) :
  Index.analysisMode st = Index.traditional ->
  Index.hasInput st = true ->
  exists r v,
    analyzeCode (Index.codeSnippet st) (Index.terminalLogs st) = Some r /\
    Index.handleAnalyze invoke nullReadMessage st =
      Some (Index.MkState Index.traditional (Index.screenshot st)
                          (Index.terminalLogs st) (Index.codeSnippet st)
                          false None (Some r),
            [Index.traditionalToast r]) /\
    Stats.errors (stats r) + Stats.warnings (stats r) + Stats.info (stats r)
      = length (issues r) /\
    Index.resultsPanel
      (Index.MkState Index.traditional (Index.screenshot st)
                     (Index.terminalLogs st) (Index.codeSnippet st)
                     false None (Some r))
      = Index.TraditionalPanel r /\
    renderResult r = Some v /\
    (forallb isWhiteSpace (Index.codeSnippet st) = true ->
     forallb isWhiteSpace (Index.terminalLogs st) = true ->
     r = Result [] (str "No issues detected. Code looks clean!")
                (Stats.Make 0 0 0)).
Proof.
  intros Hm Hi.
  pose (r := report (codeFindings (Index.codeSnippet st) ++
                     logFindings (Index.terminalLogs st))).
  assert (Hr : analyzeCode (Index.codeSnippet st) (Index.terminalLogs st)
               = Some r) by apply analyzeCode_spec.
  assert (Hp : forall i, In i (issues r) ->
                 plainName (Issue.category i) = true)
    by (intros i H; eapply report_categories_plain; exact H).
  exists r. eexists. split; [exact Hr|]. split.
  { unfold Index.handleAnalyze. rewrite Hi, Hm, Hr. cbn [negb].
    unfold Index.setIsAnalyzing, Index.setTraditionalAnalysis,
      Index.setAiAnalysis. cbn. now rewrite Hm. }
  split; [apply countType_sum|]. split; [reflexivity|].
  split; [exact (renderResult_plain r Hp)|].
  intros Hc Hl. rewrite (report_blank _ _ Hc Hl) in Hr. congruence.
Qed.

(** The theorem on a page holding one line of code. *)
Lemma traditional_run_witness :
  exists r v,
    analyzeCode (str "var x = 1;") [] = Some r /\
    Index.handleAnalyze (fun _ _ _ => Index.Rejected Index.OtherValue) []
      (Index.MkState Index.traditional None [] (str "var x = 1;")
                     false None None) =
      Some (Index.MkState Index.traditional None [] (str "var x = 1;")
                          false None (Some r),
            [Index.traditionalToast r]) /\
    Stats.errors (stats r) + Stats.warnings (stats r) + Stats.info (stats r)
      = length (issues r) /\
    Index.resultsPanel
      (Index.MkState Index.traditional None [] (str "var x = 1;")
                     false None (Some r))
      = Index.TraditionalPanel r /\
    renderResult r = Some v /\
    (forallb isWhiteSpace (str "var x = 1;") = true ->
     forallb isWhiteSpace [] = true ->
     r = Result [] (str "No issues detected. Code looks clean!")
                (Stats.Make 0 0 0)).
Proof.
  apply (traditional_run (fun _ _ _ => Index.Rejected Index.OtherValue) []
           (Index.MkState Index.traditional None [] (str "var x = 1;")
                          false None None));
    reflexivity.
Defined.

(** X12: the inputs leave the page only in AI mode.  In traditional
    mode [handleAnalyze] never calls the remote function and its outcome
    is the same whatever that function would answer; in AI mode, with
    some input, it calls it exactly once, before any toast, with the
    screenshot, the logs and the code of the page. *)
Theorem remote_call_only_in_ai_mode
    (invoke invoke' : option jsstring -> jsstring -> jsstring ->
                      Index.InvokeResult)
    (nullReadMessage nullReadMessage' : jsstring) (st : Index.State) :
  (exists out evs,
     Index.handleAnalyze invoke nullReadMessage
       (Index.setAnalysisMode Index.traditional st) = Some (out, evs) /\
     existsb Index.isInvoke evs = false /\
     Index.handleAnalyze invoke' nullReadMessage'
       (Index.setAnalysisMode Index.traditional st) = Some (out, evs)) /\
  (exists out evs,
     Index.handleAnalyze invoke nullReadMessage
       (Index.setAnalysisMode Index.ai st) = Some (out, evs) /\
     if Index.hasInput st then
       exists rest_,
         evs = Index.InvokeFunction (str "analyze-debug")
                 (Index.screenshot st) (Index.terminalLogs st)
                 (Index.codeSnippet st) :: rest_ /\
         existsb Index.isInvoke rest_ = false
     else existsb Index.isInvoke evs = false).
Proof.
  split.
  - unfold Index.handleAnalyze.
    change (Index.hasInput (Index.setAnalysisMode Index.traditional st))
      with (Index.hasInput st).
    cbn [Index.setAnalysisMode Index.analysisMode Index.codeSnippet
         Index.terminalLogs].
    rewrite analyzeCode_spec.
    destruct (Index.hasInput st); cbn [negb]; do 2 eexists;
      (split; [reflexivity|]); split; reflexivity.
  - unfold Index.handleAnalyze.
    change (Index.hasInput (Index.setAnalysisMode Index.ai st))
      with (Index.hasInput st).
    cbn [Index.setAnalysisMode Index.analysisMode Index.codeSnippet
         Index.terminalLogs Index.screenshot].
    destruct (Index.hasInput st); cbn [negb].
    + destruct (Index.afterInvoke _ _); do 2 eexists;
        (split; [reflexivity|]); eexists; split; reflexivity.
    + do 2 eexists. split; reflexivity.
Qed.

(** X13: [handleAnalyze] always settles, in both modes and whatever
    the remote function answers: it shows exactly one toast and leaves
    the mode and the three inputs as they were; without input it
    changes nothing; with input it ends with [isAnalyzing] false and at
    most one of the two results set, and in AI mode the AI result is
    set exactly when the toast is not the destructive one. *)
Theorem handleAnalyze_settles
    (invoke : option jsstring -> jsstring -> jsstring -> Index.InvokeResult)
    (nullReadMessage : jsstring) (st : Index.State) :
  exists out evs,
    Index.handleAnalyze invoke nullReadMessage st = Some (out, evs) /\
    (exists title description destructive,
       filter Index.isToast evs = [Index.Toast title description destructive] /\
       (Index.hasInput st = true -> Index.analysisMode st = Index.ai ->
        (destructive = false <-> Index.aiAnalysis out <> None))) /\
    Index.analysisMode out = Index.analysisMode st /\
    Index.screenshot out = Index.screenshot st /\
    Index.terminalLogs out = Index.terminalLogs st /\
    Index.codeSnippet out = Index.codeSnippet st /\
    (Index.hasInput st = false -> out = st) /\
    (Index.hasInput st = true ->
       Index.isAnalyzing out = false /\
       (Index.aiAnalysis out = None \/ Index.traditionalAnalysis out = None)).
Proof.
  unfold Index.handleAnalyze.
  destruct (Index.hasInput st) eqn:Hi; cbn [negb].
  - destruct (Index.analysisMode st) eqn:Hm.
    + destruct (Index.afterInvoke _ _) as [data|e]; do 2 eexists;
        (split; [reflexivity|]); cbn; (split; [do 3 eexists; split;
          [reflexivity|]; intros _ _; split; intros; congruence|]);
        repeat split; auto; discriminate.
    + rewrite analyzeCode_spec. do 2 eexists. split; [reflexivity|]. cbn.
      split; [do 3 eexists; split; [reflexivity|]; intros _ H;
              discriminate H|].
      repeat split; auto; discriminate.
  - do 2 eexists. split; [reflexivity|]. cbn.
    split; [do 3 eexists; split; [reflexivity|]; intros H; discriminate H|].
    repeat split; auto; discriminate.
Qed.

(** X14: [handleClear] empties the three inputs and both results:
    the screenshot becomes null, the logs and the code the empty string,
    and the two analyses null, whatever they held; it keeps the mode
    and [isAnalyzing], so that the cleared state depends on nothing
    else.  The page then has no input: the Analyze button is
    disabled, the results section shows the placeholder, and
    [handleAnalyze] would only show the no-input toast, changing
    nothing; clearing twice is clearing once. *)
Theorem clear_resets
    (invoke : option jsstring -> jsstring -> jsstring -> Index.InvokeResult)
    (nullReadMessage : jsstring) (st : Index.State) :
  Index.screenshot (Index.handleClear st) = None /\
  Index.terminalLogs (Index.handleClear st) = [] /\
  Index.codeSnippet (Index.handleClear st) = [] /\
  Index.aiAnalysis (Index.handleClear st) = None /\
  Index.traditionalAnalysis (Index.handleClear st) = None /\
  Index.isAnalyzing (Index.handleClear st) = Index.isAnalyzing st /\
  (forall st',
     Index.analysisMode st' = Index.analysisMode st ->
     Index.isAnalyzing st' = Index.isAnalyzing st ->
     Index.handleClear st' = Index.handleClear st) /\
  Index.hasInput (Index.handleClear st) = false /\
  Index.analyzeDisabled (Index.handleClear st) = true /\
  Index.resultsPanel (Index.handleClear st) = Index.Placeholder /\
  Index.analysisMode (Index.handleClear st) = Index.analysisMode st /\
  Index.handleAnalyze invoke nullReadMessage (Index.handleClear st) =
    Some (Index.handleClear st,
          [Index.Toast (str "No input provided")
             (str "Please add at least one: screenshot, terminal logs, or code snippet.")
             true]) /\
  Index.handleClear (Index.handleClear st) = Index.handleClear st /\
  (Index.analyzeDisabled st = false -> Index.hasInput st = true).
Proof.
  do 6 (split; [reflexivity|]).
  split.
  { intros st' Hm Ha. unfold Index.handleClear. now rewrite Hm, Ha. }
  split; [reflexivity|]. split; [reflexivity|].
  split.
  { unfold Index.resultsPanel. cbn. destruct (Index.analysisMode st);
      reflexivity. }
  split; [reflexivity|]. split; [reflexivity|]. split; [reflexivity|].
  unfold Index.analyzeDisabled. intros H.
  apply orb_false_iff in H. destruct H as [H _].
  now destruct (Index.hasInput st).
Qed.

(* ================================================================== *)
(** ** The workflow script against the page's analyzer *)

Lemma split_nonempty sep s : Workflow.split sep s <> [].
Proof.
  destruct s as [|c s]; simpl; [discriminate|].
  destruct (c =? sep)%N; [discriminate|].
  destruct (Workflow.split sep s); discriminate.
Qed.

Lemma split_length s :
  length (Workflow.split LF s) = countNewlines s + 1.
Proof.
  induction s as [|c s IH]; [reflexivity|].
  rewrite countNewlines_cons. cbn [Workflow.split].
  destruct (c =? LF)%N.
  - cbn [length]. rewrite IH. lia.
  - pose proof (split_nonempty LF s) as Hne.
    destruct (Workflow.split LF s) as [|h t]; [contradiction|].
    cbn [length] in *. lia.
Qed.

Lemma lineOf_findLineNumber content i :
  Workflow.lineOf content i = findLineNumber content i.
Proof.
  unfold Workflow.lineOf, substring0.
  now rewrite split_length, findLineNumber_spec.
Qed.

Lemma scanPatterns_spec (A : Type) fuel input
    (body : Pattern.t -> MatchResult -> A -> A) ps acc :
  allProgressing ps = true -> length input < fuel ->
  Workflow.scanPatterns fuel input body ps acc =
  Some (fold_left
          (fun a p => fold_left (fun a' m => body p m a') (allMatches p input) a)
          ps acc).
Proof.
  intros Hps Hf. revert acc.
  induction ps as [|p ps IH]; intros acc; simpl; [reflexivity|].
  simpl in Hps. apply andb_true_iff in Hps. destruct Hps as [Hp Hps].
  rewrite (whileExec_matches _ Hp); [|lia|lia].
  rewrite (matchesFrom_fuel _ Hp fuel (S (length input))); [|lia|lia|lia].
  apply IH, Hps.
Qed.

Lemma script_progressing : allProgressing Workflow.CODE_PATTERNS = true.
Proof. vm_compute. reflexivity. Qed.

Lemma analyzeBody_fold path c p ms acc :
  fold_left (fun a m => Workflow.analyzeBody path c p m a) ms acc =
  acc ++ map (fun m =>
                Workflow.MkIssue path (Workflow.lineOf c (index m))
                  (Pattern.type p) (Pattern.category p) (Pattern.message p))
             ms.
Proof.
  revert acc. induction ms as [|m ms IH]; intros acc; simpl.
  - now rewrite app_nil_r.
  - rewrite IH. unfold Workflow.analyzeBody. now rewrite <- app_assoc.
Qed.

Lemma scriptPatterns_fold path c ps acc :
  fold_left
    (fun a p =>
       fold_left (fun a' m => Workflow.analyzeBody path c p m a')
                 (allMatches p c) a) ps acc =
  acc ++ flat_map
           (fun p =>
              map (fun m =>
                     Workflow.MkIssue path (Workflow.lineOf c (index m))
                       (Pattern.type p) (Pattern.category p)
                       (Pattern.message p))
                  (allMatches p c)) ps.
Proof.
  revert acc. induction ps as [|p ps IH]; intros acc; simpl.
  - now rewrite app_nil_r.
  - rewrite IH, analyzeBody_fold. now rewrite <- app_assoc.
Qed.

Lemma analyzeFileFuel_spec fuel path c :
  length c < fuel ->
  Workflow.analyzeFileFuel fuel path c = Some (scriptFindings path c).
Proof.
  intros Hf. unfold Workflow.analyzeFileFuel.
  rewrite scanPatterns_spec; auto using script_progressing.
  now rewrite scriptPatterns_fold.
Qed.

Lemma analyzeFile_spec path c :
  Workflow.analyzeFile path c = Some (scriptFindings path c).
Proof. apply analyzeFileFuel_spec. lia. Qed.

(** The rules of the script are the shared rules of the page, with the
    same regular expression, severity and category, in the same
    order. *)
Lemma script_rules_shared :
  map ruleCore Workflow.CODE_PATTERNS =
  map ruleCore (filter sharedRule CODE_PATTERNS).
Proof. vm_compute. reflexivity. Qed.

Lemma script_triples path c :
  map Workflow.triple (scriptFindings path c) =
  flat_map (coreTriples c) (map ruleCore Workflow.CODE_PATTERNS).
Proof.
  unfold scriptFindings.
  induction Workflow.CODE_PATTERNS as [|p ps IH]; [reflexivity|].
  cbn [flat_map map]. rewrite map_app, IH. f_equal.
  unfold coreTriples, allMatches, ruleCore. cbn [fst snd].
  rewrite map_map. apply map_ext. intros m. unfold Workflow.triple.
  cbn [Workflow.type Workflow.category Workflow.line].
  now rewrite lineOf_findLineNumber.
Qed.

Lemma filter_flat_map (A B : Type) (f : B -> bool) (fa : A -> bool)
    (h : A -> list B) l :
  (forall a b, In b (h a) -> f b = fa a) ->
  filter f (flat_map h l) = flat_map h (filter fa l).
Proof.
  intros H. induction l as [|a l IH]; simpl; [reflexivity|].
  rewrite filter_app, IH. destruct (fa a) eqn:E; simpl.
  - f_equal. apply filter_all. intros b Hb. now rewrite (H a b Hb).
  - rewrite filter_none; [reflexivity|].
    intros b Hb. now rewrite (H a b Hb).
Qed.

Lemma page_triples c ps :
  map issueTriple
      (flat_map (fun p => map (codeIssue c p) (allMatches p c)) ps) =
  flat_map (coreTriples c) (map ruleCore ps).
Proof.
  induction ps as [|p ps IH]; [reflexivity|].
  cbn [flat_map map]. rewrite map_app, IH. f_equal.
  unfold coreTriples, allMatches, ruleCore. cbn [fst snd].
  rewrite map_map. apply map_ext. intros m. reflexivity.
Qed.

Lemma nonBlank_false s : nonBlank s = false -> forallb isWhiteSpace s = true.
Proof.
  intros H. apply forallb_forall. intros c Hc.
  destruct (isWhiteSpace c) eqn:E; [reflexivity|].
  rewrite (nonBlank_intro _ _ Hc E) in H. discriminate.
Qed.

Lemma coreTriples_blank c ps :
  incl ps (CODE_PATTERNS ++ TERMINAL_PATTERNS) ->
  forallb isWhiteSpace c = true ->
  flat_map (coreTriples c) (map ruleCore ps) = [].
Proof.
  intros Hps Hb. induction ps as [|p ps IH]; [reflexivity|].
  cbn [map flat_map]. rewrite IH by (intros q Hq; apply Hps; now right).
  rewrite app_nil_r. unfold coreTriples, ruleCore. cbn [fst snd].
  pose proof (allMatches_blank c (Hps p (or_introl eq_refl)) Hb) as H.
  unfold allMatches in H. now rewrite H.
Qed.

(** The triples of the script are those of the shared findings of the
    page's code scan. *)
Lemma script_agrees path c :
  map Workflow.triple (scriptFindings path c) =
  map issueTriple (filter sharedFinding (codeFindings c)).
Proof.
  rewrite script_triples, script_rules_shared.
  unfold codeFindings. destruct (nonBlank c) eqn:Hb.
  - rewrite (filter_flat_map sharedFinding sharedRule).
    + now rewrite page_triples.
    + intros p i Hi. apply in_map_iff in Hi. destruct Hi as (m & <- & _).
      reflexivity.
  - cbn [filter map]. apply coreTriples_blank.
    + intros p Hp. apply filter_In in Hp. apply in_or_app. now left.
    + now apply nonBlank_false.
Qed.

(** X15: the script numbers lines by splitting the text before the
    match at newlines and counting the pieces; this is the line the
    page's [findLineNumber] gives, one more than the number of newlines
    before the match. *)
Theorem script_line_numbers (content : jsstring) (matchIndex : nat) :
  Workflow.lineOf content matchIndex = findLineNumber content matchIndex /\
  Workflow.lineOf content matchIndex =
    countNewlines (firstn matchIndex content) + 1 /\
  forall s, length (Workflow.split LF s) = countNewlines s + 1.
Proof.
  split; [apply lineOf_findLineNumber|].
  split; [|exact split_length].
  now rewrite lineOf_findLineNumber, findLineNumber_spec.
Qed.

Lemma filter_map_comm (A B : Type) (f : B -> bool) (h : A -> B) l :
  filter f (map h l) = map h (filter (fun a => f (h a)) l).
Proof.
  induction l as [|a l IH]; simpl; [reflexivity|].
  destruct (f (h a)); simpl; now rewrite IH.
Qed.

Lemma filter_filter_length (A : Type) (f h : A -> bool) l :
  length (filter f (filter h l)) <= length (filter f l).
Proof.
  induction l as [|a l IH]; simpl; [lia|].
  destruct (h a); simpl; destruct (f a); simpl; lia.
Qed.

Lemma script_count ty path c :
  length (filter (Workflow.ofType ty) (scriptFindings path c)) =
  length (filter (hasType ty) (filter sharedFinding (codeFindings c))).
Proof.
  pose proof (script_agrees path c) as H.
  apply (f_equal (filter (fun t => severity_eqb (fst (fst t)) ty))) in H.
  rewrite !filter_map_comm in H. apply (f_equal (@length _)) in H.
  rewrite !length_map in H. exact H.
Qed.

(** X16: the script's 18 rules are rules of the page's code catalog,
    in the same order, with the same regular expression, severity and
    category.  For every file content [analyzeFile] returns, for any
    loop bound above the length of the content, and its issues are, in
    order and with the same severity, category and line, the page's code
    findings for those rules; all carry the file's path, and for each
    severity they are at most as many as the issues of the page's
    report on the same content. *)
Theorem script_matches_page (filePath content : jsstring) :
  map ruleCore Workflow.CODE_PATTERNS =
    map ruleCore (filter sharedRule CODE_PATTERNS) /\
  exists found r,
    Workflow.analyzeFile filePath content = Some found /\
    (forall fuel, length content < fuel ->
       Workflow.analyzeFileFuel fuel filePath content = Some found) /\
    analyzeCode content [] = Some r /\
    map Workflow.triple found =
      map issueTriple (filter sharedFinding (codeFindings content)) /\
    (forall i, In i found -> Workflow.file i = filePath) /\
    (forall ty,
       length (filter (Workflow.ofType ty) found) <=
       length (filter (hasType ty) (issues r))).
Proof.
  split; [apply script_rules_shared|].
  do 2 eexists. split; [apply analyzeFile_spec|].
  split; [intros fuel Hf; now apply analyzeFileFuel_spec|].
  split; [apply analyzeCode_spec|].
  split; [apply script_agrees|]. split.
  - intros i Hi. unfold scriptFindings in Hi. apply in_flat_map in Hi.
    destruct Hi as (p & _ & Hi). apply in_map_iff in Hi.
    now destruct Hi as (m & <- & _).
  - intros ty. rewrite script_count. cbn [issues report].
    rewrite arraySort_stable, logFindings_empty, app_nil_r.
    apply filter_filter_length.
Qed.

Lemma analyzeAll_readable readFileSync files acc :
  (forall f, In f files -> exists c, readFileSync f = Workflow.Content c) ->
  Workflow.analyzeAll readFileSync files acc =
  Some (Workflow.Issues
          (acc ++ flat_map (fun f => scriptFindings f
                                       (Workflow.contentOf (readFileSync f)))
                           files)).
Proof.
  revert acc. induction files as [|f files IH]; intros acc Hr;
    cbn [Workflow.analyzeAll flat_map].
  - now rewrite app_nil_r.
  - destruct (Hr f (or_introl eq_refl)) as (c & Hc).
    unfold Workflow.analyzeFileAt. rewrite Hc, analyzeFile_spec.
    cbn [option_map Workflow.contentOf].
    rewrite IH by (intros; apply Hr; now right).
    now rewrite <- app_assoc.
Qed.

Lemma analyzeAll_throws readFileSync pre f code post acc :
  (forall g, In g pre -> exists c, readFileSync g = Workflow.Content c) ->
  readFileSync f = Workflow.ReadError code ->
  Workflow.analyzeAll readFileSync (pre ++ f :: post) acc =
  Some (Workflow.ReadThrew f code).
Proof.
  revert acc. induction pre as [|g pre IH]; intros acc Hr Hf;
    cbn [app Workflow.analyzeAll]; unfold Workflow.analyzeFileAt.
  - now rewrite Hf.
  - destruct (Hr g (or_introl eq_refl)) as (c & Hc).
    rewrite Hc, analyzeFile_spec. cbn [option_map].
    apply IH; [|exact Hf]. intros; apply Hr; now right.
Qed.

(** Either every file can be read, or there is a first one that
    cannot. *)
Lemma first_unreadable (readFileSync : jsstring -> Workflow.ReadResult)
    files :
  (forall f, In f files -> exists c, readFileSync f = Workflow.Content c) \/
  exists pre f code post,
    files = pre ++ f :: post /\
    (forall g, In g pre -> exists c, readFileSync g = Workflow.Content c) /\
    readFileSync f = Workflow.ReadError code.
Proof.
  induction files as [|f files IH]; [left; intros f []|].
  destruct (readFileSync f) as [c|code] eqn:Ef.
  - destruct IH as [IH | (pre & f' & code & post & -> & Hpre & Hf')].
    + left. intros g [<-|Hg]; eauto.
    + right. exists (f :: pre), f', code, post.
      split; [reflexivity|]. split; [|exact Hf'].
      intros g [<-|Hg]; eauto.
  - right. exists [], f, code, files.
    split; [reflexivity|]. split; [intros g []|exact Ef].
Qed.

Lemma script_no_info :
  forallb (fun p => negb (severity_eqb (Pattern.type p) info))
          Workflow.CODE_PATTERNS = true.
Proof. vm_compute. reflexivity. Qed.

Lemma scriptFindings_no_info path c i :
  In i (scriptFindings path c) -> Workflow.type i <> info.
Proof.
  intros Hi. unfold scriptFindings in Hi. apply in_flat_map in Hi.
  destruct Hi as (p & Hp & Hi). apply in_map_iff in Hi.
  destruct Hi as (m & <- & _). cbn [Workflow.type].
  pose proof script_no_info as H. rewrite forallb_forall in H.
  specialize (H p Hp). intros E. rewrite E in H. discriminate.
Qed.

Lemma script_counts_cover (l : list Workflow.ScriptIssue) :
  (forall i, In i l -> Workflow.type i <> info) ->
  length (filter (Workflow.ofType error) l) +
  length (filter (Workflow.ofType warning) l) = length l.
Proof.
  induction l as [|i l IH]; intros Hl; [reflexivity|].
  assert (Hi : Workflow.type i <> info) by (apply Hl; now left).
  assert (IH' := IH (fun j Hj => Hl j (or_intror Hj))).
  simpl. unfold Workflow.ofType in *.
  destruct (Workflow.type i); simpl; [lia | lia | contradiction].
Qed.

(** The code that the script passes to [process.exit]. *)
Lemma exitCode_cases (errors warnings : list Workflow.ScriptIssue) :
  let code := if 0 <? length errors then 1
              else if 0 <? length warnings then 0 else 0 in
  (code = 1 <-> errors <> []) /\ (code = 0 <-> errors = []).
Proof.
  destruct errors as [|a l].
  - change (0 <? length (@nil Workflow.ScriptIssue)) with false.
    cbv zeta iota. destruct (0 <? _); repeat split; congruence.
  - change (0 <? length (a :: l)) with true. cbv zeta iota.
    repeat split; congruence.
Qed.

(** An error among the script's issues for a content is an error of
    the page's report on that content. *)
Lemma script_error_page path c i :
  In i (scriptFindings path c) -> Workflow.type i = error ->
  exists r, analyzeCode c [] = Some r /\ 0 < Stats.errors (stats r).
Proof.
  intros Hi Herr. eexists. split; [apply analyzeCode_spec|].
  cbn [stats report Stats.errors]. unfold countType.
  change (fun i => severity_eqb (Issue.type i) error) with (hasType error).
  rewrite arraySort_stable, logFindings_empty, app_nil_r.
  assert (Hpos : 0 < length (filter (Workflow.ofType error)
                               (scriptFindings path c))).
  { assert (In i (filter (Workflow.ofType error) (scriptFindings path c))).
    { apply filter_In. split; [exact Hi|].
      unfold Workflow.ofType. now rewrite Herr. }
    destruct (filter _ (scriptFindings path c)); [contradiction|simpl; lia]. }
  rewrite script_count in Hpos.
  eapply Nat.lt_le_trans; [exact Hpos | apply filter_filter_length].
Qed.

(** X17: the run of the script over any files ends, whatever the reads
    give.  When every file can be read it prints its results and exits:
    its issues are those of the files in order; as the script has no
    rule of severity info, the errors and the warnings it counts are
    all of them; the code passed to [process.exit] is 1 exactly when an
    error was found and 0 otherwise.  When the read of a file throws,
    nothing catches it: the process ends there with the exception of
    the first such file, whatever was found before.  So the status is 0
    or 1, and it is 1 exactly when some file cannot be read or an error
    is found in a file; with every file read, status 1 means that the
    page's analyzer reports an error on the content of one of the
    files.  A current directory that cannot be listed gives no file and
    status 0. *)
Theorem workflow_outcome
    (readFileSync : jsstring -> Workflow.ReadResult)
    (files : list jsstring) :
  exists run,
    Workflow.main readFileSync files = Some run /\
    ((forall f, In f files ->
        exists c, readFileSync f = Workflow.Content c) ->
     exists o,
       run = Workflow.Exited o /\
       Workflow.filesAnalyzed o = length files /\
       Workflow.allIssues o =
         flat_map (fun f => scriptFindings f
                              (Workflow.contentOf (readFileSync f))) files /\
       Workflow.errors o =
         filter (Workflow.ofType error) (Workflow.allIssues o) /\
       Workflow.warnings o =
         filter (Workflow.ofType warning) (Workflow.allIssues o) /\
       length (Workflow.errors o) + length (Workflow.warnings o) =
         length (Workflow.allIssues o) /\
       (Workflow.exitCode o = 1 <-> Workflow.errors o <> []) /\
       (Workflow.exitCode o = 0 <-> Workflow.errors o = []) /\
       (Workflow.exitCode o = 1 ->
        exists f c r,
          In f files /\ readFileSync f = Workflow.Content c /\
          analyzeCode c [] = Some r /\ 0 < Stats.errors (stats r))) /\
    (forall pre f code post,
       files = pre ++ f :: post ->
       (forall g, In g pre ->
          exists c, readFileSync g = Workflow.Content c) ->
       readFileSync f = Workflow.ReadError code ->
       run = Workflow.Uncaught f code) /\
    (Workflow.exitStatus run = 0 \/ Workflow.exitStatus run = 1) /\
    (Workflow.exitStatus run = 1 <->
       (exists f code,
          In f files /\ readFileSync f = Workflow.ReadError code) \/
       (exists f c i,
          In f files /\ readFileSync f = Workflow.Content c /\
          In i (scriptFindings f c) /\ Workflow.type i = error)) /\
    (forall items,
       analyzeScript readFileSync false items =
       Some (Workflow.Exited (Workflow.MkOutcome 0 [] [] [] 0))) /\
    (forall readable items,
       analyzeScript readFileSync readable items <> None).
Proof.
  assert (Hall : forall fs i,
            In i (flat_map (fun f => scriptFindings f
                              (Workflow.contentOf (readFileSync f))) fs) ->
            Workflow.type i <> info).
  { intros fs i Hi. apply in_flat_map in Hi.
    destruct Hi as (f & _ & Hi). eapply scriptFindings_no_info; eauto. }
  assert (Htotal : forall fs, Workflow.main readFileSync fs <> None).
  { intros fs. unfold Workflow.main.
    destruct (first_unreadable readFileSync fs)
      as [Hr | (pre & f & code & post & -> & Hpre & Hf)].
    - rewrite (@analyzeAll_readable _ _ [] Hr). discriminate.
    - rewrite (@analyzeAll_throws _ _ _ _ post [] Hpre Hf). discriminate. }
  destruct (first_unreadable readFileSync files)
    as [Hr | (pre & f & code & post & -> & Hpre & Hf)].
  - (* every file is read *)
    unfold Workflow.main. rewrite (@analyzeAll_readable _ _ [] Hr).
    cbn [app].
    set (all := flat_map (fun f => scriptFindings f
                            (Workflow.contentOf (readFileSync f))) files).
    pose proof (exitCode_cases (filter (Workflow.ofType error) all)
                  (filter (Workflow.ofType warning) all)) as Hcode.
    cbv zeta in Hcode. destruct Hcode as [Hone Hzero].
    assert (Hfound : filter (Workflow.ofType error) all <> [] ->
              exists f c i,
                In f files /\ readFileSync f = Workflow.Content c /\
                In i (scriptFindings f c) /\ Workflow.type i = error).
    { intros Hne.
      destruct (filter (Workflow.ofType error) all) as [|i l] eqn:E;
        [contradiction|].
      assert (Hi : In i (filter (Workflow.ofType error) all))
        by (rewrite E; now left).
      apply filter_In in Hi. destruct Hi as [Hi Herr].
      unfold all in Hi. apply in_flat_map in Hi.
      destruct Hi as (f & Hf & Hi).
      destruct (Hr f Hf) as (c & Hc). rewrite Hc in Hi.
      exists f, c, i. repeat split; auto.
      now apply severity_eqb_eq. }
    eexists. split; [reflexivity|].
    split.
    { intros _. eexists. split; [reflexivity|].
      cbn [Workflow.filesAnalyzed Workflow.allIssues Workflow.errors
           Workflow.warnings Workflow.exitCode].
      do 4 (split; [reflexivity|]).
      split; [apply script_counts_cover, Hall|].
      split; [exact Hone|]. split; [exact Hzero|].
      intros Hexit. apply Hone, Hfound in Hexit.
      destruct Hexit as (f & c & i & Hf & Hc & Hi & Herr).
      destruct (@script_error_page _ _ _ Hi Herr) as (r & Hrep & Hpos).
      exists f, c, r. auto. }
    split.
    { intros pre f code post -> _ Hf.
      destruct (Hr f) as (c & Hc); [apply in_or_app; right; now left|].
      congruence. }
    cbn [Workflow.exitStatus Workflow.exitCode].
    split.
    { destruct (filter (Workflow.ofType error) all) as [|a l].
      - left. now apply Hzero.
      - right. apply Hone. discriminate. }
    split.
    { split.
      - intros Hexit. right. now apply Hfound, Hone.
      - intros [(f & code & Hf & Hc) | (f & c & i & Hf & Hc & Hi & Herr)].
        + destruct (Hr f Hf) as (c & Hc'). congruence.
        + apply Hone. intros E.
          assert (Hin : In i (filter (Workflow.ofType error) all)).
          { apply filter_In. split.
            - unfold all. apply in_flat_map. exists f.
              split; [exact Hf|]. now rewrite Hc.
            - unfold Workflow.ofType. now rewrite Herr. }
          now rewrite E in Hin. }
    split; [reflexivity | intros; apply Htotal].
  - (* the read of [f] throws *)
    unfold Workflow.main. rewrite (@analyzeAll_throws _ _ _ _ post [] Hpre Hf).
    eexists. split; [reflexivity|].
    split.
    { intros Hr. destruct (Hr f) as (c & Hc);
        [apply in_or_app; right; now left | congruence]. }
    split.
    { intros pre' f' code' post' E Hpre' Hf'.
      assert (Hsame : pre' = pre /\ f' = f).
      { clear - E Hpre Hf Hpre' Hf'. revert pre' E Hpre'.
        induction pre as [|g pre IH]; intros [|g' pre'] E Hpre';
          cbn [app] in E; injection E as E1 E2.
        - now subst.
        - subst g'. destruct (Hpre' f (or_introl eq_refl)) as (c & Hc).
          congruence.
        - subst g. destruct (Hpre f' (or_introl eq_refl)) as (c & Hc).
          congruence.
        - subst g'. destruct (IH (fun x Hx => Hpre x (or_intror Hx))
                                 pre' E2 (fun x Hx => Hpre' x (or_intror Hx)))
            as [-> ->]. auto. }
      destruct Hsame as [-> ->]. congruence. }
    cbn [Workflow.exitStatus].
    split; [now right|].
    split.
    { split; [|reflexivity]. intros _. left. exists f, code.
      split; [apply in_or_app; right; now left | exact Hf]. }
    split; [reflexivity | intros; apply Htotal].
Qed.

(* ================================================================== *)
(** ** The file search *)

Lemma Entry_induction (P : Files.Entry -> Prop) :
  (forall name, P (Files.FileEntry name)) ->
  (forall name readable items,
     Forall P items -> P (Files.DirEntry name readable items)) ->
  (forall name, P (Files.BrokenEntry name)) ->
  forall e, P e.
Proof.
  intros Hf Hd Hb. fix IH 1. intros [name|name readable items|name].
  - apply Hf.
  - apply Hd. induction items as [|e items IHitems]; constructor.
    + apply IH.
    + exact IHitems.
  - apply Hb.
Qed.

Lemma loopEntries_ext body body' items results :
  Forall (fun e => body e = body' e) items ->
  Files.loopEntries body items results =
  Files.loopEntries body' items results.
Proof.
  intros H. revert results. induction H as [|e items He _ IH];
    intros results; simpl; [reflexivity|].
  rewrite He. destruct (body' e); [apply IH | reflexivity].
Qed.

Lemma loopEntries_map body (h : Files.Entry -> Files.Entry) items results :
  Files.loopEntries body (map h items) results =
  Files.loopEntries (fun e => body (h e)) items results.
Proof.
  revert results. induction items as [|e items IH]; intros results; simpl;
    [reflexivity|].
  destruct (body (h e)); [apply IH | reflexivity].
Qed.

Lemma visit_prune extensions ignore e :
  forall dir,
    Files.visit extensions ignore dir (Files.pruneEntry ignore e) =
    Files.visit extensions ignore dir e.
Proof.
  induction e as [name|name readable items IH|name] using Entry_induction;
    intros dir; [reflexivity| |reflexivity].
  cbn [Files.pruneEntry Files.visit].
  destruct (Files.arrayIncludes ignore name); cbn [negb]; [reflexivity|].
  destruct readable; [|reflexivity]. f_equal.
  rewrite loopEntries_map. apply loopEntries_ext.
  eapply Forall_impl; [|exact IH]. intros e He. apply He.
Qed.

Lemma loopEntries_results body items results :
  exists found,
    Files.loopEntries body items results = results ++ found /\
    forall path, In path found ->
      exists e l, In e items /\ body e = Some l /\ In path l.
Proof.
  revert results. induction items as [|e items IH]; intros results; simpl.
  - exists []. split; [now rewrite app_nil_r | intros path []].
  - destruct (body e) as [l|] eqn:E.
    + destruct (IH (results ++ l)) as (found & -> & Hf).
      exists (l ++ found). split; [now rewrite app_assoc|].
      intros path Hp. apply in_app_or in Hp. destruct Hp as [Hp|Hp].
      * exists e, l. auto.
      * destruct (Hf path Hp) as (e' & l' & ? & ? & ?).
        exists e', l'. auto.
    + exists []. split; [now rewrite app_nil_r | intros path []].
Qed.

Lemma loopEntries_skip body pre e post results :
  body e = Some [] ->
  Files.loopEntries body (pre ++ e :: post) results =
  Files.loopEntries body (pre ++ post) results.
Proof.
  intros He. revert results. induction pre as [|a pre IH]; intros results;
    simpl.
  - now rewrite He, app_nil_r.
  - destruct (body a); [apply IH | reflexivity].
Qed.

Lemma loopEntries_stop body pre e post results :
  body e = None ->
  Files.loopEntries body (pre ++ e :: post) results =
  Files.loopEntries body pre results.
Proof.
  intros He. revert results. induction pre as [|a pre IH]; intros results;
    simpl.
  - now rewrite He.
  - destruct (body a); [apply IH | reflexivity].
Qed.

Lemma startsWith_app sub s t :
  startsWith sub s = true -> startsWith sub (s ++ t) = true.
Proof.
  revert s. induction sub as [|a sub IH]; intros s; [reflexivity|].
  destruct s as [|b s]; simpl; [discriminate|].
  intros H. apply andb_true_iff in H. destruct H as [-> H]. simpl. auto.
Qed.

Lemma endsWith_join ext dir item :
  Files.endsWith ext item = true ->
  Files.endsWith ext (Files.join dir item) = true.
Proof.
  unfold Files.endsWith, Files.join. intros H.
  destruct (jsstring_eqb dir (str ".")); [exact H|].
  rewrite app_assoc, rev_app_distr. now apply startsWith_app.
Qed.

Lemma visit_extension extensions ignore e :
  forall dir l path,
    Files.visit extensions ignore dir e = Some l -> In path l ->
    existsb (fun ext => Files.endsWith ext path) extensions = true.
Proof.
  induction e as [name|name readable items IH|name] using Entry_induction;
    intros dir l path; cbn [Files.visit].
  - destruct (existsb _ extensions) eqn:E; intros H; injection H as <-;
      intros Hp; [|contradiction].
    destruct Hp as [<-|[]]. apply existsb_exists in E.
    destruct E as (ext & Hext & E). apply existsb_exists. exists ext.
    split; [exact Hext | now apply endsWith_join].
  - destruct (Files.arrayIncludes ignore name); cbn [negb];
      intros H; injection H as <-; [intros []|].
    destruct readable; [|intros []].
    destruct (loopEntries_results
                (Files.visit extensions ignore (Files.join dir name))
                items []) as (found & -> & Hf).
    cbn [app]. intros Hp. destruct (Hf path Hp) as (e & l & He & Hv & Hl).
    rewrite Forall_forall in IH. eapply IH; eauto.
  - discriminate.
Qed.

(** X18: [findFiles] returns only paths that end with one of the
    extensions, and what it returns does not depend on the contents of
    the directories whose name is in the ignore list: emptying them, or
    removing them, gives the same paths.  This is so in particular for
    the extensions and the ignore list of the script, for which
    [node_modules] is never entered. *)
Theorem findFiles_ignores (extensions ignore : list jsstring)
    (dir : jsstring) (readable : bool) (items : list Files.Entry) :
  (forall path,
     In path (Files.findFiles extensions ignore dir readable items) ->
     existsb (fun ext => Files.endsWith ext path) extensions = true) /\
  Files.findFiles extensions ignore dir readable
                  (map (Files.pruneEntry ignore) items) =
    Files.findFiles extensions ignore dir readable items /\
  (forall pre name r sub post,
     items = pre ++ Files.DirEntry name r sub :: post ->
     Files.arrayIncludes ignore name = true ->
     Files.findFiles extensions ignore dir readable items =
     Files.findFiles extensions ignore dir readable (pre ++ post)) /\
  Files.arrayIncludes Files.defaultIgnore (str "node_modules") = true.
Proof.
  split; [|split; [|split; [|reflexivity]]].
  - unfold Files.findFiles. destruct readable; [|intros path []].
    intros path Hp.
    destruct (loopEntries_results (Files.visit extensions ignore dir)
                                  items []) as (found & Hf & Hfound).
    rewrite Hf in Hp. cbn [app] in Hp.
    destruct (Hfound path Hp) as (e & l & _ & Hv & Hl).
    eapply visit_extension; eauto.
  - unfold Files.findFiles. destruct readable; [|reflexivity].
    rewrite loopEntries_map. apply loopEntries_ext.
    apply Forall_forall. intros e _. apply visit_prune.
  - intros pre name r sub post -> Hi. unfold Files.findFiles.
    destruct readable; [|reflexivity].
    apply loopEntries_skip. cbn [Files.visit]. now rewrite Hi.
Qed.

(** X19: [findFiles] swallows the errors of the file system.  A
    directory that cannot be read gives no path, at the top as well as
    below it; and an entry on which [statSync] throws ends the loop over
    its directory, so that the entries listed after it are not
    searched. *)
Theorem findFiles_swallows_errors (extensions ignore : list jsstring)
    (dir : jsstring) (items : list Files.Entry) :
  Files.findFiles extensions ignore dir false items = [] /\
  (forall pre name sub post,
     items = pre ++ Files.DirEntry name false sub :: post ->
     Files.findFiles extensions ignore dir true items =
     Files.findFiles extensions ignore dir true (pre ++ post)) /\
  (forall pre name post,
     items = pre ++ Files.BrokenEntry name :: post ->
     Files.findFiles extensions ignore dir true items =
     Files.findFiles extensions ignore dir true pre).
Proof.
  split; [reflexivity|]. split.
  - intros pre name sub post ->. unfold Files.findFiles.
    apply loopEntries_skip. cbn [Files.visit].
    destruct (Files.arrayIncludes ignore name); reflexivity.
  - intros pre name post ->. unfold Files.findFiles.
    now apply loopEntries_stop.
Qed.

(* ================================================================== *)
(** ** More log text never hides a log finding *)

Lemma orElse_right a b : b <> None -> orElse a b <> None.
Proof. destruct a; simpl; [discriminate | auto]. Qed.

Lemma orElse_left a b : a <> None -> orElse a b <> None.
Proof. destruct a; simpl; [discriminate | contradiction]. Qed.

Lemma Extends_one t p : Extends t (one p).
Proof.
  intros x k z H x' k' Hx Hk. unfold one in *.
  destruct (rest x) as [|c s] eqn:E; [discriminate|].
  rewrite Hx. cbn [app]. destruct (p c); [|discriminate].
  eapply Hk; [|exact H]. reflexivity.
Qed.

Lemma Extends_repeat t m :
  Extends t m -> Consumes 0 m ->
  forall fuel x k z,
    repeatMatcher m fuel x k = Some z ->
    forall fuel' x' k',
      rest x' = rest x ++ t -> length (rest x') <= fuel' ->
      (forall y y' z', rest y' = rest y ++ t -> k y = Some z' ->
                       k' y' <> None) ->
      repeatMatcher m fuel' x' k' <> None.
Proof.
  intros Hm Hc. induction fuel as [|fuel IH]; intros x k z H fuel' x' k'
    Hx Hf Hk.
  - simpl in H. destruct fuel' as [|fuel']; simpl.
    + eapply Hk; eauto.
    + apply orElse_right. eapply Hk; eauto.
  - simpl in H. apply orElse_Some in H. destruct H as [H | [_ H]].
    + destruct fuel' as [|fuel'].
      * exfalso. apply Hc in H. destruct H as (y & pre & H & Hy & _).
        cbv beta in H.
        destruct (length (rest y) <? length (rest x)) eqn:E;
          [|discriminate].
        apply Nat.ltb_lt in E. rewrite Hx, length_app in Hf. lia.
      * simpl. apply orElse_left.
        eapply Hm; [exact H | exact Hx |].
        intros y y' z' Hy Hy'. cbv beta in Hy'.
        destruct (length (rest y) <? length (rest x)) eqn:E;
          [|discriminate].
        apply Nat.ltb_lt in E.
        assert (E' : (length (rest y') <? length (rest x')) = true).
        { apply Nat.ltb_lt. rewrite Hx, Hy, !length_app. lia. }
        rewrite E'. eapply IH; eauto.
        apply Nat.ltb_lt in E'. lia.
    + destruct fuel' as [|fuel']; simpl.
      * eapply Hk; eauto.
      * apply orElse_right. eapply Hk; eauto.
Qed.

Lemma run_Extends t f r : positive r = true -> Extends t (run f r).
Proof.
  induction r; simpl; try discriminate; intros Hp.
  - intros x k z H x' k' Hx Hk. eapply Hk; eauto.
  - apply Extends_one.
  - apply Extends_one.
  - apply andb_true_iff in Hp. destruct Hp as [H1 H2].
    intros x k z H x' k' Hx Hk.
    eapply (IHr1 H1); [exact H | exact Hx |].
    intros y y' z' Hy Hy'.
    eapply (IHr2 H2); [exact Hy' | exact Hy | exact Hk].
  - apply andb_true_iff in Hp. destruct Hp as [H1 H2].
    intros x k z H x' k' Hx Hk.
    apply orElse_Some in H. destruct H as [H | [_ H]].
    + apply orElse_left. eapply (IHr1 H1); eauto.
    + apply orElse_right. eapply (IHr2 H2); eauto.
  - intros x k z H x' k' Hx Hk.
    eapply Extends_repeat; [apply (IHr Hp) | | exact H | exact Hx | | exact Hk].
    + eapply Consumes_weaken; [|apply run_Consumes]. lia.
    + apply Nat.le_refl.
  - intros x k z H x' k' Hx Hk.
    eapply (IHr Hp); [exact H | exact Hx |].
    intros y y' z' Hy Hy'.
    eapply Extends_repeat; [apply (IHr Hp) | | exact Hy' | exact Hy | | exact Hk].
    + eapply Consumes_weaken; [|apply run_Consumes]. lia.
    + apply Nat.le_refl.
  - intros x k z H x' k' Hx Hk.
    apply orElse_Some in H. destruct H as [H | [_ H]].
    + apply orElse_left. eapply (IHr Hp); [exact H | exact Hx |].
      intros y y' z' Hy Hy'. cbv beta in Hy'.
      destruct (length (rest y) <? length (rest x)) eqn:E;
        [|discriminate].
      apply Nat.ltb_lt in E.
      assert (E' : (length (rest y') <? length (rest x')) = true).
      { apply Nat.ltb_lt. rewrite Hx, Hy, !length_app. lia. }
      rewrite E'. eapply Hk; eauto.
    + apply orElse_right. eapply Hk; eauto.
Qed.

(** A match of a positive pattern somewhere in a text is still found
    with text added before and after. *)
Lemma positive_found p s pre post :
  positive (source (newRegExp p)) = true ->
  global (fl (newRegExp p)) = true ->
  allMatches p s <> [] -> allMatches p (pre ++ s ++ post) <> [].
Proof.
  intros Hp Hg Hm.
  apply allMatches_nonempty_iff in Hm; [|exact Hg].
  apply allMatches_nonempty_iff; [exact Hg|].
  destruct (search (newRegExp p) None s 0) as [m|] eqn:E; [|contradiction].
  apply search_found in E. destruct E as (pre' & s' & b' & -> & Hrun).
  rewrite <- app_assoc, app_assoc.
  apply search_finds. intros b.
  destruct (run _ _ (Pos b' s') Some) as [z|] eqn:Ez; [|contradiction].
  eapply (run_Extends post _ _ Hp); [exact Ez | reflexivity |].
  intros; discriminate.
Qed.

Lemma TERMINAL_positive : allPositive TERMINAL_PATTERNS = true.
Proof. vm_compute. reflexivity. Qed.

Lemma not_blank_unit s :
  forallb isWhiteSpace s = false ->
  exists c, In c s /\ isWhiteSpace c = false.
Proof.
  induction s as [|c s IH]; simpl; [discriminate|].
  destruct (isWhiteSpace c) eqn:E; simpl.
  - intros H. destruct (IH H) as (c' & Hin & Hc'). eauto.
  - intros _. eauto.
Qed.

Lemma nonBlank_of_match p s :
  In p (CODE_PATTERNS ++ TERMINAL_PATTERNS) ->
  allMatches p s <> [] -> nonBlank s = true.
Proof.
  intros Hp Hm. destruct (forallb isWhiteSpace s) eqn:E.
  - exfalso. apply Hm. now apply allMatches_blank.
  - apply not_blank_unit in E. destruct E as (c & Hin & Hc).
    eapply nonBlank_intro; eauto.
Qed.

Lemma firstPerKey_keys seen l k :
  In k (map keyOf l) -> ~ In k seen ->
  In k (map keyOf (firstPerKey seen l)).
Proof.
  revert seen. induction l as [|i l IH]; intros seen; simpl; [tauto|].
  intros Hin Hs. destruct (existsb _ seen) eqn:E.
  - apply seen_iff in E. destruct Hin as [Hin|Hin]; [congruence|].
    now apply IH.
  - destruct (key_dec (keyOf i) k) as [Hk|Hk]; [now left|].
    right. destruct Hin as [Hin|Hin]; [contradiction|].
    apply IH; auto. intros H. apply in_app_or in H.
    destruct H as [H|[H|[]]]; auto.
Qed.

(** The keys of the log findings are the keys of the rules that match
    somewhere in the logs. *)
Lemma logFindings_key_iff logs k :
  In k (map keyOf (logFindings logs)) <->
  exists p, In p TERMINAL_PATTERNS /\ patternKey p = k /\
            allMatches p logs <> [].
Proof.
  split.
  - intros H. apply in_map_iff in H. destruct H as (i & <- & Hi).
    apply in_logFindings in Hi. destruct Hi as (p & m & Hp & Hm & ->).
    exists p. repeat split; auto. intros E. now rewrite E in Hm.
  - intros (p & Hp & <- & Hm).
    apply firstPerKey_keys; [|intros []].
    unfold logCandidates.
    rewrite (@nonBlank_of_match p logs); auto;
      [|apply in_or_app; now right].
    destruct (allMatches p logs) as [|m ms] eqn:E; [contradiction|].
    apply in_map_iff. exists (logIssue logs p m). split; [reflexivity|].
    apply in_flat_map. exists p. split; [exact Hp|].
    rewrite E. now left.
Qed.

Lemma keys_of_type ty l :
  map keyOf (filter (hasType ty) l) =
  filter (fun k => severity_eqb (snd k) ty) (map keyOf l).
Proof.
  induction l as [|i l IH]; simpl; [reflexivity|].
  unfold hasType at 1. destruct (severity_eqb (Issue.type i) ty); simpl;
    now rewrite IH.
Qed.

Lemma logFindings_incl logs before after :
  incl (map keyOf (logFindings logs))
       (map keyOf (logFindings (before ++ logs ++ after))).
Proof.
  intros k Hk. apply logFindings_key_iff in Hk.
  destruct Hk as (p & Hp & Hkey & Hm).
  apply logFindings_key_iff. exists p. repeat split; auto.
  pose proof TERMINAL_positive as Hpos. unfold allPositive in Hpos.
  rewrite forallb_forall in Hpos. specialize (Hpos p Hp).
  apply andb_true_iff in Hpos. destruct Hpos as [Hpos Hg].
  now apply positive_found.
Qed.

Lemma logFindings_count_mono ty logs before after :
  length (filter (hasType ty) (logFindings logs)) <=
  length (filter (hasType ty) (logFindings (before ++ logs ++ after))).
Proof.
  rewrite <- (length_map keyOf), <- (length_map keyOf (filter _ (logFindings (_ ++ _)))).
  rewrite !keys_of_type.
  apply NoDup_incl_length.
  - apply NoDup_filter, firstPerKey_NoDup.
  - intros k Hk. apply filter_In in Hk. destruct Hk as [Hk Hty].
    apply filter_In. split; [|exact Hty].
    now apply logFindings_incl.
Qed.

(** X20: text added before or after the logs never hides a log
    finding: every (category, severity) pair reported for the logs is
    still reported for the longer logs, so with the same code no count
    of the report goes down. *)
Theorem more_logs_keep_findings
    (codeSnippet before terminalLogs after : jsstring) :
  incl (map keyOf (logFindings terminalLogs))
       (map keyOf (logFindings (before ++ terminalLogs ++ after))) /\
  exists r r',
    analyzeCode codeSnippet terminalLogs = Some r /\
    analyzeCode codeSnippet (before ++ terminalLogs ++ after) = Some r' /\
    Stats.errors (stats r) <= Stats.errors (stats r') /\
    Stats.warnings (stats r) <= Stats.warnings (stats r') /\
    Stats.info (stats r) <= Stats.info (stats r') /\
    length (issues r) <= length (issues r').
Proof.
  split; [apply logFindings_incl|].
  do 2 eexists. split; [apply analyzeCode_spec|].
  split; [apply analyzeCode_spec|].
  assert (Hc : forall ty,
    countType ty (arraySort bySeverity
                    (codeFindings codeSnippet ++ logFindings terminalLogs)) <=
    countType ty (arraySort bySeverity
                    (codeFindings codeSnippet ++
                     logFindings (before ++ terminalLogs ++ after)))).
  { intros ty. unfold countType.
    change (fun i => severity_eqb (Issue.type i) ty) with (hasType ty).
    rewrite !arraySort_stable, !filter_app, !length_app.
    pose proof (logFindings_count_mono ty terminalLogs before after). lia. }
  cbn [stats issues report Stats.errors Stats.warnings Stats.info].
  split; [apply Hc|]. split; [apply Hc|]. split; [apply Hc|].
  rewrite <- !countType_sum.
  pose proof (Hc error). pose proof (Hc warning). pose proof (Hc info). lia.
Qed.
